(** * voice_pay: order-book indexer, risk checker, order matcher, pricing

    A shallow embedding of the trading core of [web3_service]:

    - [src/trading/pricing.ts]      ([Pricing]: [getErc20Decimals],
                                     [parseDecimalToUnits], [formatUnitsHuman]);
    - [src/indexer/orderbook-indexer.ts] ([Indexer]: [sync], [scanRange],
                                     [getLogsSafe], [getActiveSellOrders]);
    - [src/risk/risk-checker.ts]    ([RiskChecker]: [checkRisk]);
    - [src/trading/match-order.ts]  ([MatchOrder]: [ensureAllowance],
                                     [matchOrder]).

    Conventions.  A JavaScript string is a Rocq [string], read as a sequence
    of code units in the range 0..255; a [bigint], and a [number] that holds
    a block number, a chain id or a quantity, is a [Z].  Asynchronous code is
    sequential here (every call is awaited), so it is embedded with explicit
    state passing: the state [Sys] carries the index file and the trace of
    effects, and everything that the outside decides (RPC answers, the wall
    clock, random bytes) is read from a script [World], indexed by the number
    of external calls made so far. *)

From Stdlib Require Import ZArith Lia List Ascii String Bool.
From stdpp Require Import base option list strings gmap.

Local Open Scope Z_scope.

(** ** JavaScript string primitives *)

Module JS.

Definition code (c : ascii) : Z := Z.of_N (N_of_ascii c).

(** [\s], and the characters removed by [String.prototype.trim]:
    TAB, LF, VT, FF, CR, SP and NBSP (the ones below 256). *)
Definition is_space (c : ascii) : bool :=
  ((9 <=? code c) && (code c <=? 13)) || (code c =? 32) || (code c =? 160).

(** [\d] and [[0-9]] *)
Definition is_digit (c : ascii) : bool := (48 <=? code c) && (code c <=? 57).

(** [[0-9a-fA-F]] *)
Definition is_hex (c : ascii) : bool :=
  is_digit c
  || ((97 <=? code c) && (code c <=? 102))
  || ((65 <=? code c) && (code c <=? 70)).

Definition is_comma (c : ascii) : bool := code c =? 44.
Definition is_dot (c : ascii) : bool := code c =? 46.

(** [String.prototype.toLowerCase] on code units below 256: A-Z, and the
    Latin-1 capitals U+00C0..U+00DE except the multiplication sign. *)
Definition lower_char (c : ascii) : ascii :=
  if ((65 <=? code c) && (code c <=? 90))
     || ((192 <=? code c) && (code c <=? 222) && negb (code c =? 215))
  then ascii_of_N (N_of_ascii c + 32)
  else c.

Definition toLowerCase (s : string) : string :=
  string_of_list_ascii (map lower_char (list_ascii_of_string s)).

Fixpoint drop_while (p : ascii -> bool) (l : list ascii) : list ascii :=
  match l with
  | [] => []
  | c :: t => if p c then drop_while p t else l
  end.

Fixpoint take_while (p : ascii -> bool) (l : list ascii) : list ascii :=
  match l with
  | [] => []
  | c :: t => if p c then c :: take_while p t else []
  end.

(** [s.trim()] *)
Definition trim_chars (l : list ascii) : list ascii :=
  rev (drop_while is_space (rev (drop_while is_space l))).

Definition trim (s : string) : string :=
  string_of_list_ascii (trim_chars (list_ascii_of_string s)).

(** [s.replace(/,/g, '')] *)
Definition strip_commas (l : list ascii) : list ascii :=
  List.filter (fun c => negb (is_comma c)) l.

(** [s.split(/[,\s]+/g)]: the pieces between maximal runs of separators.
    [cur] is the piece being read, reversed; [insep] tells that the
    previous character was a separator. A separator run at the start or
    the end of the string yields an empty first or last piece, as in
    JavaScript. *)
Definition is_sep (c : ascii) : bool := is_comma c || is_space c.

Fixpoint split_seps (cur : list ascii) (insep : bool) (l : list ascii)
  : list (list ascii) :=
  match l with
  | [] => [rev cur]
  | c :: t =>
      if is_sep c
      then if insep then split_seps [] true t
           else rev cur :: split_seps [] true t
      else split_seps (c :: cur) false t
  end.

Definition split (s : string) : list string :=
  map string_of_list_ascii (split_seps [] false (list_ascii_of_string s)).

(** [BigInt(s)] for a string of decimal digits, and the value of one
    digit. *)
Definition digit_val (c : ascii) : Z := code c - 48.

Definition digits_value (l : list ascii) : Z :=
  fold_left (fun a c => 10 * a + digit_val c) l 0.

Definition digit_of (n : Z) : ascii := ascii_of_N (Z.to_N (48 + n)).

(** [n.toString()] for a [bigint] [n >= 0]: the decimal digits, most
    significant first, ["0"] for zero. [fuel] bounds the number of digits. *)
Fixpoint to_digits (fuel : nat) (n : Z) (acc : list ascii) : list ascii :=
  match fuel with
  | O => acc
  | S f =>
      let acc' := digit_of (n mod 10) :: acc in
      if n / 10 =? 0 then acc' else to_digits f (n / 10) acc'
  end.

Definition bigint_toString (n : Z) : list ascii :=
  to_digits (S (Z.to_nat (Z.log2 n))) n [].

(** [Number(b)] for a [bigint] [b]: exact below 2^53 in absolute value,
    rounded to 53 significant bits (ties to even) above. The result is an
    integer; the overflow to [Infinity] beyond the double range is not
    separated from a large finite value, which no comparison made in this
    program distinguishes. *)
Definition round53 (m : Z) : Z :=
  if m <? 2 ^ 53 then m
  else
    let k := Z.log2 m - 52 in
    let q := Z.shiftr m k in
    let r := Z.land m (Z.ones k) in
    let half := 2 ^ (k - 1) in
    let up := (half <? r) || ((half =? r) && Z.odd q) in
    Z.shiftl (if up then q + 1 else q) k.

Definition Number_of_bigint (b : Z) : Z :=
  if b <? 0 then - round53 (- b) else round53 b.

End JS.

(** ** Errors and results *)

(** What the program throws. One constructor per [throw] site of the four
    source files, and per kind of failure of the libraries and services they
    call. *)
Inductive Error : Type :=
| InvalidAmount (human : string)          (* pricing.ts: Invalid amount: "..." *)
| InvalidDecimals                         (* pricing.ts: Invalid decimals() for ... *)
| EthersInvalidArgument                   (* ethers: INVALID_ARGUMENT *)
| EthersNumericFault                      (* ethers: NUMERIC_FAULT *)
| NoHealthyRpc                            (* No healthy RPC endpoint *)
| RpcFailure                              (* a provider or contract call rejected *)
| QuantityExceeded (quantity max : Z)     (* risk-checker.ts: quantity=.. exceeds MAX_QTY=.. *)
| CollectionNotAllowed (collection : string)
| PriceExceedsMaxUnitRaw (price max : Z)
| TotalExceedsMaxTotalRaw (total max : Z)
| PriceExceedsMaxUnitUsdOL (price max : Z)
| TotalExceedsMaxTotalUsdOL (total max : Z)
| CurrencyNotUsdol (currency : string)    (* match-order.ts: Sell order currency is not USDOL *)
| ExecutionFailed                         (* match-order.ts: receipt.status !== 1 *)
| InvalidPrivateKey                       (* secp256k1: a private key that is 0 or not below the order of the curve *)
| JsTypeError.                            (* TypeError: Cannot read properties of undefined *)

Inductive Result (A : Type) : Type :=
| Ok (a : A)
| Throw (e : Error).

Arguments Ok {A} a.
Arguments Throw {A} e.

(** ** The two ethers functions behind the unit conversions *)

(** [parseUnits] and [formatUnits] are functions of the ethers library
    (version 6: [utils/units.ts], [utils/fixednumber.ts]), not of this
    repository. They are given here by what the library does with a decimal
    string and a number of decimals: both go through a signed fixed-point
    format of width 512, which accepts at most 80 decimals and values in
    [-2^511, 2^511). The number of decimals is a [nat]: the program only
    passes what [getErc20Decimals] accepted, an integer in 0..255. *)
Module Ethers.
Import JS.

Definition zero : ascii := "0"%char.
Definition is_zero (c : ascii) : bool := code c =? 48.

(** getFormat: [assertArgument(decimals <= 80, ...)] *)
Definition format_ok (decimals : nat) : bool := (decimals <=? 80)%nat.

(** checkValue, signed, width 512 *)
Definition value_ok (v : Z) : bool := (- 2 ^ 511 <=? v) && (v <? 2 ^ 511).

(** The groups of the pattern of fromString (an optional minus sign, any
    number of digits, an optional dot, any number of digits, anchored at
    both ends): sign, whole, decimal; [None] when the string does not
    match. *)
Definition fixed_groups (l : list ascii)
  : option (bool * list ascii * list ascii) :=
  let '(neg, l1) :=
    match l with
    | c :: t => if code c =? 45 then (true, t) else (false, l)
    | [] => (false, l)
    end in
  let whole := take_while is_digit l1 in
  let l2 := drop_while is_digit l1 in
  let l3 := match l2 with
            | c :: t => if is_dot c then t else l2
            | [] => l2
            end in
  let dec := take_while is_digit l3 in
  match drop_while is_digit l3 with
  | [] => Some (neg, whole, dec)
  | _ :: _ => None
  end.

(** FixedNumber.fromString(value, { decimals, width: 512 }).value *)
Definition parseUnits (value : string) (decimals : nat) : Result Z :=
  if negb (format_ok decimals) then Throw EthersInvalidArgument else
  match fixed_groups (list_ascii_of_string value) with
  | None => Throw EthersInvalidArgument
  | Some (neg, whole, dec) =>
      if (length whole + length dec =? 0)%nat then Throw EthersInvalidArgument
      else
        let whole := match whole with [] => [zero] | _ => whole end in
        (* while (decimal.length < format.decimals) decimal += Zeros *)
        let padded := dec ++ repeat zero (decimals - length dec) in
        (* too many decimals for format *)
        if negb (forallb is_zero (drop decimals padded))
        then Throw EthersNumericFault
        else
          let v := digits_value (whole ++ take decimals padded) in
          let v := if neg then - v else v in
          if value_ok v then Ok v else Throw EthersNumericFault
  end.

(** Trim the whole component, leaving at least one digit. *)
Fixpoint trim_whole (l : list ascii) : list ascii :=
  match l with
  | c :: (_ :: _) as t => if is_zero c then trim_whole t else l
  | _ => l
  end.

(** Trim the decimal component, leaving at least one digit. *)
Definition trim_decimal (l : list ascii) : list ascii :=
  rev (trim_whole (rev l)).

(** toString(val, decimals) of fixednumber.ts, for [val >= 0]. The source
    pads with zeros four at a time and then trims the whole component;
    padding to exactly [decimals + 1] digits gives the same string. *)
Definition fixed_toString (val : Z) (decimals : nat) : list ascii :=
  let str := bigint_toString val in
  match decimals with
  | O => str
  | S _ =>
      let str := repeat zero (S decimals - length str) ++ str in
      let index := (length str - decimals)%nat in
      trim_whole (take index str) ++ "."%char :: trim_decimal (drop index str)
  end.

(** FixedNumber.fromValue(value, decimals, { decimals, width: 512 }).toString() *)
Definition formatUnits (value : Z) (decimals : nat) : Result string :=
  if negb (format_ok decimals) then Throw EthersInvalidArgument else
  if negb (value_ok value) then Throw EthersNumericFault else
  Ok (string_of_list_ascii
        (if value <? 0
         then "-"%char :: fixed_toString (- value) decimals
         else fixed_toString value decimals)).

End Ethers.

(** ** src/indexer/types.ts *)

Record NFTInfo : Type := {
  tokenId : Z;
  collectionAddr : string;
  amount : Z;
}.

Record Order : Type := {
  side : Z;
  saleKind : Z;
  maker : string;
  nft : NFTInfo;
  price : Z;
  currency : string;
  expiry : Z;
  salt : Z;
}.

(** The numeric fields of a persisted order are decimal strings, written by
    [BigInt.prototype.toString] (toPersistedOrder) and read back by
    [BigInt(...)] (fromPersistedOrder), which is the identity on them: a
    persisted numeric field is given by the integer it denotes. *)
Record PersistedOrder : Type := {
  p_side : Z;
  p_saleKind : Z;
  p_maker : string;
  p_nft : NFTInfo;
  p_price : Z;
  p_currency : string;
  p_expiry : Z;
  p_salt : Z;
}.

(** 'open' | 'cancelled' | 'filled' *)
Inductive Status : Type := open | cancelled | filled.

Record IndexedOrder : Type := {
  orderKey : string;
  order : PersistedOrder;
  status : Status;
  firstSeenBlock : Z;
  lastUpdateBlock : Z;
}.

(** ** Plain objects used as maps *)

(** [state.ordersByKey] is a plain object used as a map from order keys.
    Its own properties are given in the order in which they were created:
    [obj[k]] reads the property named [k], [obj[k] = v] changes it where it
    stands, or creates it after the others. *)
Record JsObject (A : Type) : Type := { own : list (string * A) }.

Arguments own {A} _.

Fixpoint assoc {A} (k : string) (l : list (string * A)) : option A :=
  match l with
  | [] => None
  | (k', v) :: rest => if String.eqb k' k then Some v else assoc k rest
  end.

Fixpoint assign {A} (k : string) (v : A) (l : list (string * A))
  : list (string * A) :=
  match l with
  | [] => [(k, v)]
  | (k', v') :: rest =>
      if String.eqb k' k then (k', v) :: rest
      else (k', v') :: assign k v rest
  end.

Global Instance JsObject_lookup {A} : Lookup string A (JsObject A) :=
  fun k o => assoc k (own o).

Global Instance JsObject_insert {A} : Insert string A (JsObject A) :=
  fun k v o => {| own := assign k v (own o) |}.

Global Instance JsObject_empty {A} : Empty (JsObject A) := {| own := [] |}.

Global Instance JsObject_singleton {A} : SingletonM string A (JsObject A) :=
  fun k v => {| own := [(k, v)] |}.

(** The keys that are array indices: the decimal numerals of the integers
    from 0 to 2^32 - 2, without a leading zero. *)
Definition array_index (k : string) : option Z :=
  match list_ascii_of_string k with
  | [] => None
  | c :: rest =>
      if forallb JS.is_digit (c :: rest)
         && (negb (JS.code c =? 48) || (length rest =? 0)%nat)
         && (JS.digits_value (c :: rest) <=? 2 ^ 32 - 2)
      then Some (JS.digits_value (c :: rest))
      else None
  end.

(** The properties of a list, each key once, where it first stands. *)
Fixpoint first_of_each {A} (seen : list string) (l : list (string * A))
  : list (string * A) :=
  match l with
  | [] => []
  | (k, v) :: rest =>
      if bool_decide (k ∈ seen) then first_of_each seen rest
      else (k, v) :: first_of_each (k :: seen) rest
  end.

Fixpoint insert_by_index {A} (i : Z) (e : string * A)
    (l : list (Z * (string * A))) : list (Z * (string * A)) :=
  match l with
  | [] => [(i, e)]
  | (j, e') :: rest =>
      if j <? i then (j, e') :: insert_by_index i e rest
      else (i, e) :: l
  end.

Definition indexed_entries {A} (l : list (string * A))
  : list (Z * (string * A)) :=
  fold_right
    (fun e acc =>
       match array_index (fst e) with
       | Some i => insert_by_index i e acc
       | None => acc
       end)
    [] l.

Definition named_entries {A} (l : list (string * A)) : list (string * A) :=
  List.filter (fun e => match array_index (fst e) with
                        | Some _ => false
                        | None => true
                        end) l.

(** [Object.entries(obj)]: the properties whose keys are array indices, in
    ascending order of the index, and then the others in the order of their
    creation. *)
Definition Object_entries {A} (o : JsObject A) : list (string * A) :=
  let l := first_of_each [] (own o) in
  map snd (indexed_entries l) ++ named_entries l.

Record IndexState : Type := {
  chainId : Z;
  orderbook : string;
  lastScannedBlock : Z;
  ordersByKey : JsObject IndexedOrder;
}.

Global Instance Status_eq_dec : EqDecision Status.
Proof. solve_decision. Defined.

(** ** The outside: chain, endpoints, clock, and the state of the process *)

(** The three kinds of logs that scanRange fetches, each with what
    [iface.parseLog] makes of it and the arguments the loop reads: [None]
    when parseLog throws or returns null. *)
Record MakeLog : Type := {
  mk_blockNumber : Z;
  mk_orderKey : option string;
}.

Record CancelLog : Type := {
  cn_blockNumber : Z;
  cn_orderKey : option string;
}.

Record MatchArgs : Type := {
  makeOrderKey : string;
  takeOrderKey : string;
  makeSide : Z;            (* Number(makeOrder.side) *)
  takeSide : Z;            (* Number(takeOrder.side) *)
}.

Record MatchLog : Type := {
  mt_blockNumber : Z;
  mt_args : option MatchArgs;
}.

Inductive Topic : Type := LogMake | LogCancel | LogMatch.

(** The buy order handed to the order-book contract (BuyOrder has the shape
    of Order). *)
Definition BuyOrder : Type := Order.

(** Everything the program asks of the outside. An answer may change from
    one call to the next: the first argument of the fields below is the
    number of external calls made so far. An RPC call names the endpoint
    (its URL) it goes to; [None] is a call that rejects. *)
Record World : Type := {
  (* ethers getAddress: the checksummed address, None when it throws *)
  getAddress : string -> option string;
  (* new Wallet(privateKey).getAddress() *)
  walletAddress : string -> string;
  (* parseInt(process.env.INDEXER_BATCH_SIZE || '500', 10) *)
  batchSize : Z;
  (* provider.getBlockNumber() *)
  rpc_blockNumber : nat -> string -> option Z;
  (* provider.getLogs({ address, fromBlock, toBlock, topics: [topic] }) *)
  rpc_makeLogs : nat -> string -> Z -> Z -> option (list MakeLog);
  rpc_cancelLogs : nat -> string -> Z -> Z -> option (list CancelLog);
  rpc_matchLogs : nat -> string -> Z -> Z -> option (list MatchLog);
  (* ob.orders(orderKey): the order tuple; None when the call throws or the
     result holds no order *)
  rpc_orders : nat -> string -> string -> option Order;
  (* token.decimals(), as Number(...) of the answer *)
  rpc_decimals : nat -> string -> string -> option Z;
  (* usdol.allowance(owner, spender) *)
  rpc_allowance : nat -> string -> string -> string -> option Z;
  (* usdol.approve(spender, amount) followed by tx.wait(): mined or not *)
  rpc_approve : nat -> string -> string -> Z -> bool;
  (* ob.matchOrder(sell, buy) followed by tx.wait(): the hash and the
     status of the receipt (None for a null receipt) *)
  rpc_matchOrder : nat -> string -> Order -> BuyOrder
                   -> option (string * option Z);
  (* Date.now(), in milliseconds *)
  dateNow : nat -> Z;
  (* randomBytes(8), as an integer below 2^64 *)
  randomBytes8 : nat -> Z;
}.

(** What the program does to the outside, in order. *)
Inductive Event : Type :=
| EvScanRange (fromBlock toBlock : Z)            (* scanRange entered *)
| EvGetLogs (t : Topic) (fromBlock toBlock : Z)  (* provider.getLogs called *)
| EvSleep (ms : Z)                               (* setTimeout(r, ms) awaited *)
| EvWriteIndex (path : string) (st : IndexState) (* fs.writeFile *)
| EvAllowance (owner spender : string)           (* usdol.allowance read *)
| EvApprove (spender : string) (amount : Z)      (* usdol.approve submitted *)
| EvMatchOrder (sell : Order) (buy : BuyOrder).  (* ob.matchOrder submitted *)

Record Sys : Type := {
  clock : nat;                          (* external calls made so far *)
  files : gmap string IndexState;       (* index files, by path *)
  provider : string;                    (* OrderbookIndexer.provider, by URL *)
  decimalsCache : gmap string Z;        (* pricing.ts: decimalsCache *)
  trace : list Event;                   (* effects so far, oldest first *)
}.

(** A computation of the program: it may throw, and what it did before
    throwing stays done. [OutOfFuel] is not an error of the program: it
    marks a loop of the model that reached its bound. *)
Inductive Outcome (A : Type) : Type :=
| Return (a : A)
| Raise (e : Error)
| OutOfFuel.

Arguments Return {A} a.
Arguments Raise {A} e.
Arguments OutOfFuel {A}.

Definition M (A : Type) : Type := Sys -> Outcome A * Sys.

Definition ret {A} (a : A) : M A := fun s => (Return a, s).

Definition bind {A B} (m : M A) (k : A -> M B) : M B :=
  fun s =>
    match m s with
    | (Return a, s') => k a s'
    | (Raise e, s') => (Raise e, s')
    | (OutOfFuel, s') => (OutOfFuel, s')
    end.

Definition throw {A} (e : Error) : M A := fun s => (Raise e, s).

(** try { m } catch { h } *)
Definition try_catch {A} (m : M A) (h : Error -> M A) : M A :=
  fun s =>
    match m s with
    | (Raise e, s') => h e s'
    | r => r
    end.

Definition lift {A} (r : Result A) : M A :=
  match r with
  | Ok a => ret a
  | Throw e => throw e
  end.

Declare Scope prog_scope.
Delimit Scope prog_scope with prog.
Notation "x <- m ;; k" := (bind m (fun x => k))
  (at level 100, m at next level, right associativity) : prog_scope.
Notation "m ;;; k" := (bind m (fun _ => k))
  (at level 100, right associativity) : prog_scope.
Local Open Scope prog_scope.

(** The state after one more external call. *)
Definition tock (s : Sys) : Sys :=
  {| clock := S (clock s); files := files s; provider := provider s;
     decimalsCache := decimalsCache s; trace := trace s |}.

Definition tick : M nat := fun s => (Return (clock s), tock s).

(** The state after one more event. *)
Definition logged (e : Event) (s : Sys) : Sys :=
  {| clock := clock s; files := files s; provider := provider s;
     decimalsCache := decimalsCache s; trace := trace s ++ [e] |}.

Definition emit (e : Event) : M unit := fun s => (Return tt, logged e s).

Definition get_provider : M string := fun s => (Return (provider s), s).

Definition set_provider (u : string) : M unit :=
  fun s => (Return tt,
            {| clock := clock s; files := files s; provider := u;
               decimalsCache := decimalsCache s; trace := trace s |}).

(** An external call: read the script at the current call number. *)
Definition ask {A} (q : nat -> A) : M A := n <- tick ;; ret (q n).

(** An external call that may reject. *)
Definition call {A} (q : nat -> option A) : M A :=
  r <- ask q ;;
  match r with
  | Some a => ret a
  | None => throw RpcFailure
  end.

(** ** src/trading/pricing.ts *)

Module Pricing.
Import JS.

(** [/^\d+(\.\d+)?$/.test(l)] *)
Definition amount_re (l : list ascii) : bool :=
  match take_while is_digit l, drop_while is_digit l with
  | [], _ => false
  | _ :: _, [] => true
  | _ :: _, c :: frac =>
      is_dot c && negb (length frac =? 0)%nat && forallb is_digit frac
  end.

(** The characters that a string accepted by [amount_re] is made of. *)
Definition amount_char (c : ascii) : bool := is_digit c || is_dot c.

(** The two components of a string accepted by [amount_re]: the digits
    before the dot and the digits after it (none without a dot). *)
Definition whole_part (l : list ascii) : list ascii := take_while is_digit l.

Definition decimal_part (l : list ascii) : list ascii :=
  match drop_while is_digit l with
  | _ :: frac => frac
  | [] => []
  end.


(** What parseUnits computes on a string accepted by [amount_re]. *)
Definition units_of (l : list ascii) (decimals : nat) : Result Z :=
  if negb (Ethers.format_ok decimals) then Throw EthersInvalidArgument else
  let padded := decimal_part l
                ++ repeat Ethers.zero (decimals - length (decimal_part l)) in
  if negb (forallb Ethers.is_zero (drop decimals padded)) then Throw EthersNumericFault
  else
    let v := digits_value (whole_part l ++ take decimals padded) in
    if Ethers.value_ok v then Ok v else Throw EthersNumericFault.

Definition cleaned (human : string) : list ascii :=
  strip_commas (trim_chars (list_ascii_of_string human)).

Definition parseDecimalToUnits (human : string) (decimals : nat) : Result Z :=
  if negb (amount_re (cleaned human))
  then Throw (InvalidAmount human)
  else Ethers.parseUnits (string_of_list_ascii (cleaned human)) decimals.

Definition formatUnitsHuman (amount : Z) (decimals : nat) : Result string :=
  Ethers.formatUnits amount decimals.

Definition cache_decimals (key : string) (d : Z) : M unit :=
  fun s => (Return tt,
            {| clock := clock s; files := files s; provider := provider s;
               decimalsCache := <[key := d]> (decimalsCache s);
               trace := trace s |}).

(** [provider] is the URL of the endpoint. [Number.isFinite(d)] holds of
    every integer answer. *)
Definition getErc20Decimals (w : World) (provider : string)
    (tokenAddress : string) : M Z :=
  let key := toLowerCase tokenAddress in
  cached <- (fun s => (Return (decimalsCache s !! key), s)) ;;
  match cached with
  | Some cached => ret cached
  | None =>
      d <- call (fun n => rpc_decimals w n provider tokenAddress) ;;
      if (d <? 0) || (255 <? d) then throw InvalidDecimals
      else cache_decimals key d ;;; ret d
  end.

End Pricing.

(** ** src/indexer/orderbook-indexer.ts *)

Module Indexer.

Record IndexerConfig : Type := {
  RPC_URL : string;
  RPC_ENDPOINTS : option (list string);
  CHAIN_ID : Z;
  ORDERBOOK_ADDRESS : string;
  USDOL_ADDRESS : string;
  INDEX_PATH : string;
  INDEXER_FROM_BLOCK : Z;
  COLLECTION_ALLOWLIST : option string;
}.

Definition normAddr (a : string) : string := JS.toLowerCase a.

Definition toPersistedOrder (o : Order) : PersistedOrder :=
  {| p_side := side o;
     p_saleKind := saleKind o;
     p_maker := normAddr (maker o);
     p_nft := {| tokenId := tokenId (nft o);
                 collectionAddr := normAddr (collectionAddr (nft o));
                 amount := amount (nft o) |};
     p_price := price o;
     p_currency := normAddr (currency o);
     p_expiry := expiry o;
     p_salt := salt o |}.

Definition fromPersistedOrder (p : PersistedOrder) : Order :=
  {| side := p_side p;
     saleKind := p_saleKind p;
     maker := p_maker p;
     nft := {| tokenId := tokenId (p_nft p);
               collectionAddr := collectionAddr (p_nft p);
               amount := amount (p_nft p) |};
     price := p_price p;
     currency := p_currency p;
     expiry := p_expiry p;
     salt := p_salt p |}.

Definition isSellOrder (o : Order) : bool :=
  (side o =? 0) && (saleKind o =? 1).

Definition isExpired (o : Order) (nowSec : Z) : bool :=
  if expiry o =? 0 then false
  else JS.Number_of_bigint (expiry o) <=? nowSec.

Definition readIndex (path : string) : M (option IndexState) :=
  fun s => (Return (files s !! path), s).

Definition writeIndex (path : string) (state : IndexState) : M unit :=
  fun s => (Return tt,
            {| clock := clock s; files := <[path := state]> (files s);
               provider := provider s; decimalsCache := decimalsCache s;
               trace := trace s ++ [EvWriteIndex path state] |}).

(** [/^0x[0-9a-fA-F]{40}$/.test(p)] *)
Definition address_re (p : string) : bool :=
  match list_ascii_of_string p with
  | c0 :: c1 :: hex =>
      (JS.code c0 =? 48) && (JS.code c1 =? 120)
      && (length hex =? 40)%nat && forallb JS.is_hex hex
  | _ => false
  end.

(** [raw.split(/[,\s]+/g).map(s => s.trim()).filter(Boolean)] *)
Definition allowlist_parts (raw : string) : list string :=
  List.filter (fun p => negb (String.eqb p EmptyString))
              (map JS.trim (JS.split raw)).

Definition parseAllowlist (raw : option string) : gset string :=
  match raw with
  | None => ∅
  | Some raw =>
      if String.eqb raw EmptyString then ∅
      else
        fold_left
          (fun (set : gset string) p =>
             if address_re p then set ∪ {[ JS.toLowerCase p ]} else set)
          (allowlist_parts raw) ∅
  end.

(** The constructor's [this.urls] *)
Definition urls (cfg : IndexerConfig) : list string :=
  match RPC_ENDPOINTS cfg with
  | Some (u :: l) => u :: l
  | _ => [RPC_URL cfg]
  end.

(** The constructor's [this.provider]: a provider on [this.urls[0]] *)
Definition construct (cfg : IndexerConfig) : M unit :=
  set_provider (hd EmptyString (urls cfg)).

Section WithWorld.
Variable w : World.
Variable cfg : IndexerConfig.

(** The loop of ensureProvider over [this.urls] *)
Fixpoint firstHealthy (us : list string) : M (option string) :=
  match us with
  | [] => ret None
  | u :: rest =>
      r <- ask (fun n => rpc_blockNumber w n u) ;;
      match r with
      | Some _ => ret (Some u)
      | None => firstHealthy rest
      end
  end.

Definition ensureProvider : M unit :=
  u <- get_provider ;;
  r <- ask (fun n => rpc_blockNumber w n u) ;;
  match r with
  | Some _ => ret tt
  | None =>
      o <- firstHealthy (urls cfg) ;;
      match o with
      | Some u' => set_provider u'
      | None => throw NoHealthyRpc
      end
  end.

(** One entry of the stack of getLogsSafe *)
Record Range : Type := {
  r_from : Z;
  r_to : Z;
  attempts : Z;
}.

(** The body of the try block of getLogsSafe: its result, or what it
    threw. *)
Definition fetchLogs {L} (t : Topic)
    (q : nat -> string -> Z -> Z -> option (list L))
    (from to : Z) : M (Error + list L) :=
  try_catch
    (ensureProvider ;;;
     emit (EvGetLogs t from to) ;;;
     u <- get_provider ;;
     logs <- call (fun n => q n u from to) ;;
     ret (inr logs))
    (fun e => ret (inl e)).

(** The while loop of getLogsSafe. The head of [stack] is its top. *)
Fixpoint getLogsSafe_loop {L} (fuel : nat) (t : Topic)
    (q : nat -> string -> Z -> Z -> option (list L))
    (stack : list Range) (out : list L) : M (list L) :=
  match stack with
  | [] => ret out
  | {| r_from := from; r_to := to; attempts := attempts |} :: stack =>
      match fuel with
      | O => fun s => (OutOfFuel, s)
      | S fuel =>
          r <- fetchLogs t q from to ;;
          match r with
          | inr logs => getLogsSafe_loop fuel t q stack (out ++ logs)
          | inl e =>
              if from <? to then
                let mid := (from + to) / 2 in
                getLogsSafe_loop fuel t q
                  ({| r_from := from; r_to := mid; attempts := attempts + 1 |}
                   :: {| r_from := mid + 1; r_to := to; attempts := attempts + 1 |}
                   :: stack) out
              else if attempts <? 2 then
                emit (EvSleep (500 * (attempts + 1))) ;;;
                getLogsSafe_loop fuel t q
                  ({| r_from := from; r_to := to; attempts := attempts + 1 |}
                   :: stack) out
              else throw e
          end
      end
  end.

(** Enough iterations for the loop to come to an end: every block of the
    range is fetched at most three times and there are fewer splits than
    blocks. *)
Definition getLogsSafe_fuel (fromBlock toBlock : Z) : nat :=
  Z.to_nat (4 * Z.max 1 (toBlock - fromBlock + 1)).

Definition getLogsSafe {L} (t : Topic)
    (q : nat -> string -> Z -> Z -> option (list L))
    (fromBlock toBlock : Z) : M (list L) :=
  getLogsSafe_loop (getLogsSafe_fuel fromBlock toBlock) t q
    [{| r_from := fromBlock; r_to := toBlock; attempts := 0 |}] [].

Definition with_orders (state : IndexState)
    (m : JsObject IndexedOrder) : IndexState :=
  {| chainId := chainId state; orderbook := orderbook state;
     lastScannedBlock := lastScannedBlock state; ordersByKey := m |}.

(** The body of [for (const log of makeLogs)]; [ob] is the endpoint that
    the contract object of scanRange was built on. *)
Definition processMake (ob : string) (state : IndexState) (log : MakeLog)
  : M IndexState :=
  match mk_orderKey log with
  | None => ret state
  | Some orderKey =>
      full <- ask (fun n => rpc_orders w n ob orderKey) ;;
      match full with
      | None => ret state
      | Some full =>
          let order :=
            {| side := side full;
               saleKind := saleKind full;
               maker := normAddr (maker full);
               nft := {| tokenId := tokenId (nft full);
                         collectionAddr := normAddr (collectionAddr (nft full));
                         amount := amount (nft full) |};
               price := price full;
               currency := normAddr (currency full);
               expiry := expiry full;
               salt := salt full |} in
          if negb (isSellOrder order) then ret state
          else
            let existing := ordersByKey state !! orderKey in
            let persisted :=
              {| orderKey := orderKey;
                 order := toPersistedOrder order;
                 status :=
                   match existing with
                   | Some e => if decide (status e = filled) then filled else open
                   | None => open
                   end;
                 firstSeenBlock :=
                   match existing with
                   | Some e => firstSeenBlock e
                   | None => mk_blockNumber log
                   end;
                 lastUpdateBlock := mk_blockNumber log |} in
            ret (with_orders state (<[orderKey := persisted]> (ordersByKey state)))
      end
  end.

Fixpoint processMakes (ob : string) (state : IndexState) (logs : list MakeLog)
  : M IndexState :=
  match logs with
  | [] => ret state
  | log :: rest =>
      state' <- processMake ob state log ;;
      processMakes ob state' rest
  end.

(** [existing.status = s; existing.lastUpdateBlock = b] on the entry
    stored under [key] *)
Definition set_status (state : IndexState) (key : string) (e : IndexedOrder)
    (s : Status) (b : Z) : IndexState :=
  with_orders state
    (<[key := {| orderKey := orderKey e; order := order e; status := s;
                 firstSeenBlock := firstSeenBlock e;
                 lastUpdateBlock := b |}]> (ordersByKey state)).

(** The body of [for (const log of cancelLogs)] *)
Definition processCancel (state : IndexState) (log : CancelLog) : IndexState :=
  match cn_orderKey log with
  | None => state
  | Some orderKey =>
      match ordersByKey state !! orderKey with
      | None => state
      | Some existing =>
          set_status state orderKey existing cancelled (cn_blockNumber log)
      end
  end.

(** [makeSide === 0 ? makeOrderKey : takeSide === 0 ? takeOrderKey : null] *)
Definition sellKey_of (a : MatchArgs) : option string :=
  if makeSide a =? 0 then Some (makeOrderKey a)
  else if takeSide a =? 0 then Some (takeOrderKey a)
  else None.

(** The body of [for (const log of matchLogs)] *)
Definition processMatch (state : IndexState) (log : MatchLog) : IndexState :=
  match mt_args log with
  | None => state
  | Some a =>
      let sellKey := sellKey_of a in
      match sellKey with
      | Some sellKey =>
          (* if (sellKey): the empty string is falsy *)
          if String.eqb sellKey EmptyString then state
          else
            match ordersByKey state !! sellKey with
            | Some existing =>
                set_status state sellKey existing filled (mt_blockNumber log)
            | None => state
            end
      | None => state
      end
  end.

(** The ABI of abis.ts declares LogMake, LogCancel and LogMatch, so the
    test for missing events never throws. *)
Definition scanRange (state : IndexState) (fromBlock toBlock : Z)
  : M IndexState :=
  emit (EvScanRange fromBlock toBlock) ;;;
  ensureProvider ;;;
  ob <- get_provider ;;
  makeLogs <- getLogsSafe LogMake (rpc_makeLogs w) fromBlock toBlock ;;
  cancelLogs <- getLogsSafe LogCancel (rpc_cancelLogs w) fromBlock toBlock ;;
  matchLogs <- getLogsSafe LogMatch (rpc_matchLogs w) fromBlock toBlock ;;
  state <- processMakes ob state makeLogs ;;
  let state := fold_left processCancel cancelLogs state in
  let state := fold_left processMatch matchLogs state in
  ret state.

Definition with_lastScannedBlock (state : IndexState) (b : Z) : IndexState :=
  {| chainId := chainId state; orderbook := orderbook state;
     lastScannedBlock := b; ordersByKey := ordersByKey state |}.

(** The for loop of sync, [from] being its loop variable. *)
Fixpoint sync_loop (fuel : nat) (head step : Z) (state : IndexState)
    (from : Z) : M unit :=
  if from <=? head then
    match fuel with
    | O => fun s => (OutOfFuel, s)
    | S fuel =>
        let to := Z.min head (from + step - 1) in
        state <- scanRange state from to ;;
        let state := with_lastScannedBlock state to in
        writeIndex (INDEX_PATH cfg) state ;;;
        sync_loop fuel head step state (from + step)
    end
  else ret tt.

(** The state sync starts from: the file's, or an empty one *)
Definition initial_state (existing : option IndexState) : IndexState :=
  match existing with
  | Some existing =>
      if (chainId existing =? CHAIN_ID cfg)
         && String.eqb (normAddr (orderbook existing))
                       (normAddr (ORDERBOOK_ADDRESS cfg))
      then existing
      else
        {| chainId := CHAIN_ID cfg;
           orderbook := ORDERBOOK_ADDRESS cfg;
           lastScannedBlock := Z.max 0 (INDEXER_FROM_BLOCK cfg - 1);
           ordersByKey := ∅ |}
  | None =>
      {| chainId := CHAIN_ID cfg;
         orderbook := ORDERBOOK_ADDRESS cfg;
         lastScannedBlock := Z.max 0 (INDEXER_FROM_BLOCK cfg - 1);
         ordersByKey := ∅ |}
  end.

Definition fromBlock_of (head : Z) : Z :=
  if 0 <? INDEXER_FROM_BLOCK cfg then INDEXER_FROM_BLOCK cfg
  else Z.max 1 (head - 50000).

Definition start_of (state : IndexState) (head : Z) : Z :=
  Z.max (fromBlock_of head) (lastScannedBlock state + 1).

(** With a batch size of at least one, the loop runs at most once per
    block of [start, head]. *)
Definition sync : M unit :=
  ensureProvider ;;;
  existing <- readIndex (INDEX_PATH cfg) ;;
  let state := initial_state existing in
  u <- get_provider ;;
  head <- call (fun n => rpc_blockNumber w n u) ;;
  let start := start_of state head in
  if head <? start then ret tt
  else
    let step := batchSize w in
    sync_loop (Z.to_nat (head - start + 1)) head step state start.

(** One element of the array returned by getActiveSellOrders *)
Record OrderEntry : Type := {
  e_orderKey : string;
  e_order : Order;
  e_status : Status;
  e_firstSeenBlock : Z;
  e_lastUpdateBlock : Z;
}.

(** The object that the loop pushes for the entry [p] under [orderKey] *)
Definition entry_of (orderKey : string) (p : IndexedOrder) : OrderEntry :=
  {| e_orderKey := orderKey;
     e_order := fromPersistedOrder (order p);
     e_status := status p;
     e_firstSeenBlock := firstSeenBlock p;
     e_lastUpdateBlock := lastUpdateBlock p |}.

(** The body of the loop over [Object.entries(state.ordersByKey)]:
    [None] for an entry that is skipped. *)
Definition activeEntry (nowSec : Z) (allowlist : gset string)
    (kp : string * IndexedOrder) : option OrderEntry :=
  let '(orderKey, p) := kp in
  let allowOnly := (0 <? size allowlist)%nat in
  if negb (bool_decide (status p = open)) then None else
  let order := fromPersistedOrder (order p) in
  if negb (isSellOrder order) then None else
  if negb (String.eqb (normAddr (currency order)) (normAddr (USDOL_ADDRESS cfg)))
  then None else
  if negb (amount (nft order) =? 1) then None else
  if isExpired order nowSec then None else
  if allowOnly
     && negb (bool_decide (normAddr (collectionAddr (nft order)) ∈ allowlist))
  then None else
  Some (entry_of orderKey p).

Definition getActiveSellOrders : M (list OrderEntry) :=
  state <- readIndex (INDEX_PATH cfg) ;;
  match state with
  | None => ret []
  | Some state =>
      now <- ask (dateNow w) ;;
      let nowSec := now / 1000 in
      let allowlist := parseAllowlist (COLLECTION_ALLOWLIST cfg) in
      ret (omap (activeEntry nowSec allowlist)
                (Object_entries (ordersByKey state)))
  end.

End WithWorld.

End Indexer.

(** ** src/risk/risk-checker.ts *)

Module RiskChecker.

Record RiskConfig : Type := {
  RPC_URL : string;
  RPC_ENDPOINTS : option (list string);
  CHAIN_ID : Z;
  USDOL_ADDRESS : string;
  MAX_QTY : Z;
  COLLECTION_ALLOWLIST : option string;
}.

Record RiskIntent : Type := {
  quantity : Z;
  maxUnitPriceUsdOL : option string;
  maxTotalUsdOL : option string;
  maxUnitPriceRaw : option Z;
  maxTotalRaw : option Z;
}.

(** The truth value of an optional string: undefined and the empty string
    are falsy. *)
Definition truthy (o : option string) : bool :=
  match o with
  | Some s => negb (String.eqb s EmptyString)
  | None => false
  end.

(** [/^0x[0-9a-fA-F]{40}$/.test(p)] *)
Definition address_re (p : string) : bool :=
  match list_ascii_of_string p with
  | c0 :: c1 :: hex =>
      (JS.code c0 =? 48) && (JS.code c1 =? 120)
      && (length hex =? 40)%nat && forallb JS.is_hex hex
  | _ => false
  end.

Definition parseAllowlist (raw : option string) : gset string :=
  match raw with
  | None => ∅
  | Some raw =>
      if String.eqb raw EmptyString then ∅
      else
        fold_left
          (fun (set : gset string) p =>
             if address_re p then set ∪ {[ JS.toLowerCase p ]} else set)
          (List.filter (fun p => negb (String.eqb p EmptyString))
                       (map JS.trim (JS.split raw)))
          ∅
  end.

Definition urls (cfg : RiskConfig) : list string :=
  match RPC_ENDPOINTS cfg with
  | Some (u :: l) => u :: l
  | _ => [RPC_URL cfg]
  end.

(** [for (const x of l) body(x)], where the body may throw *)
Fixpoint for_each {A} (l : list A) (body : A -> M unit) : M unit :=
  match l with
  | [] => ret tt
  | x :: rest => body x ;;; for_each rest body
  end.

(** [selectedOrders.reduce((acc, o) => acc + o.order.price, 0n)] *)
Definition total_price (selectedOrders : list Order) : Z :=
  fold_left (fun acc o => acc + price o) selectedOrders 0.

Section WithWorld.
Variable w : World.
Variable cfg : RiskConfig.

Fixpoint pickProvider_from (us : list string) : M string :=
  match us with
  | [] => throw NoHealthyRpc
  | u :: rest =>
      r <- ask (fun n => rpc_blockNumber w n u) ;;
      match r with
      | Some _ => ret u
      | None => pickProvider_from rest
      end
  end.

Definition pickProvider : M string := pickProvider_from (urls cfg).

Definition checkRisk (intent : RiskIntent) (selectedOrders : list Order)
  : M unit :=
  (if MAX_QTY cfg <? quantity intent
   then throw (QuantityExceeded (quantity intent) (MAX_QTY cfg))
   else ret tt) ;;;
  let allowlist := parseAllowlist (COLLECTION_ALLOWLIST cfg) in
  (if (0 <? size allowlist)%nat then
     for_each selectedOrders (fun o =>
       match getAddress w (collectionAddr (nft o)) with
       | None => throw EthersInvalidArgument
       | Some a =>
           let c := JS.toLowerCase a in
           if bool_decide (c ∈ allowlist) then ret tt
           else throw (CollectionNotAllowed (collectionAddr (nft o)))
       end)
   else ret tt) ;;;
  (match maxUnitPriceRaw intent with
   | Some maxUnit =>
       for_each selectedOrders (fun o =>
         if maxUnit <? price o
         then throw (PriceExceedsMaxUnitRaw (price o) maxUnit)
         else ret tt)
   | None => ret tt
   end) ;;;
  (match maxTotalRaw intent with
   | Some maxTotal =>
       let total := total_price selectedOrders in
       if maxTotal <? total
       then throw (TotalExceedsMaxTotalRaw total maxTotal)
       else ret tt
   | None => ret tt
   end) ;;;
  if truthy (maxUnitPriceUsdOL intent) || truthy (maxTotalUsdOL intent) then
    provider <- pickProvider ;;
    usdolDecimals <- Pricing.getErc20Decimals w provider (USDOL_ADDRESS cfg) ;;
    (match maxUnitPriceUsdOL intent with
     | Some human =>
         if truthy (Some human) then
           maxUnit <- lift (Pricing.parseDecimalToUnits human
                              (Z.to_nat usdolDecimals)) ;;
           for_each selectedOrders (fun o =>
             if maxUnit <? price o
             then throw (PriceExceedsMaxUnitUsdOL (price o) maxUnit)
             else ret tt)
         else ret tt
     | None => ret tt
     end) ;;;
    (match maxTotalUsdOL intent with
     | Some human =>
         if truthy (Some human) then
           maxTotal <- lift (Pricing.parseDecimalToUnits human
                               (Z.to_nat usdolDecimals)) ;;
           let total := total_price selectedOrders in
           if maxTotal <? total
           then throw (TotalExceedsMaxTotalUsdOL total maxTotal)
           else ret tt
         else ret tt
     | None => ret tt
     end)
  else ret tt.

End WithWorld.

End RiskChecker.

(** ** src/trading/match-order.ts *)

Module MatchOrder.

Record OrderMatchConfig : Type := {
  RPC_URL : string;
  RPC_ENDPOINTS : option (list string);
  CHAIN_ID : Z;
  ORDERBOOK_ADDRESS : string;
  USDOL_ADDRESS : string;
  WHIMLAND_PRIVATE_KEY : string;
}.

(** Both options may be absent; an absent option is falsy. *)
Record MatchOrderOptions : Type := {
  dryRun : option bool;
  approveMax : option bool;
}.

Definition truthy (o : option bool) : bool :=
  match o with
  | Some b => b
  | None => false
  end.

(** ethers [MaxUint256] *)
Definition MaxUint256 : Z := 2 ^ 256 - 1.

Section WithWorld.
Variable w : World.

Fixpoint pickProvider (urls : list string) (chainId : Z) : M string :=
  match urls with
  | [] => throw NoHealthyRpc
  | u :: rest =>
      r <- ask (fun n => rpc_blockNumber w n u) ;;
      match r with
      | Some _ => ret u
      | None => pickProvider rest chainId
      end
  end.

(** [wallet] is given by the private key and the endpoint it is
    connected to. *)
Definition ensureAllowance (cfg : OrderMatchConfig)
    (walletKey walletProvider : string)
    (required : Z) (opts : MatchOrderOptions) : M unit :=
  let owner := walletAddress w walletKey in
  emit (EvAllowance owner (ORDERBOOK_ADDRESS cfg)) ;;;
  current <- call (fun n => rpc_allowance w n walletProvider owner
                              (ORDERBOOK_ADDRESS cfg)) ;;
  if required <=? current then ret tt
  else
    let amount := if truthy (approveMax opts) then MaxUint256 else required in
    if truthy (dryRun opts) then ret tt
    else
      emit (EvApprove (ORDERBOOK_ADDRESS cfg) amount) ;;;
      mined <- ask (fun n => rpc_approve w n walletProvider
                               (ORDERBOOK_ADDRESS cfg) amount) ;;
      if mined then ret tt else throw RpcFailure.

(** [getAddress(a)], which throws on what is not an address *)
Definition checked_address (a : string) : M string :=
  match getAddress w a with
  | Some c => ret c
  | None => throw EthersInvalidArgument
  end.

Definition buildBuyOrderFromSell (sell : Order) (buyer : string)
    (ttlSec : Z) : M BuyOrder :=
  ms <- ask (dateNow w) ;;
  let now := ms / 1000 in
  salt <- ask (randomBytes8 w) ;;
  maker <- checked_address buyer ;;
  collection <- checked_address (collectionAddr (nft sell)) ;;
  currency <- checked_address (currency sell) ;;
  ret {| side := 1;
         saleKind := 1;
         maker := maker;
         nft := {| tokenId := tokenId (nft sell);
                   collectionAddr := collection;
                   amount := 1 |};
         price := price sell;
         currency := currency;
         expiry := now + ttlSec;
         salt := if salt =? 0 then 1 else salt |}.

(** The value of a hexadecimal digit, and of a string of them. *)
Definition hex_val (c : ascii) : Z :=
  if JS.is_digit c then JS.code c - 48
  else if 97 <=? JS.code c then JS.code c - 87
  else JS.code c - 55.

Definition hex_value (l : list ascii) : Z :=
  fold_left (fun acc c => acc * 16 + hex_val c) l 0.

(** The order of the group of the curve secp256k1 *)
Definition secp256k1_n : Z :=
  115792089237316195423570985008687907852837564279074904382605163141518161494337.

(** [new Wallet(privateKey, provider)] is a constructor of the ethers
    library (version 6: [wallet/wallet.ts], [crypto/signing-key.ts]), not of
    this repository. A key that does not begin with 0x is given that
    prefix; what follows must be 32 bytes in hexadecimal, or the
    constructor throws INVALID_ARGUMENT; the address is computed from the
    public key, which the curve gives for the keys from 1 to its order
    minus 1 only. *)
Definition new_Wallet (privateKey : string) : Result unit :=
  let l := list_ascii_of_string privateKey in
  let digits :=
    match l with
    | c0 :: c1 :: rest =>
        if (JS.code c0 =? 48) && (JS.code c1 =? 120) then rest else l
    | _ => l
    end in
  if negb ((length digits =? 64)%nat && forallb JS.is_hex digits)
  then Throw EthersInvalidArgument
  else if (hex_value digits =? 0) || (secp256k1_n <=? hex_value digits)
       then Throw InvalidPrivateKey
       else Ok tt.

Definition matchOrder (cfg : OrderMatchConfig) (sell : Order)
    (opts : MatchOrderOptions) : M (option string) :=
  let urls :=
    match RPC_ENDPOINTS cfg with
    | Some (u :: l) => u :: l
    | _ => [RPC_URL cfg]
    end in
  provider <- pickProvider urls (CHAIN_ID cfg) ;;
  lift (new_Wallet (WHIMLAND_PRIVATE_KEY cfg)) ;;;
  let buyer := walletAddress w (WHIMLAND_PRIVATE_KEY cfg) in
  sellCurrency <- checked_address (currency sell) ;;
  usdol <- checked_address (USDOL_ADDRESS cfg) ;;
  (if negb (String.eqb sellCurrency usdol)
   then throw (CurrencyNotUsdol (currency sell))
   else ret tt) ;;;
  ensureAllowance cfg (WHIMLAND_PRIVATE_KEY cfg) provider (price sell) opts ;;;
  buy <- buildBuyOrderFromSell sell buyer 300 ;;
  if truthy (dryRun opts) then ret None
  else
    emit (EvMatchOrder sell buy) ;;;
    tx <- call (fun n => rpc_matchOrder w n provider sell buy) ;;
    let '(hash, receipt) := tx in
    match receipt with
    | None => ret (Some hash)
    | Some st =>
        if negb (st =? 1) then throw ExecutionFailed
        else ret (Some hash)
    end.

End WithWorld.

End MatchOrder.

(** ** src/indexer/orderbook-indexer.ts: the other queries *)

Module Queries.
Import Indexer.




(** The loop of floorPrice over a non-empty array *)
Definition min_price (first : OrderEntry) (orders : list OrderEntry) : Z :=
  fold_left
    (fun min o => if price (e_order o) <? min then price (e_order o) else min)
    orders (price (e_order first)).


(** The names of the properties that a plain object inherits from
    Object.prototype. *)
Definition Object_prototype : list string :=
  ["constructor"; "__defineGetter__"; "__defineSetter__"; "hasOwnProperty";
   "__lookupGetter__"; "__lookupSetter__"; "isPrototypeOf";
   "propertyIsEnumerable"; "toString"; "valueOf"; "__proto__";
   "toLocaleString"]%string.

(** [obj[key]] on a plain object: its own property of that name, or else
    the member of Object.prototype of that name, or else undefined. *)
Inductive Property (A : Type) : Type :=
| Own (v : A)
| Inherited
| Missing.

Arguments Own {A} v.
Arguments Inherited {A}.
Arguments Missing {A}.

Definition get_property {A} (o : JsObject A) (key : string) : Property A :=
  match o !! key with
  | Some v => Own v
  | None =>
      if bool_decide (key ∈ Object_prototype) then Inherited else Missing
  end.

(** The loop of getOrdersByKeys. A member of Object.prototype is an object
    or a function: it passes the test [if (!entry)], its [order] is
    undefined, and fromPersistedOrder throws a TypeError on reading a
    field of it. *)
Fixpoint entries_of (state : IndexState) (orderKeys : list string)
  : Result (list OrderEntry) :=
  match orderKeys with
  | [] => Ok []
  | orderKey :: rest =>
      match get_property (ordersByKey state) orderKey with
      | Missing => entries_of state rest
      | Inherited => Throw JsTypeError
      | Own entry =>
          match entries_of state rest with
          | Ok out => Ok (entry_of orderKey entry :: out)
          | Throw e => Throw e
          end
      end
  end.

Section WithWorld.
Variable w : World.
Variable cfg : IndexerConfig.

Definition getOrderByKey (orderKey : string) : M (option OrderEntry) :=
  state <- readIndex (INDEX_PATH cfg) ;;
  match state with
  | None => ret None
  | Some state =>
      match get_property (ordersByKey state) orderKey with
      | Missing => ret None
      | Inherited => throw JsTypeError
      | Own entry => ret (Some (entry_of orderKey entry))
      end
  end.

Definition getOrdersByKeys (orderKeys : list string) : M (list OrderEntry) :=
  state <- readIndex (INDEX_PATH cfg) ;;
  match state with
  | None => ret []
  | Some state => lift (entries_of state orderKeys)
  end.

Definition floorPrice : M (option Z) :=
  orders <- getActiveSellOrders w cfg ;;
  match orders with
  | [] => ret None
  | first :: _ => ret (Some (min_price first orders))
  end.



End WithWorld.

End Queries.

(** ** src/trading/pricing.ts: parseUsdOLAmount *)

Module PricingCalls.

(** The provider is built on [rpcUrl]; no call is made to build it. *)
Definition parseUsdOLAmount (w : World) (rpcUrl : string) (chainId : Z)
    (tokenAddress : string) (human : string) : M Z :=
  decimals <- Pricing.getErc20Decimals w rpcUrl tokenAddress ;;
  lift (Pricing.parseDecimalToUnits human (Z.to_nat decimals)).

End PricingCalls.

(** * Properties *)

(** An index keeps its entries, their first block and a [filled] status:
    what a Make event may change of the entries that are there. *)
Definition keeps_filled (st st' : IndexState) : Prop :=
  forall k e, ordersByKey st !! k = Some e ->
    exists e', ordersByKey st' !! k = Some e'
               /\ firstSeenBlock e' = firstSeenBlock e
               /\ (status e = filled -> status e' = filled).

(** An index keeps its entries, and none that is [filled] is [open] again. *)
Definition never_reopened (st st' : IndexState) : Prop :=
  forall k e, ordersByKey st !! k = Some e ->
    exists e', ordersByKey st' !! k = Some e'
               /\ (status e = filled -> status e' <> open).

(** A computation that adds to the trace only events that satisfy [P], and
    takes none away. *)
Definition appends (P : Event -> Prop) {A} (m : M A) : Prop :=
  forall s o s', m s = (o, s') ->
    exists l, trace s' = trace s ++ l /\ Forall P l.

(** A computation that throws only errors that satisfy [P]. *)
Definition raises_only (P : Error -> Prop) {A} (m : M A) : Prop :=
  forall s e s', m s = (Raise e, s') -> P e.

(** A computation that comes to an end within the bounds of its loops. *)
Definition terminates {A} (m : M A) : Prop :=
  forall s, fst (m s) <> OutOfFuel.

Definition is_quantity_error (e : Error) : Prop :=
  match e with
  | QuantityExceeded _ _ => True
  | _ => False
  end.

(** Two states with the same files and the same trace. *)
Definition same_effects (s s' : Sys) : Prop :=
  files s' = files s /\ trace s' = trace s.

(** A comma or a white-space character: what separates the entries of an
    allow-list. *)
Definition separator (c : ascii) : bool :=
  existsb (Ascii.eqb c)
    ([","%char; " "%char]
     ++ map ascii_of_nat [9; 10; 11; 12; 13; 160]%nat).

Definition hex_digit (c : ascii) : bool :=
  existsb (Ascii.eqb c) (list_ascii_of_string "0123456789abcdefABCDEF").

(** A string that has the form of an address: 0x and 40 hexadecimal
    digits. *)
Definition address_form (a : string) : Prop :=
  exists digits,
    list_ascii_of_string a = "0"%char :: "x"%char :: digits
    /\ length digits = 40%nat
    /\ Forall (fun c => hex_digit c = true) digits.

(** The characters [p] stand in [l] between two separators, or between a
    separator and an end of [l], or make up [l]. *)
Definition bounded_left (pre : list ascii) : Prop :=
  pre = [] \/ exists pre' c, pre = pre' ++ [c] /\ separator c = true.

Definition bounded_right (post : list ascii) : Prop :=
  post = [] \/ exists c post', post = c :: post' /\ separator c = true.

Definition token_in (l p : list ascii) : Prop :=
  exists pre post,
    l = pre ++ p ++ post /\ bounded_left pre /\ bounded_right post.

(** [a] is an entry of the list [raw]: it is not empty, has no separator
    in it, and stands in [raw] between separators or the ends. *)
Definition listed (raw a : string) : Prop :=
  list_ascii_of_string a <> []
  /\ Forall (fun c => separator c = false) (list_ascii_of_string a)
  /\ token_in (list_ascii_of_string raw) (list_ascii_of_string a).

(** The collection [c] passes the configured allow-list: when the list has
    an entry that is an address, [c] is one of these addresses, capitals
    apart. A list with no such entry lets every collection pass, as no
    list does. *)
Definition allows (raw : option string) (c : string) : Prop :=
  forall r, raw = Some r ->
    (exists a, listed r a /\ address_form a) ->
    exists a, listed r a /\ address_form a
              /\ JS.toLowerCase a = JS.toLowerCase c.

(** What getActiveSellOrders asks of an entry. *)
Definition active (cfg : Indexer.IndexerConfig) (nowSec : Z) (p : IndexedOrder)
  : Prop :=
  status p = open
  /\ (p_side (order p) = 0 /\ p_saleKind (order p) = 1)
  /\ JS.toLowerCase (p_currency (order p))
     = JS.toLowerCase (Indexer.USDOL_ADDRESS cfg)
  /\ amount (p_nft (order p)) = 1
  /\ (p_expiry (order p) = 0 \/ nowSec < p_expiry (order p))
  /\ allows (Indexer.COLLECTION_ALLOWLIST cfg)
       (collectionAddr (p_nft (order p))).

(** The same, with the allow-list as the code parses it. *)
Definition passes (cfg : Indexer.IndexerConfig) (nowSec : Z) (p : IndexedOrder)
  : Prop :=
  status p = open
  /\ (p_side (order p) = 0 /\ p_saleKind (order p) = 1)
  /\ Indexer.normAddr (p_currency (order p))
     = Indexer.normAddr (Indexer.USDOL_ADDRESS cfg)
  /\ amount (p_nft (order p)) = 1
  /\ (p_expiry (order p) = 0 \/ nowSec < p_expiry (order p))
  /\ (Indexer.parseAllowlist (Indexer.COLLECTION_ALLOWLIST cfg) <> ∅ ->
      Indexer.normAddr (collectionAddr (p_nft (order p)))
        ∈ Indexer.parseAllowlist (Indexer.COLLECTION_ALLOWLIST cfg)).

(** A bound on the iterations that an entry of the stack of getLogsSafe
    still costs when every fetch fails: a range of [n] blocks is fetched
    once, and then its two halves; a single block is fetched until its
    counter reaches 2. *)
Definition range_weight (r : Indexer.Range) : Z :=
  if Indexer.r_from r <? Indexer.r_to r
  then 4 * (Indexer.r_to r - Indexer.r_from r + 1) - 1
  else if Indexer.attempts r <? 2 then 3 - Indexer.attempts r else 1.

Definition stack_weight (stack : list Indexer.Range) : Z :=
  fold_right (fun r acc => range_weight r + acc) 0 stack.

(** The quantity of an intent is within the configured maximum. *)
Definition quantity_ok (cfg : RiskChecker.RiskConfig)
    (intent : RiskChecker.RiskIntent) : Prop :=
  RiskChecker.quantity intent <= RiskChecker.MAX_QTY cfg.



(** An index as the indexer builds it: every entry is stored under its own
    key and holds a sell order. *)
Definition sell_orders_only (st : IndexState) : Prop :=
  forall k e, ordersByKey st !! k = Some e ->
    orderKey e = k /\ p_side (order e) = 0 /\ p_saleKind (order e) = 1.

(** An order with its three addresses in lower case. *)
Definition lower_addresses (o : Order) : Order :=
  {| side := side o;
     saleKind := saleKind o;
     maker := JS.toLowerCase (maker o);
     nft := {| tokenId := tokenId (nft o);
               collectionAddr := JS.toLowerCase (collectionAddr (nft o));
               amount := amount (nft o) |};
     price := price o;
     currency := JS.toLowerCase (currency o);
     expiry := expiry o;
     salt := salt o |}.

(** A computation that leaves the index files as they are. *)
Definition keeps_files {A} (m : M A) : Prop :=
  forall s o s', m s = (o, s') -> files s' = files s.

(** The ranges of the scans recorded in a trace, in order. *)
Definition scanned (l : list Event) : list (Z * Z) :=
  omap (fun e => match e with
                 | EvScanRange a b => Some (a, b)
                 | _ => None
                 end) l.

(** Ranges that follow one another from [from] to [head], none empty and
    none of more than [step] blocks. *)
Fixpoint tiles (step from head : Z) (l : list (Z * Z)) : Prop :=
  match l with
  | [] => head < from
  | (a, b) :: rest =>
      a = from /\ a <= b /\ b <= head /\ b - a + 1 <= step
      /\ tiles step (b + 1) head rest
  end.

Definition is_scan_or_write (e : Event) : Prop :=
  match e with
  | EvScanRange _ _ | EvWriteIndex _ _ => True
  | _ => False
  end.

(** The endpoints serve the logs of a chain: a fetch that is answered is
    answered with the logs of the range asked, and the logs of a range are
    the logs of its parts, one after the other. *)
Definition serves {L} (q : nat -> string -> Z -> Z -> option (list L))
    (logs : Z -> Z -> list L) : Prop :=
  (forall n u a b l, q n u a b = Some l -> l = logs a b)
  /\ (forall a b c, a <= b -> b < c -> logs a c = logs a b ++ logs (b + 1) c).

(** The entry that getOrderByKey shows for an order indexed at block [b]
    and not touched since. *)
Definition fresh_entry (key : string) (full : Order) (b : Z)
  : Indexer.OrderEntry :=
  {| Indexer.e_orderKey := key;
     Indexer.e_order := lower_addresses full;
     Indexer.e_status := open;
     Indexer.e_firstSeenBlock := b;
     Indexer.e_lastUpdateBlock := b |}.

(** An index that grew out of another: the same chain and order book, every
    entry still there with the first block it had, and still nothing but
    sell orders when there was nothing else. *)
Definition grows (st st' : IndexState) : Prop :=
  chainId st' = chainId st /\ orderbook st' = orderbook st
  /\ (sell_orders_only st -> sell_orders_only st')
  /\ forall k e, ordersByKey st !! k = Some e ->
       exists e', ordersByKey st' !! k = Some e'
                  /\ firstSeenBlock e' = firstSeenBlock e.

(** An index that sync takes up from the file, rather than starting afresh. *)
Definition taken_up (cfg : Indexer.IndexerConfig) (st : IndexState) : Prop :=
  chainId st = Indexer.CHAIN_ID cfg
  /\ Indexer.normAddr (orderbook st)
     = Indexer.normAddr (Indexer.ORDERBOOK_ADDRESS cfg).


Definition priced (p : Z) (o : Indexer.OrderEntry) : Prop :=
  price (Indexer.e_order o) = p.

#[global] Instance priced_dec p o : Decision (priced p o).
Proof. unfold priced. apply _. Defined.










(** The errors of matchOrder before it has read or sent anything. *)
Definition refusal (sell : Order) (e : Error) : Prop :=
  e = NoHealthyRpc \/ e = EthersInvalidArgument \/ e = InvalidPrivateKey
  \/ e = CurrencyNotUsdol (currency sell).

(** The endpoints [us], tried one after the other from the call numbered
    [n], all fail. *)
Definition all_fail (w : World) (n : nat) (us : list string) : Prop :=
  forall i u, us !! i = Some u -> rpc_blockNumber w (n + i) u = None.

(** [u] is the first endpoint of [us] to answer, when they are tried one
    after the other from the call numbered [n]. *)
Definition first_to_answer (w : World) (n : nat) (us : list string)
    (u : string) : Prop :=
  exists before after,
    us = before ++ u :: after
    /\ all_fail w n before
    /\ rpc_blockNumber w (n + length before) u <> None.

(** The endpoints of the matcher: the configured list when it is not empty,
    and the single configured URL otherwise. *)
Definition endpoints_of (cfg : MatchOrder.OrderMatchConfig) : list string :=
  match MatchOrder.RPC_ENDPOINTS cfg with
  | Some (u :: l) => u :: l
  | _ => [MatchOrder.RPC_URL cfg]
  end.

(** The number that a string of hexadecimal digits, capitals or not,
    writes; [None] when a character is not such a digit. *)
Fixpoint position (c : ascii) (l : list ascii) (i : Z) : option Z :=
  match l with
  | [] => None
  | d :: rest => if Ascii.eqb c d then Some i else position c rest (i + 1)
  end.

Definition hex_digit_value (c : ascii) : option Z :=
  position (JS.lower_char c) (list_ascii_of_string "0123456789abcdef") 0.

Definition hex_number (digits : list ascii) : option Z :=
  fold_left
    (fun acc c =>
       match acc, hex_digit_value c with
       | Some a, Some d => Some (16 * a + d)
       | _, _ => None
       end)
    digits (Some 0).

(** A private key that a wallet can be built on: 64 hexadecimal digits,
    with or without 0x in front, that write a number from 1 to the order of
    the curve minus 1. *)
Definition private_key_ok (key : string) : Prop :=
  exists digits v,
    (list_ascii_of_string key = "0"%char :: "x"%char :: digits
     \/ list_ascii_of_string key = digits)
    /\ length digits = 64%nat
    /\ hex_number digits = Some v
    /\ 0 < v < MatchOrder.secp256k1_n.

(** matchOrder gets as far as the read of the allowance, on the endpoint
    [u] and as the call numbered [n]: [u] is the first endpoint to answer,
    the private key is one, and getAddress gives the same address for the
    currency of the order and for the quote token. *)
Definition reaches_allowance (w : World) (cfg : MatchOrder.OrderMatchConfig)
    (sell : Order) (s : Sys) (u : string) (n : nat) : Prop :=
  exists before after usd,
    endpoints_of cfg = before ++ u :: after
    /\ all_fail w (clock s) before
    /\ rpc_blockNumber w (clock s + length before) u <> None
    /\ n = (clock s + length before + 1)%nat
    /\ private_key_ok (MatchOrder.WHIMLAND_PRIVATE_KEY cfg)
    /\ getAddress w (currency sell) = Some usd
    /\ getAddress w (MatchOrder.USDOL_ADDRESS cfg) = Some usd.

(** The checks of a dry run all go through: matchOrder gets as far as the
    read of the allowance, the read is answered, and the addresses of the
    buyer and of the collection are addresses. *)
Definition dry_run_goes_through (w : World) (cfg : MatchOrder.OrderMatchConfig)
    (sell : Order) (s : Sys) : Prop :=
  exists u n,
    reaches_allowance w cfg sell s u n
    /\ rpc_allowance w n u
         (walletAddress w (MatchOrder.WHIMLAND_PRIVATE_KEY cfg))
         (MatchOrder.ORDERBOOK_ADDRESS cfg) <> None
    /\ getAddress w (walletAddress w (MatchOrder.WHIMLAND_PRIVATE_KEY cfg))
       <> None
    /\ getAddress w (collectionAddr (nft sell)) <> None.

(** The object that the queries return for the entry [p] stored under the
    key [k]: the key, the status and the two blocks of the entry, and its
    order field by field. *)
Definition shows (k : string) (p : IndexedOrder) (x : Indexer.OrderEntry)
  : Prop :=
  Indexer.e_orderKey x = k
  /\ Indexer.e_status x = status p
  /\ Indexer.e_firstSeenBlock x = firstSeenBlock p
  /\ Indexer.e_lastUpdateBlock x = lastUpdateBlock p
  /\ side (Indexer.e_order x) = p_side (order p)
  /\ saleKind (Indexer.e_order x) = p_saleKind (order p)
  /\ maker (Indexer.e_order x) = p_maker (order p)
  /\ nft (Indexer.e_order x) = p_nft (order p)
  /\ price (Indexer.e_order x) = p_price (order p)
  /\ currency (Indexer.e_order x) = p_currency (order p)
  /\ expiry (Indexer.e_order x) = p_expiry (order p)
  /\ salt (Indexer.e_order x) = p_salt (order p).

(** A key that is not in the index and names a member of Object.prototype:
    the queries by key throw a TypeError on it. *)
Definition inherited_name (st : IndexState) (key : string) : Prop :=
  ordersByKey st !! key = None
  /\ In key ["constructor"; "__defineGetter__"; "__defineSetter__";
             "hasOwnProperty"; "__lookupGetter__"; "__lookupSetter__";
             "isPrototypeOf"; "propertyIsEnumerable"; "toString"; "valueOf";
             "__proto__"; "toLocaleString"]%string.

(** What getOrderByKey gives for [key] on the index file [file]. *)
Definition looked_up (file : option IndexState) (key : string)
    (o : Outcome (option Indexer.OrderEntry)) : Prop :=
  match file with
  | None => o = Return None
  | Some st =>
      match ordersByKey st !! key with
      | Some p => exists x, o = Return (Some x) /\ shows key p x
      | None =>
          (inherited_name st key /\ o = Raise JsTypeError)
          \/ (~ inherited_name st key /\ o = Return None)
      end
  end.

(** What getOrdersByKeys gives for [keys] on the index file [file]: the
    entries of the keys that are in the index, in the order of the
    request. *)
Definition looked_up_all (file : option IndexState) (keys : list string)
    (o : Outcome (list Indexer.OrderEntry)) : Prop :=
  match file with
  | None => o = Return []
  | Some st =>
      (Exists (inherited_name st) keys /\ o = Raise JsTypeError)
      \/ (~ Exists (inherited_name st) keys
          /\ exists out,
               o = Return out
               /\ Forall2 (fun kp x => shows (fst kp) (snd kp) x)
                    (omap (fun k => pair k <$> ordersByKey st !! k) keys)
                    out)
  end.

(** The blocks of the Cancel events of [logs] that are about the key [k],
    in the order of the logs. *)
Definition cancel_blocks (k : string) (logs : list CancelLog) : list Z :=
  cn_blockNumber <$> filter (fun log => cn_orderKey log = Some k) logs.

(** The Match event [log] has the order of key [k] on its sell side: the
    make order when that is a sell order, else the take order when that is
    one. An empty key is no key. *)
Definition sells (k : string) (log : MatchLog) : Prop :=
  match mt_args log with
  | Some a =>
      k <> EmptyString
      /\ ((makeSide a = 0 /\ makeOrderKey a = k)
          \/ (makeSide a <> 0 /\ takeSide a = 0 /\ takeOrderKey a = k))
  | None => False
  end.

#[global] Instance sells_dec k log : Decision (sells k log).
Proof. unfold sells. destruct (mt_args log); apply _. Defined.

(** The blocks of the Match events of [logs] that sell the order of key
    [k], in the order of the logs. *)
Definition match_blocks (k : string) (logs : list MatchLog) : list Z :=
  mt_blockNumber <$> filter (sells k) logs.

(** The entry [e] after events of one kind at [blocks]: with the status
    [s] and the last of the blocks as its last update when there is a
    block, and as it was when there is none. *)
Definition marked (s : Status) (blocks : list Z) (e : IndexedOrder)
  : IndexedOrder :=
  match last blocks with
  | Some b => {| orderKey := orderKey e; order := order e; status := s;
                 firstSeenBlock := firstSeenBlock e; lastUpdateBlock := b |}
  | None => e
  end.

(** ** Concrete runs *)

Module Examples.
Local Open Scope string_scope.

Definition usdol : string := "0x00000000000000000000000000000000000000a1".
Definition book : string := "0x00000000000000000000000000000000000000b2".
Definition collection : string := "0x00000000000000000000000000000000000000c3".
Definition seller : string := "0x00000000000000000000000000000000000000d4".
Definition other_token : string := "0x00000000000000000000000000000000000000e5".
Definition endpoint : string := "http://rpc.example".
Definition index_path : string := "./data/index.json".
Definition key1 : string := "0x01".

(** A stand-in for getAddress in the runs below: it accepts what the
    pattern of an address accepts and tells two addresses apart exactly
    when getAddress does, without the capitals of the checksum. *)
Definition plain_address (a : string) : option string :=
  if Indexer.address_re a then Some (JS.toLowerCase a) else None.

(** A chain at block [head] whose endpoint answers every call: the logs
    and the orders are given, the quote token has 6 decimals, the wallet
    has granted [allowance]. *)
Definition chain (head : Z)
    (makes : Z -> Z -> list MakeLog)
    (cancels : Z -> Z -> list CancelLog)
    (matches : Z -> Z -> list MatchLog)
    (orders : string -> option Order)
    (allowance : Z) : World :=
  {| getAddress := plain_address;
     walletAddress := fun _ => "0x252Dae0A4b9d9b80F504F6418acd2d364C0c59cD";
     batchSize := 500;
     rpc_blockNumber := fun _ _ => Some head;
     rpc_makeLogs := fun _ _ from to => Some (makes from to);
     rpc_cancelLogs := fun _ _ from to => Some (cancels from to);
     rpc_matchLogs := fun _ _ from to => Some (matches from to);
     rpc_orders := fun _ _ key => orders key;
     rpc_decimals := fun _ _ _ => Some 6;
     rpc_allowance := fun _ _ _ _ => Some allowance;
     rpc_approve := fun _ _ _ _ => true;
     rpc_matchOrder := fun _ _ _ _ => Some ("0xbeef", Some 1);
     dateNow := fun _ => 1700000000000;
     randomBytes8 := fun _ => 7 |}.

(** A chain with nothing on it. *)
Definition quiet (head : Z) : World :=
  chain head (fun _ _ => []) (fun _ _ => []) (fun _ _ => [])
        (fun _ => None) 0.

(** A chain none of whose endpoints answers. *)
Definition down : World :=
  {| getAddress := plain_address;
     walletAddress := fun _ => "0x252Dae0A4b9d9b80F504F6418acd2d364C0c59cD";
     batchSize := 500;
     rpc_blockNumber := fun _ _ => None;
     rpc_makeLogs := fun _ _ _ _ => None;
     rpc_cancelLogs := fun _ _ _ _ => None;
     rpc_matchLogs := fun _ _ _ _ => None;
     rpc_orders := fun _ _ _ => None;
     rpc_decimals := fun _ _ _ => None;
     rpc_allowance := fun _ _ _ _ => None;
     rpc_approve := fun _ _ _ _ => false;
     rpc_matchOrder := fun _ _ _ _ => None;
     dateNow := fun _ => 1700000000000;
     randomBytes8 := fun _ => 7 |}.

Definition indexer_cfg (fromBlock : Z) (allowlist : option string)
  : Indexer.IndexerConfig :=
  {| Indexer.RPC_URL := endpoint;
     Indexer.RPC_ENDPOINTS := None;
     Indexer.CHAIN_ID := 97;
     Indexer.ORDERBOOK_ADDRESS := book;
     Indexer.USDOL_ADDRESS := usdol;
     Indexer.INDEX_PATH := index_path;
     Indexer.INDEXER_FROM_BLOCK := fromBlock;
     Indexer.COLLECTION_ALLOWLIST := allowlist |}.

Definition risk_cfg (maxQty : Z) (allowlist : option string)
  : RiskChecker.RiskConfig :=
  {| RiskChecker.RPC_URL := endpoint;
     RiskChecker.RPC_ENDPOINTS := None;
     RiskChecker.CHAIN_ID := 97;
     RiskChecker.USDOL_ADDRESS := usdol;
     RiskChecker.MAX_QTY := maxQty;
     RiskChecker.COLLECTION_ALLOWLIST := allowlist |}.

Definition match_cfg : MatchOrder.OrderMatchConfig :=
  {| MatchOrder.RPC_URL := endpoint;
     MatchOrder.RPC_ENDPOINTS := None;
     MatchOrder.CHAIN_ID := 97;
     MatchOrder.ORDERBOOK_ADDRESS := book;
     MatchOrder.USDOL_ADDRESS := usdol;
     MatchOrder.WHIMLAND_PRIVATE_KEY :=
       "0x0000000000000000000000000000000000000000000000000000000000000011" |}.

Definition dry_run : MatchOrder.MatchOrderOptions :=
  {| MatchOrder.dryRun := Some true; MatchOrder.approveMax := None |}.

(** A sell order of one token of [collection] for [p] units of [token],
    expiring at [exp]. *)
Definition sell_order (token : string) (p exp : Z) : Order :=
  {| side := 0; saleKind := 1; maker := seller;
     nft := {| tokenId := 7; collectionAddr := collection; amount := 1 |};
     price := p; currency := token; expiry := exp; salt := 1 |}.

Definition indexed (key : string) (o : Order) (st : Status) (first last : Z)
  : IndexedOrder :=
  {| orderKey := key; order := Indexer.toPersistedOrder o; status := st;
     firstSeenBlock := first; lastUpdateBlock := last |}.

(** An index of chain 97 scanned up to block [last], with one order. *)
Definition index_of (last : Z) (entries : JsObject IndexedOrder)
  : IndexState :=
  {| chainId := 97; orderbook := book; lastScannedBlock := last;
     ordersByKey := entries |}.

(** The process at its start, with [fs] on disk. *)
Definition boot (fs : gmap string IndexState) : Sys :=
  {| clock := 0; files := fs; provider := endpoint;
     decimalsCache := ∅; trace := [] |}.

(** An index with one sell order, under [key1], first seen at block 5. *)
Definition one_order (st : Status) : IndexState :=
  index_of 10 {[ key1 := indexed key1 (sell_order usdol 100 0) st 5 8 ]}.

Definition at_block {L} (b : Z) (log : L) (from to : Z) : list L :=
  if ((from <=? b) && (b <=? to))%Z then [log] else [].

(** Chains with one event about [key1], at block [b]. *)
Definition make_at (b : Z) : World :=
  chain 100
    (at_block b {| mk_blockNumber := b; mk_orderKey := Some key1 |})
    (fun _ _ => []) (fun _ _ => [])
    (fun _ => Some (sell_order usdol 100 0)) 0.

Definition cancel_at (b : Z) : World :=
  chain 100 (fun _ _ => [])
    (at_block b {| cn_blockNumber := b; cn_orderKey := Some key1 |})
    (fun _ _ => []) (fun _ => None) 0.

Definition match_at (b : Z) : World :=
  chain 100 (fun _ _ => []) (fun _ _ => [])
    (at_block b
       {| mt_blockNumber := b;
          mt_args := Some {| makeOrderKey := key1; takeOrderKey := "0x02";
                             makeSide := 0; takeSide := 1 |} |})
    (fun _ => None) 0.

(** A chain whose endpoint refuses the ranges of more than one block, and
    has no logs. *)
Definition one_block_only {L} (from to : Z) : option (list L) :=
  if (from <? to)%Z then None else Some [].

Definition narrow : World :=
  {| getAddress := plain_address;
     walletAddress := fun _ => "0x252Dae0A4b9d9b80F504F6418acd2d364C0c59cD";
     batchSize := 500;
     rpc_blockNumber := fun _ _ => Some 100%Z;
     rpc_makeLogs := fun _ _ => one_block_only;
     rpc_cancelLogs := fun _ _ => one_block_only;
     rpc_matchLogs := fun _ _ => one_block_only;
     rpc_orders := fun _ _ _ => None;
     rpc_decimals := fun _ _ _ => Some 6%Z;
     rpc_allowance := fun _ _ _ _ => Some 0%Z;
     rpc_approve := fun _ _ _ _ => true;
     rpc_matchOrder := fun _ _ _ _ => Some ("0xbeef", Some 1%Z);
     dateNow := fun _ => 1700000000000%Z;
     randomBytes8 := fun _ => 7%Z |}.

(** A chain whose endpoint answers getBlockNumber and rejects every
    getLogs. *)
Definition no_logs : World :=
  {| getAddress := plain_address;
     walletAddress := fun _ => "0x252Dae0A4b9d9b80F504F6418acd2d364C0c59cD";
     batchSize := 500;
     rpc_blockNumber := fun _ _ => Some 100%Z;
     rpc_makeLogs := fun _ _ _ _ => None;
     rpc_cancelLogs := fun _ _ _ _ => None;
     rpc_matchLogs := fun _ _ _ _ => None;
     rpc_orders := fun _ _ _ => None;
     rpc_decimals := fun _ _ _ => Some 6%Z;
     rpc_allowance := fun _ _ _ _ => Some 0%Z;
     rpc_approve := fun _ _ _ _ => true;
     rpc_matchOrder := fun _ _ _ _ => Some ("0xbeef", Some 1%Z);
     dateNow := fun _ => 1700000000000%Z;
     randomBytes8 := fun _ => 7%Z |}.

(** The index that a run leaves, [st] when it throws. *)
Definition index_after (r : Outcome IndexState * Sys) (st : IndexState)
  : IndexState :=
  match fst r with
  | Return st' => st'
  | _ => st
  end.

Definition intent_of (q : Z) : RiskChecker.RiskIntent :=
  {| RiskChecker.quantity := q;
     RiskChecker.maxUnitPriceUsdOL := None;
     RiskChecker.maxTotalUsdOL := None;
     RiskChecker.maxUnitPriceRaw := None;
     RiskChecker.maxTotalRaw := None |}.

End Examples.

(** ** More runs *)

Module Scenarios.
Import Examples.
Local Open Scope string_scope.

(** The Make event of [key1] at block 12. *)
Definition make12 : MakeLog :=
  {| mk_blockNumber := 12; mk_orderKey := Some key1 |}.

(** An endpoint that takes one block at a time, on a chain whose only log
    is [make12]. *)
Definition one_block_of (logs : Z -> Z -> list MakeLog) (from to : Z)
  : option (list MakeLog) :=
  if (from <? to)%Z then None else Some (logs from to).

Definition narrow_make12 : World :=
  {| getAddress := plain_address;
     walletAddress := fun _ => "0x252Dae0A4b9d9b80F504F6418acd2d364C0c59cD";
     batchSize := 500;
     rpc_blockNumber := fun _ _ => Some 100%Z;
     rpc_makeLogs := fun _ _ => one_block_of (at_block 12 make12);
     rpc_cancelLogs := fun _ _ _ _ => Some [];
     rpc_matchLogs := fun _ _ _ _ => Some [];
     rpc_orders := fun _ _ _ => Some (sell_order usdol 100 0);
     rpc_decimals := fun _ _ _ => Some 6%Z;
     rpc_allowance := fun _ _ _ _ => Some 0%Z;
     rpc_approve := fun _ _ _ _ => true;
     rpc_matchOrder := fun _ _ _ _ => Some ("0xbeef", Some 1%Z);
     dateNow := fun _ => 1700000000000%Z;
     randomBytes8 := fun _ => 7%Z |}.

(** A chain at block 100 with nothing on it, scanned 30 blocks at a time;
    its endpoint serves the logs below block [broken] only. *)
Definition below {L} (broken from to : Z) : option (list L) :=
  if (to <? broken)%Z then Some [] else None.

Definition in_batches (broken : Z) : World :=
  {| getAddress := plain_address;
     walletAddress := fun _ => "0x252Dae0A4b9d9b80F504F6418acd2d364C0c59cD";
     batchSize := 30;
     rpc_blockNumber := fun _ _ => Some 100%Z;
     rpc_makeLogs := fun _ _ => below broken;
     rpc_cancelLogs := fun _ _ => below broken;
     rpc_matchLogs := fun _ _ => below broken;
     rpc_orders := fun _ _ _ => None;
     rpc_decimals := fun _ _ _ => Some 6%Z;
     rpc_allowance := fun _ _ _ _ => Some 0%Z;
     rpc_approve := fun _ _ _ _ => true;
     rpc_matchOrder := fun _ _ _ _ => Some ("0xbeef", Some 1%Z);
     dateNow := fun _ => 1700000000000%Z;
     randomBytes8 := fun _ => 7%Z |}.

(** The system with an index scanned up to block 10 on disk. *)
Definition scanned_to_10 : Sys :=
  boot {[ index_path := index_of 10 ∅ ]}.


(** The process once it has learnt the 6 decimals of the quote token. *)
Definition knows_decimals : Sys :=
  {| clock := 0; files := ∅; provider := endpoint;
     decimalsCache := {[ usdol := 6%Z ]}; trace := [] |}.

(** The options of a purchase that approves the order book once and for
    all. *)
Definition approve_max : MatchOrder.MatchOrderOptions :=
  {| MatchOrder.dryRun := None; MatchOrder.approveMax := Some true |}.

(** An allow-list with the collection in capitals, and an entry that is
    not an address. *)
Definition mixed_allowlist : string :=
  "0x00000000000000000000000000000000000000C3, nothing".

(** A configuration of the matcher whose private key is one byte long. *)
Definition short_key_cfg : MatchOrder.OrderMatchConfig :=
  {| MatchOrder.RPC_URL := endpoint;
     MatchOrder.RPC_ENDPOINTS := None;
     MatchOrder.CHAIN_ID := 97;
     MatchOrder.ORDERBOOK_ADDRESS := book;
     MatchOrder.USDOL_ADDRESS := usdol;
     MatchOrder.WHIMLAND_PRIVATE_KEY := "0x11" |}.


(** A chain on which the order of [key1] is made at block 12, matched on
    its sell side at block 13, and a Cancel event for it comes at block
    15. *)
Definition made_matched_cancelled : World :=
  chain 100
    (at_block 12 make12)
    (at_block 15 {| cn_blockNumber := 15; cn_orderKey := Some key1 |})
    (at_block 13
       {| mt_blockNumber := 13;
          mt_args := Some {| makeOrderKey := key1; takeOrderKey := "0x02";
                             makeSide := 0; takeSide := 1 |} |})
    (fun _ => Some (sell_order usdol 100 0)) 0.

End Scenarios.

(** * Proofs *)

(** Comparisons on [Z] as propositions, for [lia]. *)
Ltac zbool :=
  rewrite ?negb_true_iff, ?negb_false_iff in *;
  rewrite ?andb_true_iff, ?orb_true_iff, ?andb_false_iff, ?orb_false_iff,
    ?Z.leb_le, ?Z.ltb_lt, ?Z.eqb_eq, ?Z.leb_gt, ?Z.ltb_ge, ?Z.eqb_neq in *.

(** ** Objects used as maps *)

Section Objects.
Context {A : Type}.

Lemma assoc_assign_eq (k : string) (v : A) l : assoc k (assign k v l) = Some v.
Proof.
  induction l as [| [k' v'] l IH]; simpl.
  - rewrite String.eqb_refl. reflexivity.
  - destruct (String.eqb k' k) eqn:Hk; simpl; rewrite Hk; [reflexivity | exact IH].
Qed.

Lemma assoc_assign_ne (k k' : string) (v : A) l :
  k <> k' -> assoc k' (assign k v l) = assoc k' l.
Proof.
  intros Hne. induction l as [| [k0 v0] l IH]; simpl.
  - apply String.eqb_neq in Hne. rewrite Hne. reflexivity.
  - destruct (String.eqb k0 k) eqn:Hk; simpl.
    + apply String.eqb_eq in Hk as ->.
      apply String.eqb_neq in Hne. rewrite Hne. reflexivity.
    + destruct (String.eqb k0 k'); [reflexivity | exact IH].
Qed.

Lemma obj_lookup_insert_eq (o : JsObject A) k v :
  (<[k := v]> o) !! k = Some v.
Proof. apply assoc_assign_eq. Qed.

Lemma obj_lookup_insert_ne (o : JsObject A) k k' v :
  k <> k' -> (<[k := v]> o) !! k' = o !! k'.
Proof. apply assoc_assign_ne. Qed.

Lemma obj_lookup_empty k : (∅ : JsObject A) !! k = None.
Proof. reflexivity. Qed.

Lemma first_of_each_elem (k : string) (v : A) : forall l seen,
  (k, v) ∈ first_of_each seen l <-> (k ∉ seen) /\ assoc k l = Some v.
Proof.
  induction l as [| [k' v'] l IH]; intros seen; simpl.
  - rewrite elem_of_nil. split; [tauto | intros [_ H]; discriminate].
  - destruct (bool_decide (k' ∈ seen)) eqn:Hin.
    + apply bool_decide_eq_true in Hin. rewrite IH.
      destruct (String.eqb k' k) eqn:Hk; [| tauto].
      apply String.eqb_eq in Hk as ->. tauto.
    + apply bool_decide_eq_false in Hin. rewrite elem_of_cons, IH.
      rewrite not_elem_of_cons.
      destruct (String.eqb k' k) eqn:Hk.
      * apply String.eqb_eq in Hk as ->. split.
        -- intros [[= <-] | [[Hne _] _]]; [auto | congruence].
        -- intros [_ [= <-]]. auto.
      * apply String.eqb_neq in Hk. split.
        -- intros [[= <- <-] | [[_ Hs] Ha]]; [congruence | auto].
        -- intros [Hs Ha]. right. auto.
Qed.

Lemma first_of_each_NoDup : forall (l : list (string * A)) seen,
  NoDup (map fst (first_of_each seen l))
  /\ forall k, k ∈ map fst (first_of_each seen l) -> k ∉ seen.
Proof.
  induction l as [| [k' v'] l IH]; intros seen; simpl.
  - split; [constructor | intros k H; inversion H].
  - destruct (bool_decide (k' ∈ seen)) eqn:Hin; [apply IH |].
    apply bool_decide_eq_false in Hin.
    destruct (IH (k' :: seen)) as [Hnd Hseen]. simpl. split.
    + constructor; [| exact Hnd]. intros H. apply Hseen in H.
      apply H. left.
    + intros k Hk. apply elem_of_cons in Hk as [-> | Hk]; [exact Hin |].
      apply Hseen in Hk. intros H. apply Hk. right. exact H.
Qed.

Lemma insert_by_index_perm i (e : string * A) : forall l,
  map snd (insert_by_index i e l) ≡ₚ e :: map snd l.
Proof.
  induction l as [| [j e'] l IH]; [reflexivity |]. simpl.
  destruct (j <? i); [| reflexivity].
  simpl. rewrite IH. apply Permutation_swap.
Qed.

(** Object.entries is a rearrangement of the properties. *)
Lemma entries_perm : forall l : list (string * A),
  map snd (indexed_entries l) ++ named_entries l ≡ₚ l.
Proof.
  induction l as [| e l IH]; [reflexivity |].
  unfold indexed_entries, named_entries in *. simpl.
  destruct (array_index (fst e)) as [i |].
  - rewrite insert_by_index_perm. simpl. rewrite IH. reflexivity.
  - rewrite <- Permutation_middle, IH. reflexivity.
Qed.

(** Object.entries gives the properties of the object, each once. *)
Lemma elem_of_Object_entries (o : JsObject A) k v :
  (k, v) ∈ Object_entries o <-> o !! k = Some v.
Proof.
  unfold Object_entries. cbv zeta. rewrite entries_perm.
  rewrite first_of_each_elem. unfold lookup, JsObject_lookup.
  split; [tauto |]. intros H. split; [apply not_elem_of_nil | exact H].
Qed.

Lemma NoDup_fst_Object_entries (o : JsObject A) :
  NoDup (map fst (Object_entries o)).
Proof.
  unfold Object_entries. cbv zeta.
  rewrite (Permutation_map fst (entries_perm _)).
  apply first_of_each_NoDup.
Qed.

End Objects.

(** ** Characters and digit strings *)

Section Digits.
Import JS Ethers.

Lemma code_range c : 0 <= code c < 256.
Proof.
  unfold code. pose proof (N_ascii_bounded c). lia.
Qed.

Lemma code_inj c c' : code c = code c' -> c = c'.
Proof.
  unfold code. intros H.
  rewrite <- (ascii_N_embedding c), <- (ascii_N_embedding c').
  f_equal. lia.
Qed.

Lemma is_zero_eq c : is_zero c = true -> c = zero.
Proof.
  unfold is_zero. intros H. apply code_inj.
  apply Z.eqb_eq in H. rewrite H. reflexivity.
Qed.

Lemma is_zero_digit c : is_zero c = true -> is_digit c = true.
Proof. intros H. rewrite (is_zero_eq c H). reflexivity. Qed.

Lemma digit_of_spec n :
  0 <= n < 10 -> is_digit (digit_of n) = true /\ digit_val (digit_of n) = n.
Proof.
  intros H.
  assert (forallb (fun d => is_digit (digit_of d) && (digit_val (digit_of d) =? d))
            (map Z.of_nat (seq 0 10)) = true) as Hall by reflexivity.
  rewrite forallb_forall in Hall. specialize (Hall n).
  rewrite andb_true_iff, Z.eqb_eq in Hall. apply Hall.
  apply in_map_iff. exists (Z.to_nat n). split; [lia |].
  apply in_seq. lia.
Qed.

Lemma fold_digits l a :
  fold_left (fun a c => 10 * a + digit_val c) l a
  = a * 10 ^ Z.of_nat (length l) + digits_value l.
Proof.
  unfold digits_value. revert a.
  induction l as [| c l IH]; intros a; simpl fold_left.
  - simpl. lia.
  - rewrite IH, (IH (10 * 0 + digit_val c)).
    rewrite length_cons, Nat2Z.inj_succ, Z.pow_succ_r by lia. lia.
Qed.

Lemma digits_value_app l1 l2 :
  digits_value (l1 ++ l2)
  = digits_value l1 * 10 ^ Z.of_nat (length l2) + digits_value l2.
Proof.
  unfold digits_value at 1. rewrite fold_left_app.
  fold (digits_value l1). apply fold_digits.
Qed.

Lemma digits_value_cons c l :
  digits_value (c :: l) = digit_val c * 10 ^ Z.of_nat (length l) + digits_value l.
Proof.
  change (c :: l) with ([c] ++ l). rewrite digits_value_app.
  unfold digits_value at 1. simpl. lia.
Qed.

Lemma digits_value_zeros l :
  forallb is_zero l = true -> digits_value l = 0.
Proof.
  induction l as [| c l IH]; [reflexivity |]. simpl forallb.
  intros [Hc Hl]%andb_true_iff. rewrite digits_value_cons, (IH Hl).
  rewrite (is_zero_eq c Hc).
  replace (digit_val zero) with 0 by reflexivity. lia.
Qed.

Lemma forallb_repeat_zero k : forallb is_zero (repeat zero k) = true.
Proof. induction k; [reflexivity | simpl; assumption]. Qed.

Lemma forallb_digit_repeat_zero k : forallb is_digit (repeat zero k) = true.
Proof. induction k; [reflexivity | simpl; assumption]. Qed.


(** The digits produced for [n], in front of [acc]. *)
Lemma to_digits_spec fuel : forall n acc,
  0 <= n < 2 ^ Z.of_nat fuel -> (0 < fuel)%nat ->
  exists ds, to_digits fuel n acc = ds ++ acc
             /\ ds <> [] /\ forallb is_digit ds = true
             /\ digits_value ds = n.
Proof.
  induction fuel as [| fuel IH]; intros n acc Hn Hf; [lia |].
  simpl to_digits.
  assert (0 <= n mod 10 < 10) as Hm by (apply Z.mod_pos_bound; lia).
  destruct (digit_of_spec _ Hm) as [Hd Hv].
  destruct (n / 10 =? 0) eqn:Hq.
  - apply Z.eqb_eq in Hq. exists [digit_of (n mod 10)].
    repeat split; [discriminate | simpl; rewrite Hd; reflexivity |].
    rewrite digits_value_cons, Hv.
    change (digits_value []) with 0.
    change (Z.of_nat (length (@nil ascii))) with 0.
    pose proof (Z.div_mod n 10). lia.
  - apply Z.eqb_neq in Hq.
    assert (0 <= n / 10 < 2 ^ Z.of_nat fuel) as Hq'.
    { split; [apply Z.div_pos; lia |].
      apply Z.div_lt_upper_bound; [lia |].
      rewrite Nat2Z.inj_succ, Z.pow_succ_r in Hn by lia. lia. }
    assert (0 < fuel)%nat as Hf'.
    { destruct fuel; [| lia]. simpl in Hq'. lia. }
    destruct (IH (n / 10) (digit_of (n mod 10) :: acc) Hq' Hf')
      as (ds & Heq & Hne & Hds & Hval).
    exists (ds ++ [digit_of (n mod 10)]).
    rewrite Heq, <- app_assoc. repeat split.
    + destruct ds; discriminate.
    + rewrite forallb_app, Hds. simpl. rewrite Hd. reflexivity.
    + rewrite digits_value_app, Hval, digits_value_cons, Hv.
      change (digits_value []) with 0.
      change (Z.of_nat (length (@nil ascii))) with 0.
      change (Z.of_nat (length [digit_of (n mod 10)])) with 1.
      pose proof (Z.div_mod n 10). lia.
Qed.

Lemma bigint_toString_spec n :
  0 <= n ->
  bigint_toString n <> []
  /\ forallb is_digit (bigint_toString n) = true
  /\ digits_value (bigint_toString n) = n.
Proof.
  intros Hn. unfold bigint_toString.
  destruct (to_digits_spec (S (Z.to_nat (Z.log2 n))) n []) as (ds & Heq & H).
  - split; [assumption |].
    rewrite Nat2Z.inj_succ, Z2Nat.id by apply Z.log2_nonneg.
    destruct (Z.eq_dec n 0) as [-> | Hz]; [reflexivity |].
    apply Z.log2_spec. lia.
  - lia.
  - rewrite Heq, app_nil_r. exact H.
Qed.

End Digits.

(** ** Scanning a string *)

Section Scanning.
Import JS Ethers Pricing.

Lemma take_drop_while p l : take_while p l ++ drop_while p l = l.
Proof.
  induction l as [| c l IH]; [reflexivity |]. simpl.
  destruct (p c); [simpl; f_equal; exact IH | reflexivity].
Qed.

Lemma take_while_all p l : forallb p (take_while p l) = true.
Proof.
  induction l as [| c l IH]; [reflexivity |]. simpl.
  destruct (p c) eqn:Hc; [simpl; rewrite Hc; exact IH | reflexivity].
Qed.

Lemma drop_while_head p l c t : drop_while p l = c :: t -> p c = false.
Proof.
  induction l as [| c' l IH]; [discriminate |]. simpl.
  destruct (p c') eqn:Hc; [exact IH |]. intros [= <- <-]. exact Hc.
Qed.

(** Reading a run of [p] characters that is followed by the end of the
    string or by a character that is not in [p]. *)
Lemma take_while_run p run rest :
  forallb p run = true ->
  match rest with [] => True | c :: _ => p c = false end ->
  take_while p (run ++ rest) = run /\ drop_while p (run ++ rest) = rest.
Proof.
  intros Hrun Hrest. induction run as [| c run IH]; simpl.
  - destruct rest as [| c rest]; [split; reflexivity |].
    simpl. rewrite Hrest. split; reflexivity.
  - simpl in Hrun. apply andb_true_iff in Hrun as [Hc Hrun].
    rewrite Hc. destruct (IH Hrun) as [-> ->]. split; reflexivity.
Qed.

Lemma drop_while_none p l :
  forallb (fun c => negb (p c)) l = true -> drop_while p l = l.
Proof.
  destruct l as [| c l]; [reflexivity |]. simpl.
  intros [Hc _]%andb_true_iff. apply negb_true_iff in Hc.
  rewrite Hc. reflexivity.
Qed.

Lemma trim_chars_id l :
  forallb (fun c => negb (is_space c)) l = true -> trim_chars l = l.
Proof.
  intros H. unfold trim_chars.
  rewrite (drop_while_none _ l H), drop_while_none, rev_involutive;
    [reflexivity |].
  rewrite forallb_forall in *. intros c Hc. apply H.
  apply in_rev. exact Hc.
Qed.

Lemma strip_commas_id l :
  forallb (fun c => negb (is_comma c)) l = true -> strip_commas l = l.
Proof.
  unfold strip_commas. induction l as [| c l IH]; [reflexivity |]. simpl.
  intros [Hc Hl]%andb_true_iff. rewrite Hc, (IH Hl). reflexivity.
Qed.

Lemma amount_char_plain c :
  amount_char c = true -> negb (is_space c) = true /\ negb (is_comma c) = true.
Proof.
  unfold amount_char, is_digit, is_dot, is_space, is_comma.
  pose proof (code_range c) as Hc. intros H.
  split; zbool; lia.
Qed.

Lemma amount_chars_clean l :
  forallb amount_char l = true ->
  strip_commas (trim_chars l) = l.
Proof.
  intros H. rewrite trim_chars_id, strip_commas_id; [reflexivity | |];
    rewrite forallb_forall in *; intros c Hc;
    apply amount_char_plain, H, Hc.
Qed.

Lemma digits_amount_chars l :
  forallb is_digit l = true -> forallb amount_char l = true.
Proof.
  rewrite !forallb_forall. intros H c Hc. unfold amount_char.
  rewrite (H c Hc). reflexivity.
Qed.

Lemma dot_not_digit c : is_dot c = true -> is_digit c = false.
Proof. unfold is_dot, is_digit. intros H. zbool. lia. Qed.

Lemma dot_not_minus c : is_dot c = true -> (code c =? 45) = false.
Proof. unfold is_dot. intros H. zbool. lia. Qed.

Lemma digit_not_minus c : is_digit c = true -> (code c =? 45) = false.
Proof. unfold is_digit. intros H. zbool. lia. Qed.

(** What is left of the whole component is the component without some
    leading zeros, and it is not empty. *)
Lemma trim_whole_spec l :
  exists k, l = repeat zero k ++ trim_whole l
            /\ (l <> [] -> trim_whole l <> []).
Proof.
  induction l as [| c l IH]; [exists 0%nat; split; [reflexivity | congruence] |].
  simpl. destruct l as [| c' l].
  - exists 0%nat. split; [reflexivity | discriminate].
  - destruct (is_zero c) eqn:Hc.
    + destruct IH as (k & Hk & Hne). exists (S k). split.
      * simpl. rewrite (is_zero_eq c Hc). f_equal. exact Hk.
      * intros _. apply Hne. discriminate.
    + exists 0%nat. split; [reflexivity | discriminate].
Qed.

Lemma trim_whole_value l r :
  digits_value (trim_whole l ++ r) = digits_value (l ++ r).
Proof.
  destruct (trim_whole_spec l) as (k & Hk & _).
  rewrite Hk at 2. rewrite <- app_assoc.
  rewrite (digits_value_app (repeat zero k)).
  rewrite (digits_value_zeros (repeat zero k)) by apply forallb_repeat_zero.
  lia.
Qed.

Lemma trim_whole_digits l :
  forallb is_digit l = true -> forallb is_digit (trim_whole l) = true.
Proof.
  destruct (trim_whole_spec l) as (k & Hk & _).
  rewrite Hk at 1. rewrite forallb_app. intros [_ H]%andb_true_iff. exact H.
Qed.

(** What is left of the decimal component, padded again with zeros to the
    length it had, is the decimal component. *)
Lemma trim_decimal_spec l :
  trim_decimal l ++ repeat zero (length l - length (trim_decimal l)) = l
  /\ (l <> [] -> trim_decimal l <> [])
  /\ (forallb is_digit l = true -> forallb is_digit (trim_decimal l) = true).
Proof.
  unfold trim_decimal.
  destruct (trim_whole_spec (rev l)) as (k & Hk & Hne).
  assert (forall j, rev (repeat zero j) = repeat zero j) as Hrev.
  { induction j as [| j IH]; [reflexivity |]. simpl. rewrite IH.
    clear. induction j; [reflexivity | simpl; f_equal; assumption]. }
  remember (trim_whole (rev l)) as T eqn:HT.
  assert (l = rev T ++ repeat zero k) as Hl.
  { rewrite <- (rev_involutive l), Hk, rev_app_distr, Hrev. reflexivity. }
  split; [| split].
  - rewrite Hl at 1 2.
    rewrite length_app, repeat_length.
    replace (length (rev T) + k - length (rev T))%nat with k by lia.
    reflexivity.
  - intros Hnil Heq. apply Hne.
    + intros H. apply Hnil. rewrite <- (rev_involutive l), H. reflexivity.
    + rewrite <- (rev_involutive T), Heq. reflexivity.
  - intros H. rewrite Hl in H. rewrite forallb_app in H.
    apply andb_true_iff in H as [H _]. exact H.
Qed.

End Scanning.

(** ** Amounts *)

Section Amounts.
Import JS Ethers Pricing.

Lemma is_dot_eq c : is_dot c = true -> c = "."%char.
Proof.
  unfold is_dot. intros H. apply code_inj. zbool. rewrite H. reflexivity.
Qed.

(** The shape of a string that [amount_re] accepts. *)
Lemma amount_re_shape l :
  amount_re l = true ->
  whole_part l <> []
  /\ forallb is_digit (whole_part l) = true
  /\ forallb is_digit (decimal_part l) = true
  /\ (l = whole_part l /\ decimal_part l = []
      \/ decimal_part l <> []
         /\ l = whole_part l ++ "."%char :: decimal_part l).
Proof.
  unfold amount_re, whole_part, decimal_part.
  pose proof (take_drop_while is_digit l) as Hl.
  pose proof (take_while_all is_digit l) as Hw.
  destruct (take_while is_digit l) as [| c0 W] eqn:HW; [discriminate |].
  destruct (drop_while is_digit l) as [| c frac] eqn:HD.
  - intros _. repeat split; [discriminate | exact Hw |].
    left. rewrite app_nil_r in Hl. split; [symmetry; exact Hl | reflexivity].
  - intros H. zbool. destruct H as [[Hdot Hlen] Hfrac].
    repeat split; [discriminate | exact Hw | exact Hfrac |].
    right. split.
    + intros ->. simpl in Hlen. discriminate.
    + rewrite <- (is_dot_eq c Hdot). symmetry. exact Hl.
Qed.

Lemma fixed_groups_whole W :
  forallb is_digit W = true -> fixed_groups W = Some (false, W, []).
Proof.
  intros HW. unfold fixed_groups.
  destruct (take_while_run is_digit W [] HW I) as [Ht Hd].
  rewrite app_nil_r in Ht, Hd.
  destruct W as [| c W']; [reflexivity |].
  assert (is_digit c = true) as Hc by (simpl in HW; zbool; tauto).
  rewrite (digit_not_minus c Hc), Ht, Hd. reflexivity.
Qed.

Lemma fixed_groups_dot W F :
  W <> [] -> forallb is_digit W = true -> forallb is_digit F = true ->
  fixed_groups (W ++ "."%char :: F) = Some (false, W, F).
Proof.
  intros Hne HW HF. unfold fixed_groups.
  destruct (take_while_run is_digit W ("."%char :: F) HW eq_refl) as [Ht Hd].
  destruct (take_while_run is_digit F [] HF I) as [Ht' Hd'].
  rewrite app_nil_r in Ht', Hd'.
  destruct W as [| c W']; [congruence |].
  assert (is_digit c = true) as Hc by (simpl in HW; zbool; tauto).
  change ((c :: W') ++ "."%char :: F) with (c :: (W' ++ "."%char :: F)).
  cbv iota beta. rewrite (digit_not_minus c Hc).
  change (c :: (W' ++ "."%char :: F)) with ((c :: W') ++ "."%char :: F).
  rewrite Ht, Hd. change (is_dot "."%char) with true. cbv iota.
  rewrite Ht', Hd'. reflexivity.
Qed.

Lemma parseUnits_amount l decimals :
  amount_re l = true ->
  parseUnits (string_of_list_ascii l) decimals = units_of l decimals.
Proof.
  intros H. destruct (amount_re_shape l H) as (Hne & HW & HF & Hshape).
  unfold parseUnits, units_of.
  destruct (negb (format_ok decimals)); [reflexivity |].
  rewrite list_ascii_of_string_of_list_ascii.
  assert (fixed_groups l = Some (false, whole_part l, decimal_part l)) as ->.
  { destruct Hshape as [[Hl Hd] | [Hd Hl]].
    - rewrite Hd, Hl at 1. apply fixed_groups_whole, HW.
    - rewrite Hl at 1. apply fixed_groups_dot; assumption. }
  destruct (whole_part l) as [| c W] eqn:HWp; [congruence |].
  simpl length at 1. simpl Nat.eqb. cbv iota. reflexivity.
Qed.


Lemma forallb_take {A} (p : A -> bool) n l :
  forallb p l = true -> forallb p (take n l) = true.
Proof.
  intros H. rewrite <- (firstn_skipn n l), forallb_app in H.
  apply andb_true_iff in H as [H _]. exact H.
Qed.








End Amounts.

(** ** Formatting and parsing back *)

Section RoundTrip.
Import JS Ethers Pricing.

Lemma forallb_drop {A} (p : A -> bool) n l :
  forallb p l = true -> forallb p (drop n l) = true.
Proof.
  intros H. rewrite <- (firstn_skipn n l), forallb_app in H.
  apply andb_true_iff in H as [_ H]. exact H.
Qed.

(** A whole component followed by a dot and a decimal component is an
    amount, and these are its two components. *)
Lemma amount_dot W F :
  W <> [] -> F <> [] ->
  forallb is_digit W = true -> forallb is_digit F = true ->
  amount_re (W ++ "."%char :: F) = true
  /\ whole_part (W ++ "."%char :: F) = W
  /\ decimal_part (W ++ "."%char :: F) = F
  /\ forallb amount_char (W ++ "."%char :: F) = true.
Proof.
  intros HWne HFne HW HF.
  destruct (take_while_run is_digit W ("."%char :: F) HW eq_refl) as [Ht Hd].
  assert (forallb amount_char (W ++ "."%char :: F) = true) as Hch.
  { rewrite forallb_app, (digits_amount_chars _ HW).
    change (forallb amount_char ("."%char :: F))
      with (amount_char "."%char && forallb amount_char F).
    rewrite (digits_amount_chars _ HF). reflexivity. }
  unfold amount_re, whole_part, decimal_part. rewrite Ht, Hd.
  destruct W as [| c W]; [congruence |].
  destruct F as [| c' F]; [congruence |].
  repeat split; [| exact Hch].
  change (is_dot "."%char) with true. simpl length. simpl Nat.eqb.
  simpl negb. rewrite HF. reflexivity.
Qed.

Lemma amount_whole W :
  W <> [] -> forallb is_digit W = true ->
  amount_re W = true /\ whole_part W = W /\ decimal_part W = []
  /\ forallb amount_char W = true.
Proof.
  intros HWne HW.
  destruct (take_while_run is_digit W [] HW I) as [Ht Hd].
  rewrite app_nil_r in Ht, Hd.
  unfold amount_re, whole_part, decimal_part. rewrite Ht, Hd.
  destruct W as [| c W]; [congruence |].
  repeat split. apply digits_amount_chars, HW.
Qed.

(** The string that toString makes of a value: its two components, and
    the value they denote. *)
Lemma fixed_toString_shape raw decimals :
  0 <= raw ->
  let l := fixed_toString raw decimals in
  amount_re l = true
  /\ forallb amount_char l = true
  /\ (length (decimal_part l) <= decimals)%nat
  /\ digits_value
       (whole_part l ++ decimal_part l
        ++ repeat zero (decimals - length (decimal_part l))) = raw.
Proof.
  intros Hraw. destruct (bigint_toString_spec raw Hraw) as (Hne & Hdig & Hval).
  unfold fixed_toString. destruct decimals as [| d].
  - destruct (amount_whole _ Hne Hdig) as (Hre & Hw & Hd & Hch).
    cbv zeta. rewrite Hre, Hch, Hw, Hd. repeat split; [simpl; lia |].
    simpl. rewrite app_nil_r. exact Hval.
  - set (str := repeat zero (S (S d) - length (bigint_toString raw))
                ++ bigint_toString raw).
    assert (forallb is_digit str = true) as Hstr.
    { unfold str. rewrite forallb_app, forallb_digit_repeat_zero, Hdig.
      reflexivity. }
    assert (S d < length str)%nat as Hlen.
    { unfold str. rewrite length_app, repeat_length. lia. }
    assert (digits_value str = raw) as Hstrv.
    { unfold str. rewrite digits_value_app.
      rewrite (digits_value_zeros (repeat zero _)) by apply forallb_repeat_zero.
      lia. }
    set (index := (length str - S d)%nat).
    assert (take index str <> []) as Hwne.
    { intros H. apply (f_equal (@length ascii)) in H.
      rewrite length_take in H. simpl in H. unfold index in H. lia. }
    assert (length (drop index str) = S d) as Hflen.
    { rewrite length_skipn. unfold index. lia. }
    assert (drop index str <> []) as Hfne.
    { intros H. rewrite H in Hflen. discriminate. }
    destruct (trim_whole_spec (take index str)) as (k & _ & HW).
    destruct (trim_decimal_spec (drop index str)) as (HF & HFne & HFdig).
    specialize (HW Hwne). specialize (HFne Hfne).
    specialize (HFdig (forallb_drop _ _ _ Hstr)).
    pose proof (trim_whole_digits _ (forallb_take is_digit index _ Hstr)) as HWdig.
    destruct (amount_dot _ _ HW HFne HWdig HFdig) as (Hre & Hw & Hd & Hch).
    cbv zeta. fold str index. rewrite Hre, Hch, Hw, Hd.
    assert (length (trim_decimal (drop index str)) <= S d)%nat as Hle.
    { rewrite <- Hflen. rewrite <- HF at 2. rewrite length_app. lia. }
    repeat split; [exact Hle |].
    rewrite <- Hflen at 1. rewrite HF.
    rewrite trim_whole_value, firstn_skipn. exact Hstrv.
Qed.

End RoundTrip.

(** ** pricing.ts: results *)



(** C7, as the code has it. For a raw amount in [0, 2^511) and at most 80
    decimals, formatUnitsHuman returns a string that parseDecimalToUnits
    converts back to the raw amount; and, with 6 decimals, "12.5" is
    12500000 and 12500000 is "12.5". *)
Theorem formatUnitsHuman_inverse (raw : Z) (decimals : nat) :
  0 <= raw < 2 ^ 511 -> (decimals <= 80)%nat ->
  (exists s, Pricing.formatUnitsHuman raw decimals = Ok s
             /\ Pricing.parseDecimalToUnits s decimals = Ok raw)
  /\ Pricing.parseDecimalToUnits "12.5" 6 = Ok 12500000
  /\ Pricing.formatUnitsHuman 12500000 6 = Ok "12.5"%string.
Proof.
  intros Hraw Hdec. split; [| split; vm_compute; reflexivity].
  unfold Pricing.formatUnitsHuman, Ethers.formatUnits, Ethers.format_ok,
    Ethers.value_ok.
  apply Nat.leb_le in Hdec. rewrite Hdec.
  assert ((- 2 ^ 511 <=? raw) && (raw <? 2 ^ 511) = true) as -> by (zbool; lia).
  assert ((raw <? 0) = false) as -> by (zbool; lia).
  simpl negb. cbv iota.
  eexists. split; [reflexivity |].
  destruct (fixed_toString_shape raw decimals (proj1 Hraw))
    as (Hre & Hch & Hle & Hval).
  set (l := Ethers.fixed_toString raw decimals) in *.
  unfold Pricing.parseDecimalToUnits, Pricing.cleaned.
  rewrite list_ascii_of_string_of_list_ascii, (amount_chars_clean l Hch), Hre.
  simpl negb. cbv iota. rewrite (parseUnits_amount l decimals Hre).
  unfold Pricing.units_of, Ethers.format_ok. rewrite Hdec. simpl negb. cbv iota.
  rewrite skipn_all2, firstn_all2
    by (rewrite length_app, repeat_length; lia).
  simpl forallb. simpl negb. cbv iota.
  rewrite Hval. unfold Ethers.value_ok.
  assert ((- 2 ^ 511 <=? raw) && (raw <? 2 ^ 511) = true) as -> by (zbool; lia).
  reflexivity.
Qed.

Lemma formatUnitsHuman_inverse_witness :
  (exists s, Pricing.formatUnitsHuman 12500000 6 = Ok s
             /\ Pricing.parseDecimalToUnits s 6 = Ok 12500000)
  /\ Pricing.parseDecimalToUnits "12.5" 6 = Ok 12500000
  /\ Pricing.formatUnitsHuman 12500000 6 = Ok "12.5"%string.
Proof.
  apply (formatUnitsHuman_inverse 12500000 6).
  - split; [lia | reflexivity].
  - lia.
Defined.

(** C7 as stated fails beyond 80 decimals, which getErc20Decimals lets
    through (it accepts up to 255): formatUnits throws, and so nothing is
    parsed back. *)
Lemma formatUnitsHuman_inverse_fails :
  Pricing.formatUnitsHuman 1 81 = Throw EthersInvalidArgument
  /\ ~ (exists s, Pricing.formatUnitsHuman 1 81 = Ok s
                  /\ Pricing.parseDecimalToUnits s 81 = Ok 1).
Proof.
  split; [reflexivity |]. intros (s & Hs & _). discriminate Hs.
Qed.

(** ** Running a computation *)

Section Running.

Lemma bind_run {A B} (m : M A) (k : A -> M B) s o s' :
  bind m k s = (o, s') ->
  (exists a s1, m s = (Return a, s1) /\ k a s1 = (o, s'))
  \/ (exists e, m s = (Raise e, s') /\ o = Raise e)
  \/ (m s = (OutOfFuel, s') /\ o = OutOfFuel).
Proof.
  unfold bind. destruct (m s) as [[a | e |] s1]; intros H.
  - left. eauto.
  - right. left. injection H as <- <-. eauto.
  - right. right. injection H as <- <-. eauto.
Qed.

Lemma appends_weaken (P Q : Event -> Prop) {A} (m : M A) :
  (forall e, P e -> Q e) -> appends P m -> appends Q m.
Proof.
  intros HPQ Hm s o s' Hrun. destruct (Hm s o s' Hrun) as (l & Hl & HP).
  exists l. split; [exact Hl |]. eapply Forall_impl; eauto.
Qed.

Lemma appends_ret P {A} (a : A) : appends P (ret a).
Proof.
  intros s o s' [= <- <-]. exists []. rewrite app_nil_r. auto.
Qed.

Lemma appends_throw P {A} e : appends P (@throw A e).
Proof.
  intros s o s' [= <- <-]. exists []. rewrite app_nil_r. auto.
Qed.

Lemma appends_bind P {A B} (m : M A) (k : A -> M B) :
  appends P m -> (forall a, appends P (k a)) -> appends P (bind m k).
Proof.
  intros Hm Hk s o s' Hrun.
  destruct (bind_run _ _ _ _ _ Hrun)
    as [(a & s1 & H1 & H2) | [(e & H1 & _) | (H1 & _)]].
  - destruct (Hm _ _ _ H1) as (l1 & Hl1 & HP1).
    destruct (Hk a _ _ _ H2) as (l2 & Hl2 & HP2).
    exists (l1 ++ l2). rewrite Hl2, Hl1, app_assoc. split; [reflexivity |].
    apply Forall_app. auto.
  - exact (Hm _ _ _ H1).
  - exact (Hm _ _ _ H1).
Qed.

Lemma appends_try_catch P {A} (m : M A) (h : Error -> M A) :
  appends P m -> (forall e, appends P (h e)) -> appends P (try_catch m h).
Proof.
  intros Hm Hh s o s'. unfold try_catch.
  destruct (m s) as [[a | e |] s1] eqn:H1; intros H2.
  - injection H2 as <- <-. exact (Hm _ _ _ H1).
  - destruct (Hm _ _ _ H1) as (l1 & Hl1 & HP1).
    destruct (Hh e _ _ _ H2) as (l2 & Hl2 & HP2).
    exists (l1 ++ l2). rewrite Hl2, Hl1, app_assoc. split; [reflexivity |].
    apply Forall_app. auto.
  - injection H2 as <- <-. exact (Hm _ _ _ H1).
Qed.

Lemma appends_tick P : appends P tick.
Proof.
  intros s o s' [= <- <-]. exists []. simpl. rewrite app_nil_r. auto.
Qed.

Lemma appends_emit (P : Event -> Prop) e : P e -> appends P (emit e).
Proof.
  intros He s o s' [= <- <-]. exists [e]. simpl. auto.
Qed.

Lemma appends_get_provider P : appends P get_provider.
Proof.
  intros s o s' [= <- <-]. exists []. rewrite app_nil_r. auto.
Qed.

Lemma appends_set_provider P u : appends P (set_provider u).
Proof.
  intros s o s' [= <- <-]. exists []. simpl. rewrite app_nil_r. auto.
Qed.

Lemma appends_ask P {A} (q : nat -> A) : appends P (ask q).
Proof.
  unfold ask. apply appends_bind; [apply appends_tick |].
  intros n. apply appends_ret.
Qed.

Lemma appends_call P {A} (q : nat -> option A) : appends P (call q).
Proof.
  unfold call. apply appends_bind; [apply appends_ask |].
  intros [a |]; [apply appends_ret | apply appends_throw].
Qed.

Lemma appends_lift P {A} (r : Result A) : appends P (lift r).
Proof.
  destruct r; [apply appends_ret | apply appends_throw].
Qed.

Lemma appends_stop P {A} : appends P (fun s => (@OutOfFuel A, s)).
Proof.
  intros s o s' [= <- <-]. exists []. rewrite app_nil_r. auto.
Qed.

End Running.

(** ** The order state machine of scanRange *)

Section OrderStates.
Import Indexer.

Lemma bind_return {A B} (m : M A) (k : A -> M B) s b s' :
  bind m k s = (Return b, s') ->
  exists a s1, m s = (Return a, s1) /\ k a s1 = (Return b, s').
Proof.
  intros H. destruct (bind_run _ _ _ _ _ H)
    as [(a & s1 & H1 & H2) | [(e & _ & He) | (_ & He)]];
    [eauto | discriminate | discriminate].
Qed.

Lemma bind_ask {A B} (q : nat -> A) (k : A -> M B) s :
  bind (ask q) k s = k (q (clock s)) (tock s).
Proof. reflexivity. Qed.

Lemma keeps_filled_refl st : keeps_filled st st.
Proof. intros k e H. exists e. auto. Qed.

Lemma keeps_filled_trans st1 st2 st3 :
  keeps_filled st1 st2 -> keeps_filled st2 st3 -> keeps_filled st1 st3.
Proof.
  intros H12 H23 k e H.
  destruct (H12 k e H) as (e2 & H2 & Hf2 & Hs2).
  destruct (H23 k e2 H2) as (e3 & H3 & Hf3 & Hs3).
  exists e3. repeat split; [exact H3 | congruence | auto].
Qed.

(** A Make event always goes through, and what it leaves of the entries
    that were there. *)
Lemma processMake_keeps w ob st log s :
  exists st' s', processMake w ob st log s = (Return st', s')
                 /\ files s' = files s /\ trace s' = trace s
                 /\ keeps_filled st st'.
Proof.
  unfold processMake. destruct (mk_orderKey log) as [key |].
  2: { exists st, s. auto using keeps_filled_refl. }
  rewrite bind_ask.
  destruct (rpc_orders w (clock s) ob key) as [full |].
  2: { eexists _, _. split; [reflexivity |]. auto using keeps_filled_refl. }
  match goal with |- context [if negb ?b then _ else _] => destruct b end;
    cbn [negb].
  2: { eexists _, _. split; [reflexivity |]. auto using keeps_filled_refl. }
  eexists _, _. split; [reflexivity |]. split; [reflexivity |].
  split; [reflexivity |].
  intros k e Hk. cbn [with_orders ordersByKey].
  destruct (decide (key = k)) as [-> | Hne].
  - rewrite obj_lookup_insert_eq, Hk. eexists. split; [reflexivity |].
    cbn [firstSeenBlock status]. split; [reflexivity |].
    intros ->. destruct (decide (filled = filled)); congruence.
  - rewrite obj_lookup_insert_ne by exact Hne. exists e. auto.
Qed.

Lemma processMakes_keeps w ob logs : forall st s,
  exists st' s', processMakes w ob st logs s = (Return st', s')
                 /\ files s' = files s /\ trace s' = trace s
                 /\ keeps_filled st st'.
Proof.
  induction logs as [| log logs IH]; intros st s.
  - exists st, s. simpl. auto using keeps_filled_refl.
  - simpl. unfold bind.
    destruct (processMake_keeps w ob st log s)
      as (st1 & s1 & -> & Hf1 & Ht1 & Hk1).
    destruct (IH st1 s1) as (st2 & s2 & H2 & Hf2 & Ht2 & Hk2).
    exists st2, s2. rewrite H2.
    repeat split; [congruence | congruence |].
    eapply keeps_filled_trans; eassumption.
Qed.

(** What one Cancel event and one Match event leave of an entry. *)
Lemma processCancel_entry st log k e :
  ordersByKey st !! k = Some e ->
  exists e', ordersByKey (processCancel st log) !! k = Some e'
             /\ firstSeenBlock e' = firstSeenBlock e
             /\ (cn_orderKey log = Some k /\ status e' = cancelled
                 \/ cn_orderKey log <> Some k /\ e' = e).
Proof.
  intros Hk. unfold processCancel. destruct (cn_orderKey log) as [key |].
  2: { exists e. split; [exact Hk |]. split; [reflexivity |].
       right. split; [discriminate | reflexivity]. }
  destruct (decide (key = k)) as [-> | Hne].
  - rewrite Hk. cbn [set_status with_orders ordersByKey].
    rewrite obj_lookup_insert_eq. eexists. split; [reflexivity |]. cbn. auto.
  - assert (ordersByKey
              (match ordersByKey st !! key with
               | Some existing =>
                   set_status st key existing cancelled (cn_blockNumber log)
               | None => st
               end) !! k = Some e) as ->.
    { destruct (ordersByKey st !! key); [| exact Hk].
      cbn [set_status with_orders ordersByKey].
      rewrite obj_lookup_insert_ne by exact Hne. exact Hk. }
    exists e. split; [reflexivity |]. split; [reflexivity |].
    right. split; [congruence | reflexivity].
Qed.

Lemma processMatch_entry st log k e :
  ordersByKey st !! k = Some e ->
  exists e', ordersByKey (processMatch st log) !! k = Some e'
             /\ firstSeenBlock e' = firstSeenBlock e
             /\ ((exists a, mt_args log = Some a /\ sellKey_of a = Some k)
                   /\ k <> EmptyString /\ status e' = filled
                 \/ e' = e).
Proof.
  intros Hk. unfold processMatch.
  destruct (mt_args log) as [a |]; [| exists e; auto].
  cbv zeta. destruct (sellKey_of a) as [key |] eqn:Hkey; [| exists e; auto].
  destruct (String.eqb key EmptyString) eqn:Hempty; [exists e; auto |].
  apply String.eqb_neq in Hempty.
  destruct (decide (key = k)) as [-> | Hne].
  - rewrite Hk. cbn [set_status with_orders ordersByKey].
    rewrite obj_lookup_insert_eq. eexists. split; [reflexivity |]. cbn.
    split; [reflexivity |]. left. eauto.
  - destruct (ordersByKey st !! key); [| exists e; auto].
    cbn [set_status with_orders ordersByKey].
    rewrite obj_lookup_insert_ne by exact Hne. exists e. auto.
Qed.

Lemma cancels_entry logs : forall st k e,
  ordersByKey st !! k = Some e ->
  exists e', ordersByKey (fold_left processCancel logs st) !! k = Some e'
             /\ firstSeenBlock e' = firstSeenBlock e
             /\ (status e' = status e \/ status e' = cancelled).
Proof.
  induction logs as [| log logs IH]; intros st k e Hk; simpl.
  - exists e. auto.
  - destruct (processCancel_entry st log k e Hk) as (e1 & H1 & Hf1 & Hs1).
    destruct (IH _ k e1 H1) as (e2 & H2 & Hf2 & Hs2).
    exists e2. split; [exact H2 |]. split; [congruence |].
    destruct Hs1 as [[_ Hs1] | [_ ->]]; [| exact Hs2].
    destruct Hs2 as [Hs2 | Hs2]; right; congruence.
Qed.

Lemma matches_entry logs : forall st k e,
  ordersByKey st !! k = Some e ->
  exists e', ordersByKey (fold_left processMatch logs st) !! k = Some e'
             /\ firstSeenBlock e' = firstSeenBlock e
             /\ (status e' = status e \/ status e' = filled).
Proof.
  induction logs as [| log logs IH]; intros st k e Hk; simpl.
  - exists e. auto.
  - destruct (processMatch_entry st log k e Hk) as (e1 & H1 & Hf1 & Hs1).
    destruct (IH _ k e1 H1) as (e2 & H2 & Hf2 & Hs2).
    exists e2. split; [exact H2 |]. split; [congruence |].
    destruct Hs1 as [(_ & _ & Hs1) | ->]; [| exact Hs2].
    destruct Hs2 as [Hs2 | Hs2]; right; congruence.
Qed.

(** The three loops of scanRange, once the logs are fetched. *)
Lemma scanRange_loops w cfg st fromBlock toBlock s st' s' :
  scanRange w cfg st fromBlock toBlock s = (Return st', s') ->
  exists ob makeLogs cancelLogs matchLogs s1 st1,
    processMakes w ob st makeLogs s1 = (Return st1, s')
    /\ st' = fold_left processMatch matchLogs
               (fold_left processCancel cancelLogs st1).
Proof.
  unfold scanRange. intros H.
  apply bind_return in H as (_ & s1 & _ & H).
  apply bind_return in H as (_ & s2 & _ & H).
  apply bind_return in H as (ob & s3 & _ & H).
  apply bind_return in H as (makeLogs & s4 & _ & H).
  apply bind_return in H as (cancelLogs & s5 & _ & H).
  apply bind_return in H as (matchLogs & s6 & _ & H).
  apply bind_return in H as (st1 & s7 & Hmk & H).
  injection H as <- <-.
  exists ob, makeLogs, cancelLogs, matchLogs, s6, st1. auto.
Qed.

Lemma scanRange_never_reopened w cfg st fromBlock toBlock s st' s' :
  scanRange w cfg st fromBlock toBlock s = (Return st', s') ->
  never_reopened st st'.
Proof.
  intros H.
  destruct (scanRange_loops _ _ _ _ _ _ _ _ H)
    as (ob & mk & cn & mt & s1 & st1 & Hmk & ->).
  destruct (processMakes_keeps w ob mk st s1) as (st1' & s1' & Hmk' & _ & _ & Hk).
  rewrite Hmk in Hmk'. injection Hmk' as <- <-.
  intros k e He.
  destruct (Hk k e He) as (e1 & H1 & _ & Hs1).
  destruct (cancels_entry cn st1 k e1 H1) as (e2 & H2 & _ & Hs2).
  destruct (matches_entry mt _ k e2 H2) as (e3 & H3 & _ & Hs3).
  exists e3. split; [exact H3 |]. intros Hfilled. specialize (Hs1 Hfilled).
  destruct Hs3 as [Hs3 | Hs3]; [| congruence].
  destruct Hs2 as [Hs2 | Hs2]; congruence.
Qed.

End OrderStates.

(** ** The order state machine: results *)

(** C1, as the code has it. Over a whole scanRange no entry of the index is
    removed and no [filled] order is [open] again. But neither [cancelled]
    nor [filled] is final: a Cancel event for an indexed key sets its status
    to [cancelled], and a Match event whose sell side is an indexed key sets
    it to [filled], whatever the status was. *)
Theorem scanRange_status_transitions w cfg st fromBlock toBlock s st' s' :
  Indexer.scanRange w cfg st fromBlock toBlock s = (Return st', s') ->
  never_reopened st st'
  /\ (forall st0 log k e,
        cn_orderKey log = Some k -> ordersByKey st0 !! k = Some e ->
        exists e', ordersByKey (Indexer.processCancel st0 log) !! k = Some e'
                   /\ status e' = cancelled)
  /\ (forall st0 log a k e,
        mt_args log = Some a -> Indexer.sellKey_of a = Some k ->
        k <> EmptyString -> ordersByKey st0 !! k = Some e ->
        exists e', ordersByKey (Indexer.processMatch st0 log) !! k = Some e'
                   /\ status e' = filled).
Proof.
  intros H. split; [eapply scanRange_never_reopened; eassumption |]. split.
  - intros st0 log k e Hlog Hk.
    destruct (processCancel_entry st0 log k e Hk) as (e' & He' & _ & Hs).
    exists e'. split; [exact He' |]. destruct Hs as [[_ Hs] | [Hne _]]; congruence.
  - intros st0 log a k e Hlog Hkey Hne Hk.
    unfold Indexer.processMatch. rewrite Hlog. cbv zeta. rewrite Hkey.
    apply String.eqb_neq in Hne. rewrite Hne, Hk.
    cbn [Indexer.set_status Indexer.with_orders ordersByKey].
    rewrite obj_lookup_insert_eq. eexists. split; reflexivity.
Qed.

Lemma scanRange_status_transitions_witness :
  never_reopened (Examples.one_order filled)
    (Examples.index_after
       (Indexer.scanRange (Examples.make_at 12) (Examples.indexer_cfg 1 None)
          (Examples.one_order filled) 11 20 (Examples.boot ∅))
       (Examples.one_order filled)).
Proof.
  refine (proj1 (scanRange_status_transitions (Examples.make_at 12)
                   (Examples.indexer_cfg 1 None) (Examples.one_order filled)
                   11 20 (Examples.boot ∅) _
                   (snd (Indexer.scanRange (Examples.make_at 12)
                           (Examples.indexer_cfg 1 None)
                           (Examples.one_order filled) 11 20
                           (Examples.boot ∅))) _)).
  vm_compute. reflexivity.
Defined.

(** C1 as stated fails: scanRange turns a [filled] order into a
    [cancelled] one when the range holds a Cancel event for its key, and a
    [cancelled] order into a [filled] one when it holds a Match event. *)
Lemma terminal_status_changes :
  status <$> ordersByKey (Examples.one_order filled) !! Examples.key1
    = Some filled
  /\ status <$> ordersByKey
        (Examples.index_after
           (Indexer.scanRange (Examples.cancel_at 12)
              (Examples.indexer_cfg 1 None) (Examples.one_order filled)
              11 20 (Examples.boot ∅))
           (Examples.one_order filled)) !! Examples.key1
      = Some cancelled
  /\ status <$> ordersByKey (Examples.one_order cancelled) !! Examples.key1
      = Some cancelled
  /\ status <$> ordersByKey
        (Examples.index_after
           (Indexer.scanRange (Examples.match_at 12)
              (Examples.indexer_cfg 1 None) (Examples.one_order cancelled)
              11 20 (Examples.boot ∅))
           (Examples.one_order cancelled)) !! Examples.key1
      = Some filled.
Proof. repeat split; vm_compute; reflexivity. Qed.

(** C8. A Make event, whatever its key and whatever the chain answers,
    leaves an entry that was there in the index, with the first block it had
    and, when it was [filled], still [filled]. When the event is about that
    entry's key and the chain returns a sell order for it, the entry is
    written again: its last update is the block of the event. *)
Theorem make_keeps_filled_and_first_block w ob st log s k e :
  ordersByKey st !! k = Some e ->
  exists st' s' e',
    Indexer.processMake w ob st log s = (Return st', s')
    /\ ordersByKey st' !! k = Some e'
    /\ firstSeenBlock e' = firstSeenBlock e
    /\ (status e = filled -> status e' = filled)
    /\ (forall full,
          mk_orderKey log = Some k ->
          rpc_orders w (clock s) ob k = Some full ->
          side full = 0 -> saleKind full = 1 ->
          lastUpdateBlock e' = mk_blockNumber log).
Proof.
  intros Hk.
  destruct (processMake_keeps w ob st log s) as (st' & s' & Hrun & _ & _ & Hkeep).
  destruct (Hkeep k e Hk) as (e' & He' & Hfirst & Hstatus).
  exists st', s', e'. repeat split; try assumption.
  intros full Hlog Horders Hside Hkind.
  unfold Indexer.processMake in Hrun. rewrite Hlog, bind_ask, Horders in Hrun.
  unfold Indexer.isSellOrder in Hrun. cbn [side saleKind] in Hrun.
  rewrite Hside, Hkind in Hrun. cbn [Z.eqb andb negb] in Hrun.
  injection Hrun as <- <-.
  cbn [Indexer.with_orders ordersByKey] in He'.
  rewrite obj_lookup_insert_eq in He'. injection He' as <-. reflexivity.
Qed.

Lemma make_keeps_filled_and_first_block_witness :
  exists st' s' e',
    Indexer.processMake (Examples.make_at 12) Examples.endpoint
      (Examples.one_order filled)
      {| mk_blockNumber := 12; mk_orderKey := Some Examples.key1 |}
      (Examples.boot ∅) = (Return st', s')
    /\ ordersByKey st' !! Examples.key1 = Some e'
    /\ firstSeenBlock e' = 5
    /\ (filled = filled -> status e' = filled)
    /\ (forall full,
          Some Examples.key1 = Some Examples.key1 ->
          rpc_orders (Examples.make_at 12) 0%nat Examples.endpoint Examples.key1
            = Some full ->
          side full = 0 -> saleKind full = 1 ->
          lastUpdateBlock e' = 12).
Proof.
  apply (make_keeps_filled_and_first_block (Examples.make_at 12)
           Examples.endpoint (Examples.one_order filled)
           {| mk_blockNumber := 12; mk_orderKey := Some Examples.key1 |}
           (Examples.boot ∅) Examples.key1
           (Examples.indexed Examples.key1
              (Examples.sell_order Examples.usdol 100 0) filled 5 8)).
  vm_compute. reflexivity.
Defined.

(** ** Expiry *)

Section Expiry.
Import JS Indexer.

Lemma round53_exact m : m < 2 ^ 53 -> round53 m = m.
Proof.
  intros H. unfold round53.
  destruct (m <? 2 ^ 53) eqn:Hlt; [reflexivity |]. zbool. lia.
Qed.

(** Rounding to 53 bits does not take a number below 2^53. *)
Lemma round53_large m : 2 ^ 53 <= m -> 2 ^ 53 <= round53 m.
Proof.
  intros H. unfold round53.
  destruct (m <? 2 ^ 53) eqn:Hlt; [zbool; lia |].
  set (k := Z.log2 m - 52).
  assert (0 < m) as Hm by lia.
  pose proof (Z.log2_spec m Hm) as [Hlow _].
  assert (53 <= Z.log2 m) as Hlog.
  { apply Z.log2_le_pow2; [exact Hm | exact H]. }
  assert (0 < k) as Hk by (unfold k; lia).
  assert (2 ^ Z.log2 m = 2 ^ 52 * 2 ^ k) as Hpow.
  { rewrite <- Z.pow_add_r by lia. f_equal. unfold k. lia. }
  assert (0 < 2 ^ k) as Hpk by (apply Z.pow_pos_nonneg; lia).
  assert (2 ^ 52 <= Z.shiftr m k) as Hq.
  { rewrite Z.shiftr_div_pow2 by lia.
    apply Z.div_le_lower_bound; [exact Hpk |]. lia. }
  assert (2 <= 2 ^ k) as Hk2.
  { change 2 with (2 ^ 1) at 1. apply Z.pow_le_mono_r; lia. }
  rewrite Z.shiftl_mul_pow2 by lia.
  match goal with |- _ <= (if ?c then _ else _) * _ => destruct c end;
    change (2 ^ 53) with (2 ^ 52 * 2); nia.
Qed.

Lemma round53_nonneg m : 0 <= m -> 0 <= round53 m.
Proof.
  intros H. destruct (Z.lt_ge_cases m (2 ^ 53)) as [Hlt | Hge].
  - rewrite round53_exact; assumption.
  - pose proof (round53_large m Hge). lia.
Qed.

(** Against a time below 2^53 seconds, the comparison made on the
    [Number] of an expiry is the comparison of the expiry itself. *)
Lemma Number_le_now b nowSec :
  0 <= nowSec < 2 ^ 53 ->
  (Number_of_bigint b <=? nowSec) = (b <=? nowSec).
Proof.
  intros Hnow. unfold Number_of_bigint.
  destruct (b <? 0) eqn:Hneg.
  - zbool. pose proof (round53_nonneg (- b)).
    transitivity true; [| symmetry]; zbool; lia.
  - zbool. destruct (Z.lt_ge_cases b (2 ^ 53)) as [Hlt | Hge].
    + rewrite round53_exact by exact Hlt. reflexivity.
    + pose proof (round53_large b Hge).
      transitivity false; [| symmetry]; zbool; lia.
Qed.

Lemma isExpired_false o nowSec :
  0 <= nowSec < 2 ^ 53 ->
  isExpired o nowSec = false <-> expiry o = 0 \/ nowSec < expiry o.
Proof.
  intros Hnow. unfold isExpired.
  destruct (expiry o =? 0) eqn:Hz.
  - zbool. tauto.
  - rewrite (Number_le_now _ _ Hnow). zbool. lia.
Qed.

End Expiry.

(** ** Allow-lists *)

Section Allowlists.
Import Indexer.

Lemma allowlist_fold (parts : list string) : forall (acc : gset string) x,
  x ∈ fold_left
        (fun (set : gset string) p =>
           if address_re p then set ∪ {[ JS.toLowerCase p ]} else set)
        parts acc
  <-> x ∈ acc
      \/ exists p, In p parts /\ address_re p = true /\ x = JS.toLowerCase p.
Proof.
  induction parts as [| p parts IH]; intros acc x; simpl.
  - split; [auto | intros [H | (p & [] & _)]; exact H].
  - rewrite IH. destruct (address_re p) eqn:Hp.
    + rewrite elem_of_union, elem_of_singleton. split.
      * intros [[H | ->] | (q & Hq & Hre & ->)]; eauto 6.
      * intros [H | (q & [<- | Hq] & Hre & ->)]; eauto 6.
    + split.
      * intros [H | (q & Hq & Hre & ->)]; eauto 6.
      * intros [H | (q & [<- | Hq] & Hre & ->)]; [auto | congruence | eauto 6].
Qed.

(** What parseAllowlist keeps: the entries that are addresses, in lower
    case. The others are dropped, without an error. *)
Lemma parseAllowlist_elem raw x :
  x ∈ parseAllowlist (Some raw)
  <-> exists p, In p (allowlist_parts raw) /\ address_re p = true
                /\ x = JS.toLowerCase p.
Proof.
  unfold parseAllowlist. destruct (String.eqb raw EmptyString) eqn:Hraw.
  - apply String.eqb_eq in Hraw. subst raw. split.
    + intros H. apply not_elem_of_empty in H. destruct H.
    + intros (p & Hp & _). vm_compute in Hp. destruct Hp.
  - rewrite allowlist_fold. split; [| auto].
    intros [H | H]; [| exact H]. apply not_elem_of_empty in H. destruct H.
Qed.


(** The two parseAllowlist, of the indexer and of the risk checker, are
    the same function. *)
Lemma parseAllowlist_same raw :
  RiskChecker.parseAllowlist raw = Indexer.parseAllowlist raw.
Proof. reflexivity. Qed.

Lemma allowOnly_iff (allowlist : gset string) :
  (0 <? size allowlist)%nat = true <-> allowlist <> ∅.
Proof.
  rewrite Nat.ltb_lt. split.
  - intros H ->. rewrite size_empty in H. lia.
  - intros H. destruct (size allowlist) eqn:Hs; [| lia].
    apply size_empty_iff in Hs. apply leibniz_equiv in Hs. congruence.
Qed.

Lemma is_sep_separator c : JS.is_sep c = separator c.
Proof. destruct c as [[] [] [] [] [] [] [] []]; vm_compute; reflexivity. Qed.

Lemma is_hex_hex_digit c : JS.is_hex c = hex_digit c.
Proof. destruct c as [[] [] [] [] [] [] [] []]; vm_compute; reflexivity. Qed.

(** The pattern of an address accepts the strings that have the form of
    one. *)
Lemma address_re_form p : address_re p = true <-> address_form p.
Proof.
  unfold address_re, address_form. split.
  - destruct (list_ascii_of_string p) as [| c0 [| c1 hex]]; try discriminate.
    intros H.
    apply andb_true_iff in H as [H Hhex].
    apply andb_true_iff in H as [H Hlen].
    apply andb_true_iff in H as [H0 H1].
    apply Z.eqb_eq in H0, H1. apply Nat.eqb_eq in Hlen.
    assert (c0 = "0"%char) as ->.
    { revert H0. clear.
      destruct c0 as [[] [] [] [] [] [] [] []]; vm_compute; congruence. }
    assert (c1 = "x"%char) as ->.
    { revert H1. clear.
      destruct c1 as [[] [] [] [] [] [] [] []]; vm_compute; congruence. }
    exists hex. split; [reflexivity |]. split; [exact Hlen |].
    apply Forall_forall. intros c Hc. rewrite <- is_hex_hex_digit.
    rewrite forallb_forall in Hhex. apply Hhex. apply list_elem_of_In, Hc.
  - intros (digits & -> & Hlen & Hhex).
    change (JS.code "0" =? 48) with true. change (JS.code "x" =? 120) with true.
    rewrite Hlen. cbn [andb Nat.eqb]. apply forallb_forall. intros c Hc.
    rewrite is_hex_hex_digit. rewrite Forall_forall in Hhex.
    apply Hhex. apply list_elem_of_In, Hc.
Qed.

Lemma bounded_left_cons c pre :
  pre <> [] -> (bounded_left (c :: pre) <-> bounded_left pre).
Proof.
  intros Hne. unfold bounded_left. split.
  - intros [H | (pre' & d & Heq & Hd)]; [discriminate |].
    right. destruct pre' as [| c' pre'].
    + injection Heq as -> ->. congruence.
    + injection Heq as -> ->. eauto.
  - intros [H | (pre' & d & -> & Hd)]; [congruence |].
    right. exists (c :: pre'), d. auto.
Qed.

Lemma bounded_left_one c : bounded_left [c] <-> separator c = true.
Proof.
  unfold bounded_left. split.
  - intros [H | (pre' & d & Heq & Hd)]; [discriminate |].
    destruct pre' as [| c' pre'].
    + injection Heq as ->. exact Hd.
    + injection Heq as _ Heq. destruct pre'; discriminate.
  - intros H. right. exists [], c. auto.
Qed.

(** The pieces that split gives: the pieces of the string between its
    runs of separators. *)
Lemma split_seps_token p :
  p <> [] -> Forall (fun c => separator c = false) p ->
  forall l cur insep,
    (insep = true -> cur = []) ->
    In p (JS.split_seps cur insep l)
    <-> (exists t post, l = t ++ post /\ p = rev cur ++ t
                        /\ bounded_right post)
        \/ (exists pre post, l = pre ++ p ++ post /\ pre <> []
                             /\ bounded_left pre /\ bounded_right post).
Proof.
  intros Hne Hfree.
  assert (forall c a b, p = a ++ c :: b -> separator c = false) as Hin.
  { intros c a b ->. rewrite Forall_forall in Hfree. apply Hfree.
    apply elem_of_app. right. left. }
  induction l as [| c l IH]; intros cur insep Hcur; simpl.
  - split.
    + intros [<- | []]. left. exists [], [].
      split; [reflexivity |].
      split; [symmetry; apply app_nil_r | left; reflexivity].
    + intros [(t & post & Hl & -> & _) | (pre & post & Hl & Hpre & _)].
      * symmetry in Hl. apply app_eq_nil in Hl as [-> _].
        rewrite app_nil_r. left. reflexivity.
      * symmetry in Hl. apply app_eq_nil in Hl as [-> _]. congruence.
  - rewrite is_sep_separator. destruct (separator c) eqn:Hc.
    + specialize (IH [] true (fun _ => eq_refl)). cbn [rev app] in IH.
      assert (In p (JS.split_seps [] true l)
              <-> exists pre post, c :: l = pre ++ p ++ post /\ pre <> []
                                   /\ bounded_left pre /\ bounded_right post)
        as Hrest.
      { rewrite IH. split.
        - intros [(t & post & -> & -> & Hpost)
                 | (pre & post & -> & Hpre & Hbl & Hpost)].
          + exists [c], post. split; [reflexivity |]. split; [discriminate |].
            split; [apply bounded_left_one, Hc | exact Hpost].
          + exists (c :: pre), post. split; [reflexivity |].
            split; [discriminate |].
            split; [apply bounded_left_cons; assumption | exact Hpost].
        - intros (pre & post & Hl & Hpre & Hbl & Hpost).
          destruct pre as [| c' pre]; [congruence |].
          injection Hl as <- ->. destruct pre as [| c'' pre].
          + left. exists p, post. auto.
          + right. exists (c'' :: pre), post. split; [reflexivity |].
            split; [discriminate |].
            split; [| exact Hpost].
            refine (proj1 (bounded_left_cons c (c'' :: pre) _) Hbl).
            discriminate. }
      assert ((exists t post, c :: l = t ++ post /\ p = rev cur ++ t
                              /\ bounded_right post)
              <-> p = rev cur) as Hfirst.
      { split.
        - intros (t & post & Hl & -> & _). destruct t as [| c' t].
          + rewrite app_nil_r. reflexivity.
          + injection Hl as <- _.
            rewrite (Hin c (rev cur) t eq_refl) in Hc. discriminate.
        - intros ->. exists [], (c :: l).
          split; [reflexivity |]. split; [symmetry; apply app_nil_r |].
          right. exists c, l. auto. }
      rewrite Hfirst. destruct insep.
      * rewrite Hrest. split; [tauto |].
        intros [-> | H]; [| exact H].
        rewrite (Hcur eq_refl) in Hne. simpl in Hne. congruence.
      * simpl. rewrite Hrest. split.
        -- intros [<- | H]; auto.
        -- intros [-> | H]; auto.
    + specialize (IH (c :: cur) false (fun H => ltac:(discriminate))).
      rewrite IH. cbn [rev]. split.
      * intros [(t & post & -> & -> & Hpost)
               | (pre & post & -> & Hpre & Hbl & Hpost)].
        -- left. exists (c :: t), post. rewrite <- app_assoc.
           split; [reflexivity |]. split; [reflexivity | exact Hpost].
        -- right. exists (c :: pre), post. split; [reflexivity |].
           split; [discriminate |].
           split; [apply bounded_left_cons; assumption | exact Hpost].
      * intros [(t & post & Hl & -> & Hpost)
               | (pre & post & Hl & Hpre & Hbl & Hpost)].
        -- left. destruct t as [| c' t].
           ++ simpl in Hl. subst post.
              destruct Hpost as [H | (c' & post' & [= <- <-] & Hsep)];
                [discriminate | congruence].
           ++ injection Hl as <- ->. exists t, post.
              rewrite <- app_assoc. auto.
        -- right. destruct pre as [| c' pre]; [congruence |].
           injection Hl as <- ->. destruct pre as [| c'' pre].
           ++ apply bounded_left_one in Hbl. congruence.
           ++ exists (c'' :: pre), post. split; [reflexivity |].
              split; [discriminate |]. split; [| exact Hpost].
              refine (proj1 (bounded_left_cons c (c'' :: pre) _) Hbl).
              discriminate.
Qed.

(** No piece has a separator in it. *)
Lemma split_seps_free : forall l cur insep q,
  Forall (fun c => separator c = false) cur ->
  In q (JS.split_seps cur insep l) ->
  Forall (fun c => separator c = false) q.
Proof.
  induction l as [| c l IH]; intros cur insep q Hcur; simpl.
  - intros [<- | []]. apply Forall_rev. exact Hcur.
  - rewrite is_sep_separator. destruct (separator c) eqn:Hc.
    + destruct insep; simpl.
      * apply IH. constructor.
      * intros [<- | H]; [apply Forall_rev; exact Hcur |].
        revert H. apply IH. constructor.
    + apply IH. constructor; assumption.
Qed.

Lemma drop_while_free (l : list ascii) :
  Forall (fun c => separator c = false) l -> JS.drop_while JS.is_space l = l.
Proof.
  destruct 1 as [| c l Hc _]; [reflexivity |]. simpl.
  assert (JS.is_space c = false) as ->; [| reflexivity].
  pose proof (is_sep_separator c) as H. rewrite Hc in H.
  unfold JS.is_sep in H. apply orb_false_iff in H as [_ H]. exact H.
Qed.

Lemma trim_chars_free (l : list ascii) :
  Forall (fun c => separator c = false) l -> JS.trim_chars l = l.
Proof.
  intros Hl. unfold JS.trim_chars. rewrite (drop_while_free l Hl).
  rewrite (drop_while_free (rev l)) by (apply Forall_rev; exact Hl).
  apply rev_involutive.
Qed.

(** The entries that parseAllowlist goes through are the entries of the
    list. *)
Lemma allowlist_parts_listed raw p :
  In p (allowlist_parts raw) <-> listed raw p.
Proof.
  unfold allowlist_parts, listed, JS.split, JS.trim.
  rewrite filter_In, in_map_iff. split.
  - intros [(q & <- & Hq) Hne].
    apply in_map_iff in Hq as (ql & <- & Hql).
    pose proof (split_seps_free _ _ _ _ (proj2 (Forall_nil _) I) Hql) as Hfree.
    rewrite list_ascii_of_string_of_list_ascii, (trim_chars_free ql Hfree)
      in Hne.
    rewrite !list_ascii_of_string_of_list_ascii, (trim_chars_free ql Hfree).
    rewrite ?list_ascii_of_string_of_list_ascii.
    assert (ql <> []) as Hnil.
    { intros ->. discriminate Hne. }
    split; [exact Hnil |]. split; [exact Hfree |].
    apply (split_seps_token ql Hnil Hfree _ [] false) in Hql;
      [| discriminate].
    destruct Hql as [(t & post & Hl & -> & Hpost)
                    | (pre & post & Hl & _ & Hpre & Hpost)].
    + exists [], post. split; [exact Hl |]. split; [left; reflexivity | exact Hpost].
    + exists pre, post. auto.
  - intros (Hnil & Hfree & pre & post & Hl & Hpre & Hpost).
    assert (In (list_ascii_of_string p)
              (JS.split_seps [] false (list_ascii_of_string raw))) as Hin.
    { apply (split_seps_token _ Hnil Hfree); [discriminate |].
      destruct pre as [| c pre].
      - left. exists (list_ascii_of_string p), post. auto.
      - right. exists (c :: pre), post. split; [exact Hl |].
        split; [discriminate | auto]. }
    split.
    + exists p. split.
      * rewrite (trim_chars_free _ Hfree). apply string_of_list_ascii_of_string.
      * apply in_map_iff. exists (list_ascii_of_string p).
        split; [apply string_of_list_ascii_of_string | exact Hin].
    + destruct p; [contradiction Hnil; reflexivity | reflexivity].
Qed.

(** The allow-list that parseAllowlist returns: the entries of the list
    that are addresses, in lower case. *)
Lemma parseAllowlist_listed raw x :
  x ∈ parseAllowlist (Some raw)
  <-> exists a, listed raw a /\ address_form a /\ x = JS.toLowerCase a.
Proof.
  rewrite parseAllowlist_elem. split.
  - intros (p & Hp & Hre & ->). exists p.
    split; [apply allowlist_parts_listed, Hp |].
    split; [apply address_re_form, Hre | reflexivity].
  - intros (a & Ha & Hform & ->). exists a.
    split; [apply allowlist_parts_listed, Ha |].
    split; [apply address_re_form, Hform | reflexivity].
Qed.

(** The test of getActiveSellOrders on the collection, in terms of the
    configured list. *)
Lemma allowlist_test raw c :
  (parseAllowlist raw <> ∅ -> JS.toLowerCase c ∈ parseAllowlist raw)
  <-> allows raw c.
Proof.
  unfold allows. destruct raw as [raw |].
  2: { split; [intros _ r Hr; discriminate |].
       intros _ H. exfalso. apply H. reflexivity. }
  assert (parseAllowlist (Some raw) <> ∅
          <-> exists a, listed raw a /\ address_form a) as Hne.
  { split.
    - intros H. destruct (set_choose_L _ H) as [x Hx].
      apply parseAllowlist_listed in Hx as (a & Ha & Hf & _). eauto.
    - intros (a & Ha & Hf) Hempty.
      assert (JS.toLowerCase a ∈ parseAllowlist (Some raw)) as Hin
        by (apply parseAllowlist_listed; eauto).
      rewrite Hempty in Hin. apply not_elem_of_empty in Hin. exact Hin. }
  rewrite Hne, parseAllowlist_listed. split.
  - intros H r [= <-] Hex. destruct (H Hex) as (a & Ha & Hf & Heq). eauto.
  - intros H Hex. destruct (H raw eq_refl Hex) as (a & Ha & Hf & Heq). eauto.
Qed.

End Allowlists.

(** ** getActiveSellOrders *)

Section ActiveOrders.
Import Indexer.

Lemma activeEntry_Some cfg nowSec k p x :
  0 <= nowSec < 2 ^ 53 ->
  activeEntry cfg nowSec (parseAllowlist (COLLECTION_ALLOWLIST cfg)) (k, p)
    = Some x
  <-> x = entry_of k p /\ passes cfg nowSec p.
Proof.
  intros Hnow. unfold activeEntry, passes.
  set (al := parseAllowlist (COLLECTION_ALLOWLIST cfg)).
  pose proof (allowOnly_iff al) as Hal.
  pose proof (isExpired_false (fromPersistedOrder (order p)) nowSec Hnow) as Hexp.
  cbn [expiry fromPersistedOrder] in Hexp.
  unfold isSellOrder. cbn [side saleKind currency nft amount collectionAddr
                             fromPersistedOrder].
  destruct (bool_decide (status p = open)) eqn:Hst; cbn [negb].
  2: { apply bool_decide_eq_false in Hst. split; [discriminate | tauto]. }
  apply bool_decide_eq_true in Hst.
  destruct ((p_side (order p) =? 0) && (p_saleKind (order p) =? 1)) eqn:Hsell;
    cbn [negb].
  2: { split; [discriminate |]. intros (_ & _ & H & _). zbool. lia. }
  destruct (String.eqb _ _) eqn:Hcur; cbn [negb].
  2: { apply String.eqb_neq in Hcur. split; [discriminate | tauto]. }
  apply String.eqb_eq in Hcur.
  destruct (amount (p_nft (order p)) =? 1) eqn:Ham; cbn [negb].
  2: { split; [discriminate |]. intros (_ & _ & _ & _ & H & _). zbool. lia. }
  destruct (isExpired _ nowSec) eqn:Hex.
  { split; [discriminate |]. intros (_ & _ & _ & _ & _ & H & _).
    apply Hexp in H. discriminate. }
  destruct Hexp as [Hexp _]. specialize (Hexp eq_refl).
  destruct (0 <? size al)%nat eqn:Hsize.
  - destruct (bool_decide (_ ∈ al)) eqn:Hin; cbn [negb andb].
    + apply bool_decide_eq_true in Hin. zbool.
      split; [intros [= <-] | intros [-> _]]; tauto.
    + apply bool_decide_eq_false in Hin.
      split; [discriminate |]. intros (_ & _ & _ & _ & _ & _ & H).
      exfalso. apply Hin, H, Hal. reflexivity.
  - cbn [andb]. zbool.
    assert (al = ∅) as Hempty.
    { destruct (decide (al = ∅)) as [H | H]; [exact H |].
      apply Hal in H. congruence. }
    split; [intros [= <-] | intros [-> _]; reflexivity].
    repeat split; try tauto; lia.
Qed.

(** The object made for an entry is the one that shows it. *)
Lemma shows_entry_of k p x : shows k p x <-> x = entry_of k p.
Proof.
  unfold shows, entry_of. split.
  - destruct x as [xk [xs xsk xm xn xp xc xe xsa] xst xf xl]. cbn.
    intros (-> & -> & -> & -> & -> & -> & -> & -> & -> & -> & -> & ->).
    destruct p as [pk [ps psk pm [pt pa pq] pp pc pe psa] pst pf pl].
    reflexivity.
  - intros ->. destruct p as [pk [ps psk pm [pt pa pq] pp pc pe psa] pst pf pl].
    cbn. repeat split.
Qed.

(** The test of the loop, in terms of the configured list. *)
Lemma passes_active cfg nowSec p : passes cfg nowSec p <-> active cfg nowSec p.
Proof.
  unfold passes, active, normAddr.
  rewrite (allowlist_test (COLLECTION_ALLOWLIST cfg)
             (collectionAddr (p_nft (order p)))).
  reflexivity.
Qed.

End ActiveOrders.

(** ** The indexer's queries and allow-lists: results *)

(** C3, as the code has it. With an index on disk, and a clock below 2^53
    seconds (as every JavaScript date is), getActiveSellOrders returns, for
    the entries of the index that are open, sell-side, priced in the quote
    token (addresses compared in lower case), of amount 1 and not expired
    (expiry 0 or later than now), the object that shows the entry, and
    nothing else; so an open order whose expiry has passed is not returned.
    The allow-list counts through its entries that are addresses: when the
    configured list has one at least, the collection of the order must be
    one of them, capitals apart; the other entries are ignored, and a
    configured list without an address excludes nothing. *)
Theorem getActiveSellOrders_exact w cfg s st :
  files s !! Indexer.INDEX_PATH cfg = Some st ->
  0 <= dateNow w (clock s) / 1000 < 2 ^ 53 ->
  exists out,
    Indexer.getActiveSellOrders w cfg s = (Return out, tock s)
    /\ (forall x, x ∈ out <->
          exists k p, ordersByKey st !! k = Some p
                      /\ shows k p x
                      /\ active cfg (dateNow w (clock s) / 1000) p)
    /\ (forall k p x, ordersByKey st !! k = Some p ->
          status p = open ->
          p_expiry (order p) <> 0 ->
          p_expiry (order p) <= dateNow w (clock s) / 1000 ->
          shows k p x ->
          x ∉ out).
Proof.
  intros Hfile Hnow.
  unfold Indexer.getActiveSellOrders, Indexer.readIndex, bind at 1.
  rewrite Hfile, bind_ask. unfold ret.
  eexists. split; [reflexivity |].
  assert (forall x,
    x ∈ omap (Indexer.activeEntry cfg (dateNow w (clock s) / 1000)
                (Indexer.parseAllowlist (Indexer.COLLECTION_ALLOWLIST cfg)))
          (Object_entries (ordersByKey st))
    <-> exists k p, ordersByKey st !! k = Some p
                    /\ shows k p x
                    /\ active cfg (dateNow w (clock s) / 1000) p) as Hout.
  { intros x. rewrite list_elem_of_omap. split.
    - intros ([k p] & Hin & Hx). apply elem_of_Object_entries in Hin.
      apply activeEntry_Some in Hx as [-> Hact]; [| exact Hnow].
      exists k, p. split; [exact Hin |].
      split; [apply shows_entry_of; reflexivity | apply passes_active, Hact].
    - intros (k & p & Hk & Hx & Hact). exists (k, p). split.
      + apply elem_of_Object_entries. exact Hk.
      + apply activeEntry_Some; [exact Hnow |].
        split; [apply shows_entry_of, Hx | apply passes_active, Hact]. }
  split; [exact Hout |].
  intros k p x Hk Hopen Hexp Hpast Hx Hin.
  apply Hout in Hin as (k' & p' & Hk' & Hx' & Hact).
  assert (k' = k) as ->.
  { destruct Hx as [Hx _]. destruct Hx' as [Hx' _]. congruence. }
  rewrite Hk in Hk'. injection Hk' as <-.
  destruct Hact as (_ & _ & _ & _ & [H | H] & _); lia.
Qed.

Lemma getActiveSellOrders_exact_witness :
  exists out,
    Indexer.getActiveSellOrders (Examples.quiet 100)
      (Examples.indexer_cfg 1 (Some Scenarios.mixed_allowlist))
      (Examples.boot {[ Examples.index_path := Examples.one_order open ]})
    = (Return out,
       tock (Examples.boot {[ Examples.index_path := Examples.one_order open ]}))
    /\ exists x, x ∈ out /\ Indexer.e_orderKey x = Examples.key1.
Proof.
  destruct (getActiveSellOrders_exact (Examples.quiet 100)
              (Examples.indexer_cfg 1 (Some Scenarios.mixed_allowlist))
              (Examples.boot {[ Examples.index_path := Examples.one_order open ]})
              (Examples.one_order open))
    as (out & Hrun & Hout & _).
  - vm_compute. reflexivity.
  - split; [apply Z.leb_le | apply Z.ltb_lt]; vm_compute; reflexivity.
  - exists out. split; [exact Hrun |].
    exists (Indexer.entry_of Examples.key1
              (Examples.indexed Examples.key1
                 (Examples.sell_order Examples.usdol 100 0) open 5 8)).
    split; [| reflexivity]. apply Hout.
    exists Examples.key1, (Examples.indexed Examples.key1
                             (Examples.sell_order Examples.usdol 100 0) open 5 8).
    split; [vm_compute; reflexivity |].
    split; [cbn; repeat split |].
    unfold active. cbn.
    split; [reflexivity |]. split; [split; reflexivity |].
    split; [reflexivity |]. split; [reflexivity |].
    split; [left; reflexivity |].
    intros r [= <-] _.
    exists "0x00000000000000000000000000000000000000C3"%string.
    split; [| split].
    + split; [discriminate |]. split.
      * apply Forall_forall. intros c Hc.
        apply list_elem_of_In in Hc. vm_compute in Hc.
        repeat (destruct Hc as [<- | Hc]; [reflexivity |]). destruct Hc.
      * exists [], (list_ascii_of_string ", nothing").
        split; [reflexivity |]. split; [left; reflexivity |].
        right. eexists _, _. split; reflexivity.
    + eexists. split; [reflexivity |]. split; [reflexivity |].
      apply Forall_forall. intros c Hc.
      apply list_elem_of_In in Hc. vm_compute in Hc.
      repeat (destruct Hc as [<- | Hc]; [reflexivity |]). destruct Hc.
    + vm_compute. reflexivity.
Defined.

(** C3 as stated fails for an allow-list that is configured and has no
    well-formed address: the list 0x1234 is not empty, the collection of
    the order is not in it, and the order is returned. *)
Lemma configured_allowlist_not_enforced :
  Indexer.COLLECTION_ALLOWLIST (Examples.indexer_cfg 1 (Some "0x1234"))
  = Some "0x1234"%string
  /\ collectionAddr (p_nft (order (Examples.indexed Examples.key1
                                     (Examples.sell_order Examples.usdol 100 0)
                                     open 5 8)))
     = Examples.collection
  /\ Examples.collection <> "0x1234"%string
  /\ map Indexer.e_orderKey
       (match fst (Indexer.getActiveSellOrders (Examples.quiet 100)
                     (Examples.indexer_cfg 1 (Some "0x1234"))
                     (Examples.boot
                        {[ Examples.index_path := Examples.one_order open ]}))
        with
        | Return out => out
        | _ => []
        end)
     = [Examples.key1].
Proof.
  split; [reflexivity |]. split; [reflexivity |].
  split; [discriminate | vm_compute; reflexivity].
Qed.



(** ** What a computation may throw *)

Section Throwing.

Lemma raises_only_ret P {A} (a : A) : raises_only P (ret a).
Proof. intros s e s' H. discriminate H. Qed.

Lemma raises_only_throw (P : Error -> Prop) {A} e :
  P e -> raises_only P (@throw A e).
Proof. intros He s e' s' [= <- <-]. exact He. Qed.

Lemma raises_only_bind P {A B} (m : M A) (k : A -> M B) :
  raises_only P m -> (forall a, raises_only P (k a)) ->
  raises_only P (bind m k).
Proof.
  intros Hm Hk s e s' Hrun.
  destruct (bind_run _ _ _ _ _ Hrun)
    as [(a & s1 & H1 & H2) | [(e' & H1 & He) | (_ & He)]].
  - exact (Hk a _ _ _ H2).
  - injection He as <-. exact (Hm _ _ _ H1).
  - discriminate He.
Qed.

Lemma raises_only_ask P {A} (q : nat -> A) : raises_only P (ask q).
Proof. intros s e s' H. discriminate H. Qed.

Lemma raises_only_call (P : Error -> Prop) {A} (q : nat -> option A) :
  P RpcFailure -> raises_only P (call q).
Proof.
  intros HP. unfold call. apply raises_only_bind; [apply raises_only_ask |].
  intros [a |]; [apply raises_only_ret | apply raises_only_throw, HP].
Qed.

Lemma raises_only_lift (P : Error -> Prop) {A} (r : Result A) :
  (forall e, r = Throw e -> P e) -> raises_only P (lift r).
Proof.
  intros HP. destruct r as [a | e];
    [apply raises_only_ret | apply raises_only_throw, HP; reflexivity].
Qed.

Lemma raises_only_for_each P {A} (l : list A) (body : A -> M unit) :
  (forall x, raises_only P (body x)) ->
  raises_only P (RiskChecker.for_each l body).
Proof.
  intros Hbody. induction l as [| x l IH]; simpl.
  - apply raises_only_ret.
  - apply raises_only_bind; [apply Hbody | intros _; exact IH].
Qed.

Lemma parseUnits_throws value decimals e :
  Ethers.parseUnits value decimals = Throw e ->
  e = EthersInvalidArgument \/ e = EthersNumericFault.
Proof.
  unfold Ethers.parseUnits.
  destruct (negb (Ethers.format_ok decimals)); [intros [= <-]; auto |].
  destruct (Ethers.fixed_groups _) as [[[neg whole] dec] |];
    [| intros [= <-]; auto].
  destruct (length whole + length dec =? 0)%nat; [intros [= <-]; auto |].
  destruct (negb (forallb Ethers.is_zero _)); [intros [= <-]; auto |].
  destruct (Ethers.value_ok _); [discriminate | intros [= <-]; auto].
Qed.

Lemma parseDecimalToUnits_throws human decimals e :
  Pricing.parseDecimalToUnits human decimals = Throw e ->
  ~ is_quantity_error e.
Proof.
  unfold Pricing.parseDecimalToUnits.
  destruct (negb (Pricing.amount_re _)); [intros [= <-]; exact id |].
  intros H. destruct (parseUnits_throws _ _ _ H) as [-> | ->]; exact id.
Qed.

Lemma pickProvider_throws w us :
  raises_only (fun e => ~ is_quantity_error e)
    (RiskChecker.pickProvider_from w us).
Proof.
  induction us as [| u us IH]; simpl.
  - apply raises_only_throw. exact id.
  - apply raises_only_bind; [apply raises_only_ask |].
    intros [b |]; [apply raises_only_ret | exact IH].
Qed.

Lemma getErc20Decimals_throws w provider token :
  raises_only (fun e => ~ is_quantity_error e)
    (Pricing.getErc20Decimals w provider token).
Proof.
  unfold Pricing.getErc20Decimals.
  apply raises_only_bind; [intros s e s' H; discriminate H |].
  intros [cached |]; [apply raises_only_ret |].
  apply raises_only_bind; [apply raises_only_call; exact id |].
  intros d. destruct ((d <? 0) || (255 <? d)).
  - apply raises_only_throw. exact id.
  - apply raises_only_bind; [intros s e s' H; discriminate H |].
    intros _. apply raises_only_ret.
Qed.

(** Past the quantity check, checkRisk throws no quantity error. *)
Lemma checkRisk_rest_throws w cfg intent selectedOrders :
  quantity_ok cfg intent ->
  raises_only (fun e => ~ is_quantity_error e)
    (RiskChecker.checkRisk w cfg intent selectedOrders).
Proof.
  unfold quantity_ok. intros Hq. unfold RiskChecker.checkRisk.
  assert ((RiskChecker.MAX_QTY cfg <? RiskChecker.quantity intent) = false)
    as -> by (zbool; lia).
  repeat first
    [ apply raises_only_ret
    | apply raises_only_throw; exact id
    | apply raises_only_for_each; intros ?
    | apply pickProvider_throws
    | apply getErc20Decimals_throws
    | apply raises_only_lift; intros ?; apply parseDecimalToUnits_throws
    | apply raises_only_bind; [| intros ?]
    | match goal with
      | |- raises_only _ (if ?b then _ else _) => destruct b
      | |- raises_only _ (match ?o with Some _ => _ | None => _ end) =>
          destruct o
      end ].
Qed.

End Throwing.

(** ** checkRisk: results *)

(** C9. checkRisk throws the quantity error exactly when the quantity of the
    intent is above the configured maximum, and then before anything else;
    with a maximum of 5, a quantity of 6 is rejected and a quantity of 5 is
    not, whatever the orders and the state of the chain. *)
Theorem checkRisk_quantity w cfg intent selectedOrders s :
  ((exists e s', RiskChecker.checkRisk w cfg intent selectedOrders s
                 = (Raise e, s') /\ is_quantity_error e)
   <-> RiskChecker.MAX_QTY cfg < RiskChecker.quantity intent)
  /\ (RiskChecker.MAX_QTY cfg < RiskChecker.quantity intent ->
      RiskChecker.checkRisk w cfg intent selectedOrders s
      = (Raise (QuantityExceeded (RiskChecker.quantity intent)
                  (RiskChecker.MAX_QTY cfg)), s))
  /\ RiskChecker.checkRisk w (Examples.risk_cfg 5 None) (Examples.intent_of 6)
       selectedOrders s
     = (Raise (QuantityExceeded 6 5), s)
  /\ (forall e s',
        RiskChecker.checkRisk w (Examples.risk_cfg 5 None) (Examples.intent_of 5)
          selectedOrders s = (Raise e, s') ->
        ~ is_quantity_error e).
Proof.
  assert (forall cfg' intent',
            RiskChecker.MAX_QTY cfg' < RiskChecker.quantity intent' ->
            RiskChecker.checkRisk w cfg' intent' selectedOrders s
            = (Raise (QuantityExceeded (RiskChecker.quantity intent')
                        (RiskChecker.MAX_QTY cfg')), s)) as Hreject.
  { intros cfg' intent' Hq. unfold RiskChecker.checkRisk.
    assert ((RiskChecker.MAX_QTY cfg' <? RiskChecker.quantity intent') = true)
      as -> by (zbool; lia).
    reflexivity. }
  split; [| split; [| split]].
  - split.
    + intros (e & s' & Hrun & He).
      destruct (Z.lt_ge_cases (RiskChecker.MAX_QTY cfg)
                  (RiskChecker.quantity intent)) as [Hlt | Hge];
        [exact Hlt |].
      exfalso.
      apply (checkRisk_rest_throws w cfg intent selectedOrders Hge _ _ _ Hrun).
      exact He.
    + intros Hq. eexists _, _. split; [apply Hreject, Hq | exact I].
  - apply Hreject.
  - apply (Hreject (Examples.risk_cfg 5 None) (Examples.intent_of 6)).
    reflexivity.
  - intros e s' Hrun.
    refine (checkRisk_rest_throws w (Examples.risk_cfg 5 None)
              (Examples.intent_of 5) selectedOrders _ s e s' Hrun).
    unfold quantity_ok. simpl. lia.
Qed.

(** ** matchOrder in dry-run mode *)

Section DryRun.
Import MatchOrder.

Lemma bind_ret {A B} (a : A) (k : A -> M B) s : bind (ret a) k s = k a s.
Proof. reflexivity. Qed.

Lemma bind_throw {A B} e (k : A -> M B) s : bind (throw e) k s = (Raise e, s).
Proof. reflexivity. Qed.

Lemma bind_assoc {A B C} (m : M A) (k : A -> M B) (h : B -> M C) s :
  bind m (fun a => bind (k a) h) s = bind (bind m k) h s.
Proof. unfold bind. destruct (m s) as [[a | e |] s1]; reflexivity. Qed.

Lemma bind_emit {B} e (k : unit -> M B) s :
  bind (emit e) k s = k tt (logged e s).
Proof. reflexivity. Qed.

Lemma bind_call {A B} (q : nat -> option A) (k : A -> M B) s :
  bind (call q) k s
  = match q (clock s) with
    | Some a => k a (tock s)
    | None => (Raise RpcFailure, tock s)
    end.
Proof.
  unfold call, ask, bind, tick, ret, throw.
  destruct (q (clock s)); reflexivity.
Qed.

Lemma bind_Return {A B} (m : M A) (k : A -> M B) s a s1 :
  m s = (Return a, s1) -> bind m k s = k a s1.
Proof. unfold bind. intros ->. reflexivity. Qed.

Lemma bind_Raise {A B} (m : M A) (k : A -> M B) s e s1 :
  m s = (Raise e, s1) -> bind m k s = (Raise e, s1).
Proof. unfold bind. intros ->. reflexivity. Qed.

Lemma same_effects_tock s : same_effects s (tock s).
Proof. split; reflexivity. Qed.

Lemma same_effects_trans s1 s2 s3 :
  same_effects s1 s2 -> same_effects s2 s3 -> same_effects s1 s3.
Proof. intros [H1 H2] [H3 H4]. split; congruence. Qed.

(** pickProvider returns an endpoint or throws for want of one; it does
    nothing else. *)
Lemma pickProvider_cases w urls chainId : forall s,
  exists o s1, pickProvider w urls chainId s = (o, s1)
               /\ same_effects s s1
               /\ ((exists u, o = Return u) \/ o = Raise NoHealthyRpc).
Proof.
  induction urls as [| u urls IH]; intros s; simpl.
  - exists (Raise NoHealthyRpc), s. repeat split. right. reflexivity.
  - rewrite bind_ask. destruct (rpc_blockNumber w (clock s) u) as [b |].
    + exists (Return u), (tock s). split; [reflexivity |].
      split; [apply same_effects_tock | left; eauto].
    + destruct (IH (tock s)) as (o & s1 & Hrun & Hsame & Ho).
      exists o, s1. split; [exact Hrun |]. split; [| exact Ho].
      eapply same_effects_trans; [apply same_effects_tock | exact Hsame].
Qed.

(** In dry-run mode ensureAllowance reads the allowance and stops there. *)
Lemma ensureAllowance_dry w cfg key provider required opts s :
  truthy (dryRun opts) = true ->
  exists o s1,
    ensureAllowance w cfg key provider required opts s = (o, s1)
    /\ files s1 = files s
    /\ trace s1 = trace s ++ [EvAllowance (walletAddress w key)
                                (ORDERBOOK_ADDRESS cfg)]
    /\ (o = Return tt \/ o = Raise RpcFailure).
Proof.
  intros Hdry. unfold ensureAllowance.
  rewrite bind_emit, bind_call. cbn [clock logged].
  destruct (rpc_allowance w (clock s) provider (walletAddress w key)
              (ORDERBOOK_ADDRESS cfg)) as [current |].
  - destruct (required <=? current).
    + eexists _, _. split; [reflexivity |]. cbn. auto.
    + rewrite Hdry. eexists _, _. split; [reflexivity |]. cbn. auto.
  - eexists _, _. split; [reflexivity |]. cbn. auto.
Qed.

Lemma buildBuyOrderFromSell_cases w sell buyer ttlSec s :
  exists o s1, buildBuyOrderFromSell w sell buyer ttlSec s = (o, s1)
               /\ same_effects s s1
               /\ ((exists buy, o = Return buy)
                   \/ o = Raise EthersInvalidArgument).
Proof.
  unfold buildBuyOrderFromSell. rewrite bind_ask, bind_ask.
  assert (same_effects s (tock (tock s))) as Hsame by (split; reflexivity).
  unfold checked_address.
  destruct (getAddress w buyer) as [a1 |];
    [rewrite bind_ret | rewrite bind_throw; eauto 8].
  destruct (getAddress w (collectionAddr (nft sell))) as [a2 |];
    [rewrite bind_ret | rewrite bind_throw; eauto 8].
  destruct (getAddress w (currency sell)) as [a3 |];
    [rewrite bind_ret | rewrite bind_throw; eauto 8].
  eexists _, _. split; [reflexivity |]. split; [exact Hsame | eauto].
Qed.

Lemma hex_digit_value_spec c :
  match hex_digit_value c with
  | Some d => JS.is_hex c = true /\ d = hex_val c
  | None => JS.is_hex c = false
  end.
Proof.
  destruct c as [[] [] [] [] [] [] [] []]; vm_compute; auto.
Qed.

Lemma hex_number_fold digits : forall a,
  fold_left
    (fun acc c =>
       match acc, hex_digit_value c with
       | Some a, Some d => Some (16 * a + d)
       | _, _ => None
       end)
    digits (Some a)
  = if forallb JS.is_hex digits
    then Some (fold_left (fun acc c => acc * 16 + hex_val c) digits a)
    else None.
Proof.
  assert (forall l,
            fold_left
              (fun acc c =>
                 match acc, hex_digit_value c with
                 | Some a, Some d => Some (16 * a + d)
                 | _, _ => None
                 end) l None = None) as Hnone.
  { induction l as [| c l IH]; [reflexivity | exact IH]. }
  induction digits as [| c digits IH]; intros a; simpl; [reflexivity |].
  pose proof (hex_digit_value_spec c) as Hc.
  destruct (hex_digit_value c) as [d |].
  - destruct Hc as [-> ->]. simpl. rewrite IH.
    replace (16 * a + hex_val c) with (a * 16 + hex_val c) by lia.
    reflexivity.
  - rewrite Hc. simpl. apply Hnone.
Qed.

Lemma hex_number_value digits :
  hex_number digits
  = if forallb JS.is_hex digits then Some (hex_value digits) else None.
Proof. apply hex_number_fold. Qed.

Lemma hex_value_nonneg digits :
  forallb JS.is_hex digits = true -> 0 <= hex_value digits.
Proof.
  unfold hex_value.
  assert (forall l a, forallb JS.is_hex l = true -> 0 <= a ->
            0 <= fold_left (fun acc c => acc * 16 + hex_val c) l a) as H.
  { induction l as [| c l IH]; intros a Hl Ha; simpl; [exact Ha |].
    simpl in Hl. apply andb_true_iff in Hl as [Hc Hl]. apply IH; [exact Hl |].
    assert (0 <= hex_val c).
    { revert Hc. clear.
      destruct c as [[] [] [] [] [] [] [] []]; vm_compute; congruence. }
    lia. }
  intros Hl. apply H; [exact Hl | lia].
Qed.

(** The wallet is built exactly on the private keys that are such. *)
Lemma new_Wallet_ok key : new_Wallet key = Ok tt <-> private_key_ok key.
Proof.
  unfold new_Wallet, private_key_ok. cbv zeta.
  set (l := list_ascii_of_string key).
  set (digits := match l with
                 | c0 :: c1 :: rest =>
                     if (JS.code c0 =? 48) && (JS.code c1 =? 120)
                     then rest else l
                 | _ => l
                 end).
  assert (l = "0"%char :: "x"%char :: digits \/ l = digits) as Hl.
  { unfold digits. destruct l as [| c0 [| c1 rest]]; auto.
    destruct ((JS.code c0 =? 48) && (JS.code c1 =? 120)) eqn:H; auto.
    left. apply andb_true_iff in H as [H0 H1].
    apply Z.eqb_eq in H0, H1.
    assert (c0 = "0"%char) as ->.
    { revert H0. clear.
      destruct c0 as [[] [] [] [] [] [] [] []]; vm_compute; congruence. }
    assert (c1 = "x"%char) as ->.
    { revert H1. clear.
      destruct c1 as [[] [] [] [] [] [] [] []]; vm_compute; congruence. }
    reflexivity. }
  assert (forall d v,
            (l = "0"%char :: "x"%char :: d \/ l = d) ->
            hex_number d = Some v -> d = digits) as Huniq.
  { intros d v Hd Hv. rewrite hex_number_value in Hv.
    destruct (forallb JS.is_hex d) eqn:Hhex; [| discriminate].
    unfold digits. destruct Hd as [-> | ->].
    - reflexivity.
    - destruct d as [| c0 [| c1 rest]]; try reflexivity.
      destruct ((JS.code c0 =? 48) && (JS.code c1 =? 120)) eqn:H;
        [| reflexivity].
      exfalso. apply andb_true_iff in H as [_ H1]. apply Z.eqb_eq in H1.
      simpl in Hhex. apply andb_true_iff in Hhex as [_ Hhex].
      apply andb_true_iff in Hhex as [Hhex _].
      revert H1 Hhex. clear.
      destruct c1 as [[] [] [] [] [] [] [] []]; vm_compute; congruence. }
  clearbody digits l.
  destruct ((length digits =? 64)%nat && forallb JS.is_hex digits) eqn:Hform;
    cbn [negb].
  - apply andb_true_iff in Hform as [Hlen Hhex]. apply Nat.eqb_eq in Hlen.
    destruct ((hex_value digits =? 0) || (secp256k1_n <=? hex_value digits))
      eqn:Hrange.
    + split; [discriminate |]. intros (d & v & Hd & _ & Hv & Hv0).
      pose proof (Huniq d v Hd Hv) as ->. rewrite hex_number_value, Hhex in Hv.
      injection Hv as <-. exfalso.
      pose proof (hex_value_nonneg digits Hhex). zbool. lia.
    + split; [| reflexivity]. intros _.
      exists digits, (hex_value digits). rewrite hex_number_value, Hhex.
      split; [exact Hl |]. split; [exact Hlen |]. split; [reflexivity |].
      pose proof (hex_value_nonneg digits Hhex). zbool. lia.
  - split; [discriminate |]. intros (d & v & Hd & Hlen & Hv & _).
    pose proof (Huniq d v Hd Hv) as ->. rewrite hex_number_value in Hv.
    destruct (forallb JS.is_hex digits); [| discriminate].
    apply Nat.eqb_eq in Hlen. rewrite Hlen in Hform. discriminate.
Qed.

(** pickProvider returns the first endpoint to answer. *)
Lemma pickProvider_first w chainId us : forall s,
  exists o s1,
    pickProvider w us chainId s = (o, s1)
    /\ same_effects s s1
    /\ match o with
       | Return u =>
           exists before after,
             us = before ++ u :: after
             /\ all_fail w (clock s) before
             /\ rpc_blockNumber w (clock s + length before) u <> None
             /\ clock s1 = (clock s + length before + 1)%nat
       | Raise e => e = NoHealthyRpc /\ all_fail w (clock s) us
       | OutOfFuel => False
       end.
Proof.
  induction us as [| u us IH]; intros s; simpl.
  - exists (Raise NoHealthyRpc), s. split; [reflexivity |].
    split; [split; reflexivity |]. split; [reflexivity |].
    intros i v Hi. inversion Hi.
  - rewrite bind_ask. destruct (rpc_blockNumber w (clock s) u) as [b |] eqn:Hu.
    + exists (Return u), (tock s). split; [reflexivity |].
      split; [apply same_effects_tock |].
      exists [], us. split; [reflexivity |]. split.
      * intros i v Hi. inversion Hi.
      * simpl. rewrite Nat.add_0_r, Hu. split; [discriminate | lia].
    + destruct (IH (tock s)) as (o & s1 & Hrun & Hsame & Ho).
      exists o, s1. split; [exact Hrun |]. split.
      { eapply same_effects_trans; [apply same_effects_tock | exact Hsame]. }
      cbn [clock tock] in Ho.
      assert (forall l, all_fail w (S (clock s)) l ->
                        all_fail w (clock s) (u :: l)) as Hcons.
      { intros l Hl [| i] x Hi; simpl in Hi.
        - injection Hi as <-. rewrite Nat.add_0_r. exact Hu.
        - specialize (Hl i x Hi).
          replace (clock s + S i)%nat with (S (clock s) + i)%nat by lia.
          exact Hl. }
      destruct o as [v | e |]; [| | exact Ho].
      * destruct Ho as (before & after & -> & Hfail & Hv & Hclock).
        exists (u :: before), after. split; [reflexivity |].
        split; [apply Hcons, Hfail |]. simpl.
        replace (clock s + S (length before))%nat
          with (S (clock s) + length before)%nat by lia.
        split; [exact Hv | lia].
      * destruct Ho as [-> Hfail]. split; [reflexivity | apply Hcons, Hfail].
Qed.

(** buildBuyOrderFromSell reads the clock and the random bytes, and
    returns exactly when its three addresses are addresses. *)
Lemma buildBuyOrderFromSell_returns w sell buyer ttlSec s :
  exists o,
    buildBuyOrderFromSell w sell buyer ttlSec s = (o, tock (tock s))
    /\ match o with
       | Return _ =>
           getAddress w buyer <> None
           /\ getAddress w (collectionAddr (nft sell)) <> None
           /\ getAddress w (currency sell) <> None
       | Raise e =>
           e = EthersInvalidArgument
           /\ (getAddress w buyer = None
               \/ getAddress w (collectionAddr (nft sell)) = None
               \/ getAddress w (currency sell) = None)
       | OutOfFuel => False
       end.
Proof.
  unfold buildBuyOrderFromSell. rewrite bind_ask, bind_ask.
  unfold checked_address.
  destruct (getAddress w buyer) as [a1 |]; [rewrite bind_ret | rewrite bind_throw].
  2: { exists (Raise EthersInvalidArgument). split; [reflexivity | tauto]. }
  destruct (getAddress w (collectionAddr (nft sell))) as [a2 |];
    [rewrite bind_ret | rewrite bind_throw].
  2: { exists (Raise EthersInvalidArgument). split; [reflexivity | tauto]. }
  destruct (getAddress w (currency sell)) as [a3 |];
    [rewrite bind_ret | rewrite bind_throw].
  2: { exists (Raise EthersInvalidArgument). split; [reflexivity | tauto]. }
  eexists (Return _). split; [reflexivity |].
  split; [discriminate | split; discriminate].
Qed.

(** There is one first endpoint to answer. *)
Lemma first_split_unique w n (us : list string) b1 u1 a1 b2 u2 a2 :
  us = b1 ++ u1 :: a1 -> us = b2 ++ u2 :: a2 ->
  all_fail w n b1 -> all_fail w n b2 ->
  rpc_blockNumber w (n + length b1) u1 <> None ->
  rpc_blockNumber w (n + length b2) u2 <> None ->
  length b1 = length b2 /\ u1 = u2.
Proof.
  intros H1 H2 Hf1 Hf2 Hu1 Hu2.
  assert (us !! length b1 = Some u1) as Hl1.
  { rewrite H1. apply list_lookup_middle. reflexivity. }
  assert (us !! length b2 = Some u2) as Hl2.
  { rewrite H2. apply list_lookup_middle. reflexivity. }
  destruct (Nat.lt_trichotomy (length b1) (length b2)) as [Hlt | [Heq | Hlt]].
  - exfalso. apply Hu1. apply Hf2.
    rewrite H2, lookup_app_l in Hl1 by exact Hlt. exact Hl1.
  - split; [exact Heq |]. rewrite Heq in Hl1. congruence.
  - exfalso. apply Hu2. apply Hf1.
    rewrite H1, lookup_app_l in Hl2 by exact Hlt. exact Hl2.
Qed.

(** matchOrder stops before it has read or sent anything, or goes on to
    the read of the allowance. *)
Lemma matchOrder_begins w cfg sell opts s :
  (exists e s', matchOrder w cfg sell opts s = (Raise e, s')
                /\ same_effects s s' /\ refusal sell e
                /\ forall u n, ~ reaches_allowance w cfg sell s u n)
  \/ exists u s1,
       reaches_allowance w cfg sell s u (clock s1)
       /\ (forall u' n', reaches_allowance w cfg sell s u' n' ->
             u' = u /\ n' = clock s1)
       /\ same_effects s s1
       /\ matchOrder w cfg sell opts s
          = (ensureAllowance w cfg (WHIMLAND_PRIVATE_KEY cfg) u (price sell)
               opts ;;;
             buy <- buildBuyOrderFromSell w sell
                      (walletAddress w (WHIMLAND_PRIVATE_KEY cfg)) 300 ;;
             if truthy (dryRun opts) then ret None
             else
               emit (EvMatchOrder sell buy) ;;;
               tx <- call (fun n => rpc_matchOrder w n u sell buy) ;;
               let '(hash, receipt) := tx in
               match receipt with
               | None => ret (Some hash)
               | Some st =>
                   if negb (st =? 1) then throw ExecutionFailed
                   else ret (Some hash)
               end) s1.
Proof.
  unfold matchOrder. cbv zeta. unfold refusal.
  change (match RPC_ENDPOINTS cfg with
          | Some (u :: l) => u :: l
          | _ => [RPC_URL cfg]
          end) with (endpoints_of cfg).
  destruct (pickProvider_first w (CHAIN_ID cfg) (endpoints_of cfg) s)
    as (o1 & s1 & Hpick & Hsame & Ho).
  destruct o1 as [u | e |]; [| | destruct Ho].
  2: { destruct Ho as [-> Hfail]. left.
       rewrite (bind_Raise _ _ _ _ _ Hpick). eexists _, _.
       split; [reflexivity |]. split; [exact Hsame |]. split; [auto |].
       intros u' n' (b & a & usd & Hus & Hb & Hu & _).
       apply Hu. apply Hfail. rewrite Hus. apply list_lookup_middle.
       reflexivity. }
  destruct Ho as (before & after & Hus & Hfail & Hu & Hclock).
  rewrite (bind_Return _ _ _ _ _ Hpick).
  pose proof (new_Wallet_ok (WHIMLAND_PRIVATE_KEY cfg)) as Hkey.
  destruct (new_Wallet (WHIMLAND_PRIVATE_KEY cfg)) as [[] | e] eqn:Hwallet.
  2: { left. unfold lift. rewrite bind_throw. eexists _, _.
       split; [reflexivity |]. split; [exact Hsame |]. split.
       - revert Hwallet. unfold new_Wallet. cbv zeta.
         repeat match goal with
                | |- context [if ?b then _ else _] => destruct b
                end; intros [= <-]; auto.
       - intros u' n' (b & a & usd & _ & _ & _ & _ & Hok & _).
         apply Hkey in Hok. discriminate. }
  unfold lift. rewrite bind_ret. unfold checked_address.
  destruct (getAddress w (currency sell)) as [c1 |] eqn:Hc1;
    [rewrite bind_ret | rewrite bind_throw].
  2: { left. eexists _, _. split; [reflexivity |]. split; [exact Hsame |].
       split; [auto |].
       intros u' n' (b & a & usd & _ & _ & _ & _ & _ & Hcur & _).
       congruence. }
  destruct (getAddress w (USDOL_ADDRESS cfg)) as [c2 |] eqn:Hc2;
    [rewrite bind_ret | rewrite bind_throw].
  2: { left. eexists _, _. split; [reflexivity |]. split; [exact Hsame |].
       split; [auto |].
       intros u' n' (b & a & usd & _ & _ & _ & _ & _ & _ & Husd).
       congruence. }
  destruct (String.eqb c1 c2) eqn:Heq; cbn [negb];
    [rewrite bind_ret | rewrite bind_throw].
  2: { left. eexists _, _. split; [reflexivity |]. split; [exact Hsame |].
       split; [auto |].
       intros u' n' (b & a & usd & _ & _ & _ & _ & _ & Hcur & Husd).
       apply String.eqb_neq in Heq. congruence. }
  apply String.eqb_eq in Heq as ->.
  right. exists u, s1. split.
  { exists before, after, c2. repeat split; try assumption.
    apply Hkey. reflexivity. }
  split; [| split; [exact Hsame | reflexivity]].
  intros u' n' (b & a & usd & Hus' & Hb & Hu' & -> & _).
  destruct (first_split_unique w (clock s) (endpoints_of cfg)
              b u' a before u after Hus' Hus Hb Hfail Hu' Hu) as [Hlen ->].
  split; [reflexivity | lia].
Qed.

End DryRun.

(** ** matchOrder: results *)

(** C4, as the code has it. With dryRun set, matchOrder submits neither an
    approval nor a match: the only thing it may add to the trace is the
    read of the current allowance, which ensureAllowance still makes. It
    returns null exactly when its checks all go through: an endpoint
    answers, the private key is one a wallet can be built on, the currency
    of the order is the quote token, the read of the allowance is answered
    and the addresses of the buyer and of the collection are addresses.
    Otherwise it throws: before the read when no endpoint answers, when the
    key or an address is not one, or when the currency is another; after it
    when the read fails or the buy order cannot be built. *)
Theorem matchOrder_dry_run w cfg sell opts s :
  MatchOrder.truthy (MatchOrder.dryRun opts) = true ->
  exists o s',
    MatchOrder.matchOrder w cfg sell opts s = (o, s')
    /\ files s' = files s
    /\ (o = Return None <-> dry_run_goes_through w cfg sell s)
    /\ ((o = Return None
         /\ trace s' = trace s
              ++ [EvAllowance
                    (walletAddress w (MatchOrder.WHIMLAND_PRIVATE_KEY cfg))
                    (MatchOrder.ORDERBOOK_ADDRESS cfg)])
        \/ (exists e, o = Raise e /\ refusal sell e /\ trace s' = trace s)
        \/ (exists e, o = Raise e
              /\ (e = RpcFailure \/ e = EthersInvalidArgument)
              /\ trace s' = trace s
                   ++ [EvAllowance
                         (walletAddress w (MatchOrder.WHIMLAND_PRIVATE_KEY cfg))
                         (MatchOrder.ORDERBOOK_ADDRESS cfg)])).
Proof.
  intros Hdry.
  destruct (matchOrder_begins w cfg sell opts s)
    as [(e & s' & Hrun & [Hf Ht] & He & Hnot)
       | (u & s1 & Hreach & Huniq & [Hf1 Ht1] & Hrun)].
  { exists (Raise e), s'. split; [exact Hrun |]. split; [exact Hf |]. split.
    - split; [discriminate |]. intros (u & n & Hreach & _).
      exfalso. exact (Hnot u n Hreach).
    - right. left. eauto. }
  rewrite Hrun. clear Hrun.
  assert (dry_run_goes_through w cfg sell s
          <-> rpc_allowance w (clock s1) u
                (walletAddress w (MatchOrder.WHIMLAND_PRIVATE_KEY cfg))
                (MatchOrder.ORDERBOOK_ADDRESS cfg) <> None
              /\ getAddress w
                   (walletAddress w (MatchOrder.WHIMLAND_PRIVATE_KEY cfg))
                 <> None
              /\ getAddress w (collectionAddr (nft sell)) <> None) as Hgoes.
  { split.
    - intros (u' & n' & Hreach' & H).
      destruct (Huniq u' n' Hreach') as [-> ->]. exact H.
    - intros H. exists u, (clock s1). split; [exact Hreach | exact H]. }
  destruct Hreach as (_ & _ & usd & _ & _ & _ & _ & _ & Hcur & _).
  unfold MatchOrder.ensureAllowance. cbv zeta.
  rewrite <- bind_assoc, bind_emit. rewrite <- bind_assoc, bind_call.
  cbn [clock logged].
  destruct (rpc_allowance w (clock s1) u
              (walletAddress w (MatchOrder.WHIMLAND_PRIVATE_KEY cfg))
              (MatchOrder.ORDERBOOK_ADDRESS cfg)) as [current |].
  2: { eexists _, _. split; [reflexivity |]. split; [exact Hf1 |]. split.
       - split; [discriminate |]. rewrite Hgoes. intros [H _]. congruence.
       - right. right. exists RpcFailure. cbn [trace tock logged].
         rewrite Ht1. auto. }
  assert (forall (k : unit -> M (option string)) s0,
            bind (if price sell <=? current then ret tt
                  else if MatchOrder.truthy (MatchOrder.dryRun opts)
                       then ret tt
                       else bind
                              (emit (EvApprove (MatchOrder.ORDERBOOK_ADDRESS cfg)
                                       (if MatchOrder.truthy
                                             (MatchOrder.approveMax opts)
                                        then MatchOrder.MaxUint256
                                        else price sell)))
                              (fun _ =>
                                 bind
                                   (ask (fun n =>
                                           rpc_approve w n u
                                             (MatchOrder.ORDERBOOK_ADDRESS cfg)
                                             (if MatchOrder.truthy
                                                   (MatchOrder.approveMax opts)
                                              then MatchOrder.MaxUint256
                                              else price sell)))
                                   (fun mined =>
                                      if mined then ret tt
                                      else throw RpcFailure))) k s0
            = k tt s0) as Hskip.
  { intros k s0. rewrite Hdry. destruct (price sell <=? current); reflexivity. }
  rewrite Hskip. clear Hskip.
  match goal with
  | |- context [bind (MatchOrder.buildBuyOrderFromSell w sell ?b 300) _ ?s2] =>
      destruct (buildBuyOrderFromSell_returns w sell b 300 s2)
        as (o3 & Hbuild & Ho3)
  end.
  destruct o3 as [buy | e |].
  - rewrite (bind_Return _ _ _ _ _ Hbuild), Hdry.
    eexists _, _. split; [reflexivity |]. split; [exact Hf1 |]. split.
    + split; [intros _ | reflexivity]. apply Hgoes.
      destruct Ho3 as (H1 & H2 & _). split; [discriminate | auto].
    + left. cbn [trace tock logged]. rewrite Ht1. auto.
  - rewrite (bind_Raise _ _ _ _ _ Hbuild). destruct Ho3 as [-> Ho3].
    eexists _, _. split; [reflexivity |]. split; [exact Hf1 |]. split.
    + split; [discriminate |]. rewrite Hgoes. intros (_ & H1 & H2).
      destruct Ho3 as [H | [H | H]]; congruence.
    + right. right. exists EthersInvalidArgument. cbn [trace tock logged].
      rewrite Ht1. auto.
  - destruct Ho3.
Qed.

Lemma matchOrder_dry_run_witness :
  exists s',
    MatchOrder.matchOrder (Examples.quiet 100) Examples.match_cfg
      (Examples.sell_order Examples.usdol 100 0) Examples.dry_run
      (Examples.boot ∅) = (Return None, s').
Proof.
  destruct (matchOrder_dry_run (Examples.quiet 100) Examples.match_cfg
              (Examples.sell_order Examples.usdol 100 0) Examples.dry_run
              (Examples.boot ∅) eq_refl) as (o & s' & Hrun & _).
  exists s'. rewrite Hrun. vm_compute in Hrun.
  injection Hrun as <- _. reflexivity.
Defined.

(** C4 as stated fails. In dry-run mode the allowance step is not skipped:
    the allowance is read. And matchOrder does not return null for every
    order and configuration: it throws on an order in another currency,
    when no endpoint answers, and on a private key that is not 32 bytes
    long. *)
Lemma dry_run_reads_allowance_and_may_throw :
  trace (snd (MatchOrder.matchOrder (Examples.quiet 100) Examples.match_cfg
                (Examples.sell_order Examples.usdol 100 0) Examples.dry_run
                (Examples.boot ∅)))
    = [EvAllowance "0x252Dae0A4b9d9b80F504F6418acd2d364C0c59cD"%string
         Examples.book]
  /\ fst (MatchOrder.matchOrder (Examples.quiet 100) Examples.match_cfg
            (Examples.sell_order Examples.other_token 100 0) Examples.dry_run
            (Examples.boot ∅))
     = Raise (CurrencyNotUsdol Examples.other_token)
  /\ fst (MatchOrder.matchOrder Examples.down Examples.match_cfg
            (Examples.sell_order Examples.usdol 100 0) Examples.dry_run
            (Examples.boot ∅))
     = Raise NoHealthyRpc
  /\ fst (MatchOrder.matchOrder (Examples.quiet 100) Scenarios.short_key_cfg
            (Examples.sell_order Examples.usdol 100 0) Examples.dry_run
            (Examples.boot ∅))
     = Raise EthersInvalidArgument.
Proof. repeat split; vm_compute; reflexivity. Qed.

(** ** Endpoints and log fetching *)

Section Fetching.
Import Indexer.

Lemma same_effects_refl s : same_effects s s.
Proof. split; reflexivity. Qed.

Lemma firstHealthy_cases w us : forall s,
  exists o s1, firstHealthy w us s = (Return o, s1) /\ same_effects s s1.
Proof.
  induction us as [| u us IH]; intros s; simpl.
  - exists None, s. split; [reflexivity | apply same_effects_refl].
  - rewrite bind_ask. destruct (rpc_blockNumber w (clock s) u).
    + eexists _, _. split; [reflexivity | apply same_effects_tock].
    + destruct (IH (tock s)) as (o & s1 & Hrun & Hsame).
      exists o, s1. split; [exact Hrun |].
      eapply same_effects_trans; [apply same_effects_tock | exact Hsame].
Qed.

(** ensureProvider settles on an endpoint or throws for want of one; it
    touches neither the files nor the trace. *)
Lemma ensureProvider_cases w cfg s :
  exists o s1, ensureProvider w cfg s = (o, s1)
               /\ same_effects s s1
               /\ (o = Return tt \/ o = Raise NoHealthyRpc).
Proof.
  unfold ensureProvider. unfold get_provider. unfold bind at 1.
  rewrite bind_ask. destruct (rpc_blockNumber w (clock s) (provider s)).
  - eexists _, _. split; [reflexivity |].
    split; [apply same_effects_tock | auto].
  - destruct (firstHealthy_cases w (urls cfg) (tock s))
      as (o & s1 & Hrun & Hsame).
    rewrite (bind_Return _ _ _ _ _ Hrun).
    assert (same_effects s s1) as Hsame'
      by (eapply same_effects_trans; [apply same_effects_tock | exact Hsame]).
    destruct o as [u |].
    + eexists _, _. split; [reflexivity |]. split; [| auto].
      destruct Hsame' as [Hf Ht]. split; [exact Hf | exact Ht].
    + eexists _, _. split; [reflexivity |]. split; [exact Hsame' | auto].
Qed.

Lemma appends_ensureProvider P w cfg : appends P (ensureProvider w cfg).
Proof.
  intros s o s' Hrun.
  destruct (ensureProvider_cases w cfg s) as (o' & s1 & Hrun' & [_ Ht] & _).
  rewrite Hrun in Hrun'. injection Hrun' as -> ->.
  exists []. rewrite app_nil_r. auto.
Qed.

(** A fetch always comes back, with the logs or with what was thrown. *)
Lemma fetchLogs_total w cfg {L} t (q : nat -> string -> Z -> Z -> option (list L))
    from to s :
  exists r s1, fetchLogs w cfg t q from to s = (Return r, s1).
Proof.
  unfold fetchLogs, try_catch.
  destruct (ensureProvider_cases w cfg s) as (o & s1 & Hrun & _ & [-> | ->]).
  - rewrite (bind_Return _ _ _ _ _ Hrun), bind_emit.
    unfold get_provider. unfold bind at 1. rewrite bind_call.
    destruct (q _ _ from to); eexists _, _; reflexivity.
  - rewrite (bind_Raise _ _ _ _ _ Hrun). eexists _, _. reflexivity.
Qed.

Lemma appends_fetchLogs (P : Event -> Prop) w cfg {L} t
    (q : nat -> string -> Z -> Z -> option (list L)) from to :
  P (EvGetLogs t from to) -> appends P (fetchLogs w cfg t q from to).
Proof.
  intros HP. unfold fetchLogs. apply appends_try_catch.
  - apply appends_bind; [apply appends_ensureProvider | intros _].
    apply appends_bind; [apply appends_emit, HP | intros _].
    apply appends_bind; [apply appends_get_provider | intros u].
    apply appends_bind; [apply appends_call | intros logs].
    apply appends_ret.
  - intros e. apply appends_ret.
Qed.

Lemma appends_getLogsSafe_loop (P : Event -> Prop) w cfg {L} t
    (q : nat -> string -> Z -> Z -> option (list L)) fuel :
  (forall from to, P (EvGetLogs t from to)) -> (forall ms, P (EvSleep ms)) ->
  forall stack out, appends P (getLogsSafe_loop w cfg fuel t q stack out).
Proof.
  intros Hget Hsleep. induction fuel as [| fuel IH]; intros stack out.
  - destruct stack as [| [from to a] stack]; simpl;
      [apply appends_ret | apply appends_stop].
  - destruct stack as [| [from to a] stack]; simpl; [apply appends_ret |].
    apply appends_bind; [apply appends_fetchLogs, Hget |].
    intros [e | logs]; [| apply IH].
    destruct (from <? to); [apply IH |].
    destruct (a <? 2); [| apply appends_throw].
    apply appends_bind; [apply appends_emit, Hsleep | intros _; apply IH].
Qed.

Lemma stack_weight_nonneg stack : 0 <= stack_weight stack.
Proof.
  induction stack as [| r stack IH]; simpl; [lia |].
  unfold range_weight.
  destruct (r_from r <? r_to r) eqn:H1; [zbool; lia |].
  destruct (attempts r <? 2) eqn:H2; zbool; lia.
Qed.

(** With fuel for the weight of its stack, the loop of getLogsSafe comes to
    an end. *)
Lemma getLogsSafe_loop_terminates w cfg {L} t
    (q : nat -> string -> Z -> Z -> option (list L)) fuel :
  forall stack out s,
    Forall (fun r => 0 <= attempts r) stack ->
    stack_weight stack <= Z.of_nat fuel ->
    fst (getLogsSafe_loop w cfg fuel t q stack out s) <> OutOfFuel.
Proof.
  induction fuel as [| fuel IH]; intros stack out s Hpos Hfuel.
  - destruct stack as [| [from to a] stack]; simpl; [discriminate |].
    exfalso. pose proof (stack_weight_nonneg stack) as Hn.
    simpl in Hfuel. unfold range_weight in Hfuel. cbn [r_from r_to attempts] in Hfuel.
    destruct (from <? to) eqn:H1; [zbool; lia |].
    destruct (a <? 2) eqn:H2; zbool; lia.
  - destruct stack as [| [from to a] stack]; simpl; [discriminate |].
    apply Forall_cons_iff in Hpos as [Ha Hpos]. cbn [attempts] in Ha.
    pose proof (stack_weight_nonneg stack) as Hn.
    simpl in Hfuel. unfold range_weight in Hfuel at 1.
    cbn [r_from r_to attempts] in Hfuel.
    destruct (fetchLogs_total w cfg t q from to s) as (r & s1 & Hfetch).
    rewrite (bind_Return _ _ _ _ _ Hfetch).
    destruct r as [e | logs].
    + destruct (from <? to) eqn:Hlt.
      * zbool. apply IH.
        -- repeat constructor; cbn [attempts]; try lia. exact Hpos.
        -- simpl. unfold range_weight. cbn [r_from r_to attempts].
           assert (from <= (from + to) / 2 < to) as Hmid
             by (split; [apply Z.div_le_lower_bound | apply Z.div_lt_upper_bound]; lia).
           destruct (from <? (from + to) / 2) eqn:H1;
             destruct ((from + to) / 2 + 1 <? to) eqn:H2;
             destruct (a + 1 <? 2) eqn:H3; zbool; lia.
      * destruct (a <? 2) eqn:Ha2.
        -- rewrite bind_emit. zbool. apply IH.
           ++ constructor; [cbn [attempts]; lia | exact Hpos].
           ++ simpl. unfold range_weight. cbn [r_from r_to attempts].
              assert ((from <? to) = false) as -> by (zbool; lia).
              destruct (a + 1 <? 2) eqn:H3; zbool; lia.
        -- simpl. discriminate.
    + apply IH; [exact Hpos |]. destruct (from <? to) eqn:Hlt; zbool; [lia |].
      destruct (a <? 2) eqn:Ha2; zbool; lia.
Qed.

Lemma getLogsSafe_terminates w cfg {L} t
    (q : nat -> string -> Z -> Z -> option (list L)) fromBlock toBlock :
  terminates (getLogsSafe w cfg t q fromBlock toBlock).
Proof.
  intros s. unfold getLogsSafe. apply getLogsSafe_loop_terminates.
  - repeat constructor. simpl. lia.
  - unfold getLogsSafe_fuel. simpl. unfold range_weight.
    cbn [r_from r_to attempts].
    destruct (fromBlock <? toBlock) eqn:H; zbool; simpl; lia.
Qed.

End Fetching.

(** ** getLogsSafe: results *)

(** C5. When the fetch of the range on top of the stack fails: a range of
    more than one block is replaced by its two halves, split at the
    midpoint, the lower half on top, each with a counter of its own that
    starts one above the counter of the range; a single block whose counter
    is below 2 is fetched again after a pause of 500 ms times the counter
    plus one; a single block whose counter has reached 2 makes getLogsSafe
    throw what the fetch threw, whatever is left on the stack. So the single
    block that getLogsSafe is called on is fetched three times, with pauses
    of 500 and 1000 ms, before its error is thrown; a single block whose
    counter is 1, as a half of a range of two blocks has it, is fetched
    twice, with one pause of 1000 ms; and getLogsSafe always comes to an
    end. *)
Theorem getLogsSafe_bisects_and_retries w cfg (L : Type) t
    (q : nat -> string -> Z -> Z -> option (list L))
    fuel from to a stack out s e s1 :
  Indexer.fetchLogs w cfg t q from to s = (Return (inl e), s1) ->
  (from < to ->
   Indexer.getLogsSafe_loop w cfg (S fuel) t q
     ({| Indexer.r_from := from; Indexer.r_to := to; Indexer.attempts := a |}
      :: stack) out s
   = Indexer.getLogsSafe_loop w cfg fuel t q
       ({| Indexer.r_from := from; Indexer.r_to := (from + to) / 2;
           Indexer.attempts := a + 1 |}
        :: {| Indexer.r_from := (from + to) / 2 + 1; Indexer.r_to := to;
              Indexer.attempts := a + 1 |}
        :: stack) out s1)
  /\ (to <= from -> a < 2 ->
      Indexer.getLogsSafe_loop w cfg (S fuel) t q
        ({| Indexer.r_from := from; Indexer.r_to := to; Indexer.attempts := a |}
         :: stack) out s
      = Indexer.getLogsSafe_loop w cfg fuel t q
          ({| Indexer.r_from := from; Indexer.r_to := to;
              Indexer.attempts := a + 1 |} :: stack) out
          (logged (EvSleep (500 * (a + 1))) s1))
  /\ (to <= from -> 2 <= a ->
      Indexer.getLogsSafe_loop w cfg (S fuel) t q
        ({| Indexer.r_from := from; Indexer.r_to := to; Indexer.attempts := a |}
         :: stack) out s
      = (Raise e, s1))
  /\ (to <= from ->
      forall e2 s2 e3 s3,
        Indexer.fetchLogs w cfg t q from to (logged (EvSleep 500) s1)
          = (Return (inl e2), s2) ->
        Indexer.fetchLogs w cfg t q from to (logged (EvSleep 1000) s2)
          = (Return (inl e3), s3) ->
        Indexer.getLogsSafe w cfg t q from to s = (Raise e3, s3))
  /\ (to <= from -> a = 1 ->
      forall e2 s2,
        Indexer.fetchLogs w cfg t q from to (logged (EvSleep 1000) s1)
          = (Return (inl e2), s2) ->
        Indexer.getLogsSafe_loop w cfg (S (S fuel)) t q
          ({| Indexer.r_from := from; Indexer.r_to := to; Indexer.attempts := a |}
           :: stack) out s
        = (Raise e2, s2))
  /\ terminates (Indexer.getLogsSafe w cfg t q from to).
Proof.
  intros Hfetch.
  assert (forall f a' stack' out',
    to <= from -> a' < 2 ->
    forall s0 e0 s0',
      Indexer.fetchLogs w cfg t q from to s0 = (Return (inl e0), s0') ->
      Indexer.getLogsSafe_loop w cfg (S f) t q
        ({| Indexer.r_from := from; Indexer.r_to := to; Indexer.attempts := a' |}
         :: stack') out' s0
      = Indexer.getLogsSafe_loop w cfg f t q
          ({| Indexer.r_from := from; Indexer.r_to := to;
              Indexer.attempts := a' + 1 |} :: stack') out'
          (logged (EvSleep (500 * (a' + 1))) s0')) as Hretry.
  { intros f a' stack' out' Hle Ha s0 e0 s0' H0. simpl.
    rewrite (bind_Return _ _ _ _ _ H0).
    assert ((from <? to) = false) as -> by (zbool; lia).
    assert ((a' <? 2) = true) as -> by (zbool; lia).
    rewrite bind_emit. reflexivity. }
  assert (forall f a' stack' out',
    to <= from -> 2 <= a' ->
    forall s0 e0 s0',
      Indexer.fetchLogs w cfg t q from to s0 = (Return (inl e0), s0') ->
      Indexer.getLogsSafe_loop w cfg (S f) t q
        ({| Indexer.r_from := from; Indexer.r_to := to; Indexer.attempts := a' |}
         :: stack') out' s0
      = (Raise e0, s0')) as Hthrow.
  { intros f a' stack' out' Hle Ha s0 e0 s0' H0. simpl.
    rewrite (bind_Return _ _ _ _ _ H0).
    assert ((from <? to) = false) as -> by (zbool; lia).
    assert ((a' <? 2) = false) as -> by (zbool; lia).
    reflexivity. }
  split; [| split; [| split; [| split; [| split]]]].
  - intros Hlt. simpl. rewrite (bind_Return _ _ _ _ _ Hfetch).
    assert ((from <? to) = true) as -> by (zbool; lia). reflexivity.
  - intros Hle Ha. eapply Hretry; eassumption.
  - intros Hle Ha. eapply Hthrow; eassumption.
  - intros Hle e2 s2 e3 s3 H2 H3. unfold Indexer.getLogsSafe.
    assert (exists f, Indexer.getLogsSafe_fuel from to = S (S (S f))) as [f ->].
    { unfold Indexer.getLogsSafe_fuel.
      replace (Z.max 1 (to - from + 1)) with 1 by lia. simpl.
      exists 1%nat. reflexivity. }
    rewrite (Hretry _ 0 [] [] Hle ltac:(lia) _ _ _ Hfetch).
    rewrite (Hretry _ 1 [] [] Hle ltac:(lia) _ _ _ H2).
    rewrite (Hthrow _ 2 [] [] Hle ltac:(lia) _ _ _ H3). reflexivity.
  - intros Hle -> e2 s2 H2.
    rewrite (Hretry _ 1 stack out Hle ltac:(lia) _ _ _ Hfetch).
    rewrite (Hthrow _ 2 stack out Hle ltac:(lia) _ _ _ H2). reflexivity.
  - apply getLogsSafe_terminates.
Qed.

Lemma getLogsSafe_bisects_and_retries_witness :
  Indexer.getLogsSafe Examples.no_logs (Examples.indexer_cfg 1 None)
    LogMake (rpc_makeLogs Examples.no_logs) 7 7 (Examples.boot ∅)
  = (Raise RpcFailure,
     {| clock := 6; files := ∅; provider := Examples.endpoint;
        decimalsCache := ∅;
        trace := [EvGetLogs LogMake 7 7; EvSleep 500; EvGetLogs LogMake 7 7;
                  EvSleep 1000; EvGetLogs LogMake 7 7] |}).
Proof.
  refine (proj1 (proj2 (proj2 (proj2
    (getLogsSafe_bisects_and_retries Examples.no_logs
       (Examples.indexer_cfg 1 None) MakeLog LogMake
       (rpc_makeLogs Examples.no_logs) 0 7 7 0 [] [] (Examples.boot ∅)
       RpcFailure
       (snd (Indexer.fetchLogs Examples.no_logs (Examples.indexer_cfg 1 None)
               LogMake (rpc_makeLogs Examples.no_logs) 7 7 (Examples.boot ∅)))
       _)))) _ RpcFailure _ RpcFailure _ _ _).
  - vm_compute. reflexivity.
  - lia.
  - vm_compute. reflexivity.
  - vm_compute. reflexivity.
Defined.

(** C5 as stated fails for a block that is reached through a split: its
    counter does not start at 0. On an endpoint that rejects every fetch,
    block 0 of the range 0 to 1 is fetched again once only, after a pause of
    1000 ms and none of 500 ms; block 0 of the range 0 to 3, reached after
    two splits, is not fetched again at all and no pause is made; and in
    both runs the error of block 0 ends the call before an upper half is
    fetched. *)
Lemma split_block_retried_less :
  Indexer.getLogsSafe Examples.no_logs (Examples.indexer_cfg 1 None)
    LogMake (rpc_makeLogs Examples.no_logs) 0 1 (Examples.boot ∅)
  = (Raise RpcFailure,
     {| clock := 6; files := ∅; provider := Examples.endpoint;
        decimalsCache := ∅;
        trace := [EvGetLogs LogMake 0 1; EvGetLogs LogMake 0 0;
                  EvSleep 1000; EvGetLogs LogMake 0 0] |})
  /\ Indexer.getLogsSafe Examples.no_logs (Examples.indexer_cfg 1 None)
       LogMake (rpc_makeLogs Examples.no_logs) 0 3 (Examples.boot ∅)
     = (Raise RpcFailure,
        {| clock := 6; files := ∅; provider := Examples.endpoint;
           decimalsCache := ∅;
           trace := [EvGetLogs LogMake 0 3; EvGetLogs LogMake 0 1;
                     EvGetLogs LogMake 0 0] |}).
Proof. split; vm_compute; reflexivity. Qed.

(** Three runs of getLogsSafe on blocks 0 to 3. On an endpoint that takes
    one block at a time, the ranges are fetched lower half first and the
    four blocks come out. On an endpoint that rejects every fetch, block 0
    is reached with a counter of 2, after two splits: its fetch is not
    repeated and no pause is made before the error is thrown. *)
Example getLogsSafe_runs :
  Indexer.getLogsSafe Examples.narrow (Examples.indexer_cfg 1 None)
    LogMake (rpc_makeLogs Examples.narrow) 0 3 (Examples.boot ∅)
  = (Return [],
     {| clock := 14; files := ∅; provider := Examples.endpoint;
        decimalsCache := ∅;
        trace := [EvGetLogs LogMake 0 3; EvGetLogs LogMake 0 1;
                  EvGetLogs LogMake 0 0; EvGetLogs LogMake 1 1;
                  EvGetLogs LogMake 2 3; EvGetLogs LogMake 2 2;
                  EvGetLogs LogMake 3 3] |})
  /\ Indexer.getLogsSafe Examples.no_logs (Examples.indexer_cfg 1 None)
       LogMake (rpc_makeLogs Examples.no_logs) 0 3 (Examples.boot ∅)
     = (Raise RpcFailure,
        {| clock := 6; files := ∅; provider := Examples.endpoint;
           decimalsCache := ∅;
           trace := [EvGetLogs LogMake 0 3; EvGetLogs LogMake 0 1;
                     EvGetLogs LogMake 0 0] |}).
Proof. split; vm_compute; reflexivity. Qed.

(** ** sync *)

Section Sync.
Import Indexer.

Lemma appends_processMakes P w ob logs st : appends P (processMakes w ob st logs).
Proof.
  intros s o s' Hrun.
  destruct (processMakes_keeps w ob logs st s) as (st' & s1 & Hrun' & _ & Ht & _).
  rewrite Hrun in Hrun'. injection Hrun' as -> ->.
  exists []. rewrite app_nil_r. auto.
Qed.

Lemma appends_getLogsSafe w cfg {L} t
    (q : nat -> string -> Z -> Z -> option (list L)) fromBlock toBlock :
  appends (fun _ => True) (getLogsSafe w cfg t q fromBlock toBlock).
Proof. apply appends_getLogsSafe_loop; auto. Qed.

Lemma appends_scanRange w cfg st fromBlock toBlock :
  appends (fun _ => True) (scanRange w cfg st fromBlock toBlock).
Proof.
  unfold scanRange.
  apply appends_bind; [apply appends_emit; exact I | intros _].
  apply appends_bind; [apply appends_ensureProvider | intros _].
  apply appends_bind; [apply appends_get_provider | intros ob].
  apply appends_bind; [apply appends_getLogsSafe | intros makeLogs].
  apply appends_bind; [apply appends_getLogsSafe | intros cancelLogs].
  apply appends_bind; [apply appends_getLogsSafe | intros matchLogs].
  apply appends_bind; [apply appends_processMakes | intros st'].
  apply appends_ret.
Qed.

Lemma appends_writeIndex path st : appends (fun _ => True) (writeIndex path st).
Proof.
  intros s o s' [= <- <-]. exists [EvWriteIndex path st]. simpl. auto.
Qed.

Lemma appends_sync_loop w cfg fuel head step : forall st from,
  appends (fun _ => True) (sync_loop w cfg fuel head step st from).
Proof.
  induction fuel as [| fuel IH]; intros st from; simpl;
    destruct (from <=? head); try apply appends_ret; try apply appends_stop.
  apply appends_bind; [apply appends_scanRange | intros st'].
  apply appends_bind; [apply appends_writeIndex | intros _]. apply IH.
Qed.

(** A loop of sync that is entered starts with the scan of a range that
    begins at its loop variable. *)
Lemma sync_loop_first w cfg fuel head step st from s :
  from <= head ->
  exists o s' rest,
    sync_loop w cfg (S fuel) head step st from s = (o, s')
    /\ trace s' = trace s
                  ++ EvScanRange from (Z.min head (from + step - 1)) :: rest.
Proof.
  intros Hle. simpl. assert ((from <=? head) = true) as -> by (zbool; lia).
  unfold scanRange at 1. rewrite <- bind_assoc, bind_emit. cbv beta.
  match goal with
  | |- exists o s' rest, ?m ?s0 = (o, s') /\ _ =>
      assert (appends (fun _ => True) m) as Happ;
      [| destruct (m s0) as [o s'] eqn:Hrun]
  end.
  { apply appends_bind.
    - apply appends_bind; [apply appends_ensureProvider | intros _].
      apply appends_bind; [apply appends_get_provider | intros ob].
      apply appends_bind; [apply appends_getLogsSafe | intros makeLogs].
      apply appends_bind; [apply appends_getLogsSafe | intros cancelLogs].
      apply appends_bind; [apply appends_getLogsSafe | intros matchLogs].
      apply appends_bind; [apply appends_processMakes | intros st'].
      apply appends_ret.
    - intros st'. apply appends_bind; [apply appends_writeIndex | intros _].
      apply appends_sync_loop. }
  destruct (Happ _ _ _ Hrun) as (rest & Hrest & _).
  exists o, s', rest. split; [reflexivity |].
  rewrite Hrest. cbn [trace logged]. rewrite <- app_assoc. reflexivity.
Qed.

End Sync.

(** ** sync: results *)

(** C2, as the code has it. Let sync find an endpoint, load a state that
    matches the configured chain id and order-book address, and read the
    head of the chain. The block it starts from is the greater of
    [lastScannedBlock + 1] and of a lower bound, which is the configured
    starting block when that is positive and [max(1, head - 50000)]
    otherwise. When the start is beyond the head, sync returns with the
    files and the trace as they were: nothing is scanned or written. When it
    is not, the first thing sync does is to scan a range that begins at the
    start. *)
Theorem sync_start w cfg s s1 st head :
  Indexer.ensureProvider w cfg s = (Return tt, s1) ->
  rpc_blockNumber w (clock s1) (provider s1) = Some head ->
  files s !! Indexer.INDEX_PATH cfg = Some st ->
  chainId st = Indexer.CHAIN_ID cfg ->
  Indexer.normAddr (orderbook st)
    = Indexer.normAddr (Indexer.ORDERBOOK_ADDRESS cfg) ->
  let fromBlock :=
    if 0 <? Indexer.INDEXER_FROM_BLOCK cfg
    then Indexer.INDEXER_FROM_BLOCK cfg
    else Z.max 1 (head - 50000) in
  let start := Z.max fromBlock (lastScannedBlock st + 1) in
  (head < start ->
   exists s', Indexer.sync w cfg s = (Return tt, s')
              /\ files s' = files s /\ trace s' = trace s)
  /\ (start <= head ->
      exists o s' rest,
        Indexer.sync w cfg s = (o, s')
        /\ trace s' = trace s
             ++ EvScanRange start (Z.min head (start + batchSize w - 1))
                :: rest)
  /\ (0 < Indexer.INDEXER_FROM_BLOCK cfg ->
      start = Z.max (Indexer.INDEXER_FROM_BLOCK cfg) (lastScannedBlock st + 1)).
Proof.
  intros Hensure Hhead Hfile Hchain Hbook fromBlock start.
  destruct (ensureProvider_cases w cfg s) as (o1 & s1' & Hrun & [Hf1 Ht1] & _).
  rewrite Hensure in Hrun. injection Hrun as <- <-.
  assert (Indexer.initial_state cfg (Some st) = st) as Hinit.
  { unfold Indexer.initial_state. rewrite Hchain, Z.eqb_refl, Hbook.
    rewrite String.eqb_refl. reflexivity. }
  assert (Indexer.start_of cfg st head = start) as Hstart by reflexivity.
  assert (Indexer.sync w cfg s
          = (if head <? start then ret tt
             else Indexer.sync_loop w cfg (Z.to_nat (head - start + 1)) head
                    (batchSize w) st start) (tock s1)) as Hsync.
  { unfold Indexer.sync. rewrite (bind_Return _ _ _ _ _ Hensure).
    unfold Indexer.readIndex at 1. unfold bind at 1.
    rewrite Hf1, Hfile, Hinit.
    unfold get_provider. unfold bind at 1. rewrite bind_call, Hhead.
    cbv zeta. rewrite Hstart. reflexivity. }
  split; [| split].
  - intros Hlt. assert ((head <? start) = true) as Hb by (zbool; lia).
    rewrite Hb in Hsync. exists (tock s1). split; [exact Hsync |].
    split; [exact Hf1 | exact Ht1].
  - intros Hle. assert ((head <? start) = false) as Hb by (zbool; lia).
    rewrite Hb in Hsync.
    assert (exists fuel, Z.to_nat (head - start + 1) = S fuel) as [fuel Hfuel].
    { exists (Z.to_nat (head - start)). lia. }
    rewrite Hfuel in Hsync.
    destruct (sync_loop_first w cfg fuel head (batchSize w) st start (tock s1) Hle)
      as (o & s' & rest & Hloop & Htrace).
    exists o, s', rest. split; [congruence |].
    rewrite Htrace. cbn [trace tock]. rewrite Ht1. reflexivity.
  - intros Hpos. unfold start, fromBlock.
    assert ((0 <? Indexer.INDEXER_FROM_BLOCK cfg) = true) as -> by (zbool; lia).
    reflexivity.
Qed.

Lemma sync_start_witness :
  exists o s' rest,
    Indexer.sync (Examples.quiet 100) (Examples.indexer_cfg 1 None)
      (Examples.boot {[ Examples.index_path := Examples.index_of 10 ∅ ]})
    = (o, s')
    /\ trace s' = EvScanRange 11 100 :: rest.
Proof.
  refine (proj1 (proj2
    (sync_start (Examples.quiet 100) (Examples.indexer_cfg 1 None)
       (Examples.boot {[ Examples.index_path := Examples.index_of 10 ∅ ]})
       (tock (Examples.boot {[ Examples.index_path := Examples.index_of 10 ∅ ]}))
       (Examples.index_of 10 ∅) 100 _ _ _ _ _)) _).
  - vm_compute. reflexivity.
  - reflexivity.
  - vm_compute. reflexivity.
  - reflexivity.
  - vm_compute. reflexivity.
  - vm_compute. discriminate.
Defined.

(** C2 as stated fails when the configured starting block is 0, which is
    what it is when INDEX_FROM_BLOCK is not set: with a matching state
    scanned up to block 3 and the head of the chain at 60000, the first
    block scanned is 10000, not max(0, 3 + 1) = 4. *)
Lemma sync_start_not_configured :
  Indexer.initial_state (Examples.indexer_cfg 0 None)
    (Some (Examples.index_of 3 ∅)) = Examples.index_of 3 ∅
  /\ Z.max (Indexer.INDEXER_FROM_BLOCK (Examples.indexer_cfg 0 None))
       (lastScannedBlock (Examples.index_of 3 ∅) + 1) = 4
  /\ hd_error
       (trace (snd (Indexer.sync (Examples.quiet 60000)
                      (Examples.indexer_cfg 0 None)
                      (Examples.boot
                         {[ Examples.index_path := Examples.index_of 3 ∅ ]}))))
     = Some (EvScanRange 10000 10499).
Proof. repeat split; vm_compute; reflexivity. Qed.

(** ** The bounds of the loops are never reached *)

Section Termination.
Import Indexer.

Lemma terminates_bind {A B} (m : M A) (k : A -> M B) :
  terminates m -> (forall a, terminates (k a)) -> terminates (bind m k).
Proof.
  intros Hm Hk s. unfold bind. specialize (Hm s).
  destruct (m s) as [[a | e |] s1]; simpl in *;
    [apply Hk | discriminate | congruence].
Qed.

Lemma terminates_ensureProvider w cfg : terminates (ensureProvider w cfg).
Proof.
  intros s. destruct (ensureProvider_cases w cfg s)
    as (o & s1 & -> & _ & [-> | ->]); discriminate.
Qed.

Lemma terminates_processMakes w ob st logs :
  terminates (processMakes w ob st logs).
Proof.
  intros s. destruct (processMakes_keeps w ob logs st s) as (st' & s1 & -> & _).
  discriminate.
Qed.

Lemma terminates_scanRange w cfg st fromBlock toBlock :
  terminates (scanRange w cfg st fromBlock toBlock).
Proof.
  unfold scanRange.
  apply terminates_bind; [intros s; discriminate | intros _].
  apply terminates_bind; [apply terminates_ensureProvider | intros _].
  apply terminates_bind; [intros s; discriminate | intros ob].
  apply terminates_bind; [apply getLogsSafe_terminates | intros makeLogs].
  apply terminates_bind; [apply getLogsSafe_terminates | intros cancelLogs].
  apply terminates_bind; [apply getLogsSafe_terminates | intros matchLogs].
  apply terminates_bind; [apply terminates_processMakes | intros st'].
  intros s. discriminate.
Qed.

Lemma terminates_sync_loop w cfg head step :
  1 <= step ->
  forall fuel st from,
    head - from + 1 <= Z.of_nat fuel ->
    terminates (sync_loop w cfg fuel head step st from).
Proof.
  intros Hstep. induction fuel as [| fuel IH]; intros st from Hfuel; simpl.
  - assert ((from <=? head) = false) as -> by (zbool; lia).
    intros s. discriminate.
  - destruct (from <=? head) eqn:Hle; [| intros s; discriminate].
    apply terminates_bind; [apply terminates_scanRange | intros st'].
    apply terminates_bind; [intros s; discriminate | intros _].
    apply IH. lia.
Qed.

(** With a batch size of at least one block, sync comes to an end: it
    returns or it throws. *)
Lemma terminates_sync w cfg :
  1 <= batchSize w -> terminates (sync w cfg).
Proof.
  intros Hstep. unfold sync.
  apply terminates_bind; [apply terminates_ensureProvider | intros _].
  apply terminates_bind; [intros s; discriminate | intros existing].
  apply terminates_bind; [intros s; discriminate | intros u].
  apply terminates_bind.
  { intros s. unfold call, ask, bind, tick, ret, throw.
    destruct (rpc_blockNumber w (clock s) u); discriminate. }
  intros head. cbv zeta.
  destruct (head <? _) eqn:Hlt; [intros s; discriminate |].
  apply terminates_sync_loop; [exact Hstep |]. zbool. lia.
Qed.

End Termination.

(** * Further properties *)

(** ** getLogsSafe returns the logs of the whole range *)

Section LogsOfRange.
Import Indexer.

(** A fetch that comes back with logs got them from the endpoint. *)
Lemma fetchLogs_logs w cfg {L} t (q : nat -> string -> Z -> Z -> option (list L))
    from to s logs s1 :
  fetchLogs w cfg t q from to s = (Return (inr logs), s1) ->
  exists n u, q n u from to = Some logs.
Proof.
  unfold fetchLogs, try_catch.
  destruct (ensureProvider_cases w cfg s) as (o & s0 & Hrun & _ & [-> | ->]).
  - rewrite (bind_Return _ _ _ _ _ Hrun), bind_emit.
    unfold get_provider. unfold bind at 1. rewrite bind_call.
    destruct (q _ _ from to) as [l |] eqn:Hq; [| discriminate].
    intros [= <- _]. eauto.
  - rewrite (bind_Raise _ _ _ _ _ Hrun). discriminate.
Qed.

Lemma getLogsSafe_loop_logs w cfg {L} t
    (q : nat -> string -> Z -> Z -> option (list L))
    (chain_logs : Z -> Z -> list L) :
  (forall n u a b l, q n u a b = Some l -> l = chain_logs a b) ->
  (forall a b c, a <= b -> b < c ->
     chain_logs a c = chain_logs a b ++ chain_logs (b + 1) c) ->
  forall fuel stack out s out' s',
    getLogsSafe_loop w cfg fuel t q stack out s = (Return out', s') ->
    out' = out ++ concat (map (fun r => chain_logs (r_from r) (r_to r)) stack).
Proof.
  intros Hq Hadd. induction fuel as [| fuel IH]; intros stack out s out' s'.
  - destruct stack as [| [from to a] stack]; simpl; [| discriminate].
    intros [= <- _]. rewrite app_nil_r. reflexivity.
  - destruct stack as [| [from to a] stack]; simpl.
    { intros [= <- _]. rewrite app_nil_r. reflexivity. }
    destruct (fetchLogs_total w cfg t q from to s) as (r & s1 & Hfetch).
    rewrite (bind_Return _ _ _ _ _ Hfetch). destruct r as [e | logs].
    + destruct (from <? to) eqn:Hlt.
      * intros Hrun. apply IH in Hrun. rewrite Hrun. simpl. zbool.
        assert (from <= (from + to) / 2 < to) as [Hlo Hhi]
          by (split; [apply Z.div_le_lower_bound | apply Z.div_lt_upper_bound]; lia).
        rewrite (Hadd from ((from + to) / 2) to Hlo Hhi), <- !app_assoc.
        reflexivity.
      * destruct (a <? 2); [| discriminate].
        rewrite bind_emit. intros Hrun. apply IH in Hrun. exact Hrun.
    + intros Hrun. apply IH in Hrun. rewrite Hrun. simpl.
      destruct (fetchLogs_logs _ _ _ _ _ _ _ _ _ Hfetch) as (n & u & Hlogs).
      rewrite (Hq _ _ _ _ _ Hlogs), <- app_assoc. reflexivity.
Qed.

End LogsOfRange.

(** X1. Let the endpoints answer a fetch, when they answer, with the logs of
    the chain for the range asked, and let the logs of a range be the logs
    of its parts, one after the other. Then what getLogsSafe returns is the
    logs of the whole range, in order: the splits and the retries lose no
    log and repeat none. *)
Theorem getLogsSafe_whole_range w cfg (L : Type) t
    (q : nat -> string -> Z -> Z -> option (list L))
    (chain_logs : Z -> Z -> list L) fromBlock toBlock s out s' :
  (forall n u a b l, q n u a b = Some l -> l = chain_logs a b) ->
  (forall a b c, a <= b -> b < c ->
     chain_logs a c = chain_logs a b ++ chain_logs (b + 1) c) ->
  Indexer.getLogsSafe w cfg t q fromBlock toBlock s = (Return out, s') ->
  out = chain_logs fromBlock toBlock.
Proof.
  intros Hq Hadd Hrun. unfold Indexer.getLogsSafe in Hrun.
  apply (getLogsSafe_loop_logs w cfg t q chain_logs Hq Hadd) in Hrun.
  rewrite Hrun. simpl. rewrite app_nil_r. reflexivity.
Qed.

Lemma at_block_parts {L} b (log : L) a m c :
  a <= m -> m < c ->
  Examples.at_block b log a c
  = Examples.at_block b log a m ++ Examples.at_block b log (m + 1) c.
Proof.
  intros H1 H2. unfold Examples.at_block.
  destruct ((a <=? b) && (b <=? c)) eqn:E1;
    destruct ((a <=? b) && (b <=? m)) eqn:E2;
    destruct ((m + 1 <=? b) && (b <=? c)) eqn:E3;
    try reflexivity; zbool; lia.
Qed.

Lemma getLogsSafe_whole_range_witness :
  fst (Indexer.getLogsSafe Scenarios.narrow_make12 (Examples.indexer_cfg 1 None)
         LogMake (rpc_makeLogs Scenarios.narrow_make12) 11 14 (Examples.boot ∅))
  = Return (Examples.at_block 12 Scenarios.make12 11 14).
Proof.
  destruct (Indexer.getLogsSafe Scenarios.narrow_make12
              (Examples.indexer_cfg 1 None) LogMake
              (rpc_makeLogs Scenarios.narrow_make12) 11 14 (Examples.boot ∅))
    as [o s'] eqn:Hrun.
  assert (exists out, o = Return out) as [out ->]
    by (vm_compute in Hrun; injection Hrun as <- _; eauto).
  simpl. f_equal.
  refine (getLogsSafe_whole_range Scenarios.narrow_make12
            (Examples.indexer_cfg 1 None) MakeLog LogMake
            (rpc_makeLogs Scenarios.narrow_make12)
            (Examples.at_block 12 Scenarios.make12) 11 14 (Examples.boot ∅)
            out s' _ _ Hrun).
  - intros n u a b l. simpl. unfold Scenarios.one_block_of.
    destruct (a <? b); [discriminate | congruence].
  - intros a b c. apply at_block_parts.
Defined.

(** ** What scanRange keeps *)

Section ScanInvariants.
Import Indexer.

Lemma lower_char_idem c : JS.lower_char (JS.lower_char c) = JS.lower_char c.
Proof.
  destruct c as [[] [] [] [] [] [] [] []]; vm_compute; reflexivity.
Qed.

Lemma toLowerCase_idem a : JS.toLowerCase (JS.toLowerCase a) = JS.toLowerCase a.
Proof.
  unfold JS.toLowerCase. rewrite list_ascii_of_string_of_list_ascii, map_map.
  f_equal. apply map_ext. intros c. apply lower_char_idem.
Qed.

Lemma keeps_files_bind {A B} (m : M A) (k : A -> M B) :
  keeps_files m -> (forall a, keeps_files (k a)) -> keeps_files (bind m k).
Proof.
  intros Hm Hk s o s' Hrun.
  destruct (bind_run _ _ _ _ _ Hrun)
    as [(a & s1 & H1 & H2) | [(e & H1 & _) | (H1 & _)]].
  - rewrite (Hk a _ _ _ H2). exact (Hm _ _ _ H1).
  - exact (Hm _ _ _ H1).
  - exact (Hm _ _ _ H1).
Qed.

Lemma keeps_files_ret {A} (a : A) : keeps_files (ret a).
Proof. intros s o s' [= <- <-]. reflexivity. Qed.

Lemma keeps_files_throw {A} e : keeps_files (@throw A e).
Proof. intros s o s' [= <- <-]. reflexivity. Qed.

Lemma keeps_files_emit e : keeps_files (emit e).
Proof. intros s o s' [= <- <-]. reflexivity. Qed.

Lemma keeps_files_get_provider : keeps_files get_provider.
Proof. intros s o s' [= <- <-]. reflexivity. Qed.

Lemma keeps_files_ensureProvider w cfg : keeps_files (ensureProvider w cfg).
Proof.
  intros s o s' Hrun.
  destruct (ensureProvider_cases w cfg s) as (o' & s1 & Hrun' & [Hf _] & _).
  rewrite Hrun in Hrun'. injection Hrun' as -> ->. exact Hf.
Qed.

Lemma keeps_files_call {A} (q : nat -> option A) : keeps_files (call q).
Proof.
  intros s o s'. unfold call, ask, bind, tick, ret, throw.
  destruct (q (clock s)); intros [= <- <-]; reflexivity.
Qed.

Lemma keeps_files_fetchLogs w cfg {L} t
    (q : nat -> string -> Z -> Z -> option (list L)) from to :
  keeps_files (fetchLogs w cfg t q from to).
Proof.
  intros s o s'. unfold fetchLogs, try_catch.
  match goal with |- context [?m s] => destruct (m s) as [[r | e |] s1] eqn:Hm;
    assert (keeps_files m) as Hk end.
  all: try (apply keeps_files_bind; [apply keeps_files_ensureProvider | intros _];
            apply keeps_files_bind; [apply keeps_files_emit | intros _];
            apply keeps_files_bind; [apply keeps_files_get_provider | intros u];
            apply keeps_files_bind; [apply keeps_files_call | intros logs];
            apply keeps_files_ret).
  all: intros [= <- <-]; exact (Hk _ _ _ Hm).
Qed.

Lemma keeps_files_getLogsSafe_loop w cfg {L} t
    (q : nat -> string -> Z -> Z -> option (list L)) fuel :
  forall stack out, keeps_files (getLogsSafe_loop w cfg fuel t q stack out).
Proof.
  induction fuel as [| fuel IH]; intros stack out.
  - destruct stack as [| [from to a] stack]; simpl;
      [apply keeps_files_ret | intros s o s' [= <- <-]; reflexivity].
  - destruct stack as [| [from to a] stack]; simpl; [apply keeps_files_ret |].
    apply keeps_files_bind; [apply keeps_files_fetchLogs |].
    intros [e | logs]; [| apply IH].
    destruct (from <? to); [apply IH |].
    destruct (a <? 2); [| apply keeps_files_throw].
    apply keeps_files_bind; [apply keeps_files_emit | intros _; apply IH].
Qed.

Lemma keeps_files_processMakes w ob st logs :
  keeps_files (processMakes w ob st logs).
Proof.
  intros s o s' Hrun.
  destruct (processMakes_keeps w ob logs st s) as (st' & s1 & Hrun' & Hf & _).
  rewrite Hrun in Hrun'. injection Hrun' as -> ->. exact Hf.
Qed.

Lemma keeps_files_scanRange w cfg st fromBlock toBlock :
  keeps_files (scanRange w cfg st fromBlock toBlock).
Proof.
  unfold scanRange.
  apply keeps_files_bind; [apply keeps_files_emit | intros _].
  apply keeps_files_bind; [apply keeps_files_ensureProvider | intros _].
  apply keeps_files_bind; [apply keeps_files_get_provider | intros ob].
  apply keeps_files_bind; [apply keeps_files_getLogsSafe_loop | intros makeLogs].
  apply keeps_files_bind; [apply keeps_files_getLogsSafe_loop | intros cancelLogs].
  apply keeps_files_bind; [apply keeps_files_getLogsSafe_loop | intros matchLogs].
  apply keeps_files_bind; [apply keeps_files_processMakes | intros st'].
  apply keeps_files_ret.
Qed.

(** The three loops keep the chain id, the address and the last scanned
    block of the index. *)
Lemma processMake_header w ob st log s st' s' :
  processMake w ob st log s = (Return st', s') ->
  chainId st' = chainId st /\ orderbook st' = orderbook st
  /\ lastScannedBlock st' = lastScannedBlock st.
Proof.
  unfold processMake. destruct (mk_orderKey log); [| intros [= <- _]; auto].
  rewrite bind_ask. destruct (rpc_orders _ _ _ _); [| intros [= <- _]; auto].
  match goal with |- context [if ?b then _ else _] => destruct b end;
    intros [= <- _]; auto.
Qed.

Lemma processMakes_header w ob logs : forall st s st' s',
  processMakes w ob st logs s = (Return st', s') ->
  chainId st' = chainId st /\ orderbook st' = orderbook st
  /\ lastScannedBlock st' = lastScannedBlock st.
Proof.
  induction logs as [| log logs IH]; intros st s st' s'; simpl.
  - intros [= <- _]. auto.
  - intros Hrun. apply bind_return in Hrun as (st1 & s1 & H1 & H2).
    apply processMake_header in H1 as (Ha & Hb & Hc).
    apply IH in H2 as (Ha' & Hb' & Hc'). repeat split; congruence.
Qed.

Lemma processCancel_header st log :
  chainId (processCancel st log) = chainId st
  /\ orderbook (processCancel st log) = orderbook st
  /\ lastScannedBlock (processCancel st log) = lastScannedBlock st.
Proof.
  unfold processCancel. destruct (cn_orderKey log); [| auto].
  destruct (ordersByKey st !! _); auto.
Qed.

Lemma processMatch_header st log :
  chainId (processMatch st log) = chainId st
  /\ orderbook (processMatch st log) = orderbook st
  /\ lastScannedBlock (processMatch st log) = lastScannedBlock st.
Proof.
  unfold processMatch. destruct (mt_args log); [| auto]. cbv zeta.
  destruct (sellKey_of _); [| auto]. destruct (String.eqb _ _); [auto |].
  destruct (ordersByKey st !! _); auto.
Qed.

Lemma fold_header {L} (f : IndexState -> L -> IndexState) :
  (forall st log, chainId (f st log) = chainId st
                  /\ orderbook (f st log) = orderbook st
                  /\ lastScannedBlock (f st log) = lastScannedBlock st) ->
  forall logs st,
    chainId (fold_left f logs st) = chainId st
    /\ orderbook (fold_left f logs st) = orderbook st
    /\ lastScannedBlock (fold_left f logs st) = lastScannedBlock st.
Proof.
  intros Hf. induction logs as [| log logs IH]; intros st; simpl; [auto |].
  destruct (IH (f st log)) as (Ha & Hb & Hc).
  destruct (Hf st log) as (Ha' & Hb' & Hc'). repeat split; congruence.
Qed.

(** The three loops keep an index of sell orders stored under their keys. *)
Lemma processMake_sell_orders w ob st log s st' s' :
  sell_orders_only st ->
  processMake w ob st log s = (Return st', s') -> sell_orders_only st'.
Proof.
  intros Hinv. unfold processMake.
  destruct (mk_orderKey log) as [key |]; [| intros [= <- _]; exact Hinv].
  rewrite bind_ask.
  destruct (rpc_orders _ _ _ _) as [full |]; [| intros [= <- _]; exact Hinv].
  unfold isSellOrder. cbn [side saleKind].
  destruct ((side full =? 0) && (saleKind full =? 1)) eqn:Hsell; cbn [negb];
    [| intros [= <- _]; exact Hinv].
  intros [= <- _]. intros k e. cbn [with_orders ordersByKey].
  destruct (decide (key = k)) as [-> | Hne].
  - rewrite obj_lookup_insert_eq. intros [= <-]. cbn. zbool. tauto.
  - rewrite obj_lookup_insert_ne by exact Hne. apply Hinv.
Qed.

Lemma processMakes_sell_orders w ob logs : forall st s st' s',
  sell_orders_only st ->
  processMakes w ob st logs s = (Return st', s') -> sell_orders_only st'.
Proof.
  induction logs as [| log logs IH]; intros st s st' s' Hinv; simpl.
  - intros [= <- _]. exact Hinv.
  - intros Hrun. apply bind_return in Hrun as (st1 & s1 & H1 & H2).
    eapply IH; [| exact H2]. eapply processMake_sell_orders; eassumption.
Qed.

Lemma set_status_sell_orders st key e status0 b :
  sell_orders_only st -> ordersByKey st !! key = Some e ->
  sell_orders_only (set_status st key e status0 b).
Proof.
  intros Hinv He k e'. cbn [set_status with_orders ordersByKey].
  destruct (decide (key = k)) as [-> | Hne].
  - rewrite obj_lookup_insert_eq. intros [= <-]. cbn. exact (Hinv k e He).
  - rewrite obj_lookup_insert_ne by exact Hne. apply Hinv.
Qed.

Lemma processCancel_sell_orders st log :
  sell_orders_only st -> sell_orders_only (processCancel st log).
Proof.
  intros Hinv. unfold processCancel. destruct (cn_orderKey log); [| exact Hinv].
  destruct (ordersByKey st !! _) eqn:He; [| exact Hinv].
  apply set_status_sell_orders; assumption.
Qed.

Lemma processMatch_sell_orders st log :
  sell_orders_only st -> sell_orders_only (processMatch st log).
Proof.
  intros Hinv. unfold processMatch. destruct (mt_args log); [| exact Hinv].
  cbv zeta. destruct (sellKey_of _); [| exact Hinv].
  destruct (String.eqb _ _); [exact Hinv |].
  destruct (ordersByKey st !! _) eqn:He; [| exact Hinv].
  apply set_status_sell_orders; assumption.
Qed.

Lemma fold_sell_orders {L} (f : IndexState -> L -> IndexState) :
  (forall st log, sell_orders_only st -> sell_orders_only (f st log)) ->
  forall logs st, sell_orders_only st -> sell_orders_only (fold_left f logs st).
Proof.
  intros Hf. induction logs as [| log logs IH]; intros st Hinv; simpl;
    [exact Hinv | apply IH, Hf, Hinv].
Qed.

End ScanInvariants.

(** X2. scanRange keeps an index of sell orders stored under their own
    keys: when every entry of the index is stored under the key it carries
    and holds a sell-side order, so is every entry of the index that
    scanRange returns. An index that starts empty never holds anything
    else. *)
Theorem scanRange_sell_orders_only w cfg st fromBlock toBlock s st' s' :
  sell_orders_only st ->
  Indexer.scanRange w cfg st fromBlock toBlock s = (Return st', s') ->
  sell_orders_only st'.
Proof.
  intros Hinv Hrun.
  destruct (scanRange_loops _ _ _ _ _ _ _ _ Hrun)
    as (ob & mk & cn & mt & s1 & st1 & Hmk & ->).
  apply (fold_sell_orders _ processMatch_sell_orders).
  apply (fold_sell_orders _ processCancel_sell_orders).
  eapply processMakes_sell_orders; eassumption.
Qed.

Lemma scanRange_sell_orders_only_witness :
  sell_orders_only
    (Examples.index_after
       (Indexer.scanRange (Examples.make_at 12) (Examples.indexer_cfg 1 None)
          (Examples.index_of 10 ∅) 11 20 (Examples.boot ∅))
       (Examples.index_of 10 ∅)).
Proof.
  refine (scanRange_sell_orders_only (Examples.make_at 12)
            (Examples.indexer_cfg 1 None) (Examples.index_of 10 ∅) 11 20
            (Examples.boot ∅) _
            (snd (Indexer.scanRange (Examples.make_at 12)
                    (Examples.indexer_cfg 1 None) (Examples.index_of 10 ∅)
                    11 20 (Examples.boot ∅))) _ _).
  - intros k e H. vm_compute in H. discriminate H.
  - vm_compute. reflexivity.
Defined.

(** X3. scanRange works on the index in memory only. It leaves the files
    on disk as they are, whether it returns or throws; and the index it
    returns has the chain id, the order-book address and the last scanned
    block of the index it was given, and every entry that was there, with
    the first block it had. *)
Theorem scanRange_frame w cfg st fromBlock toBlock s o s' :
  Indexer.scanRange w cfg st fromBlock toBlock s = (o, s') ->
  files s' = files s
  /\ (forall st', o = Return st' ->
        chainId st' = chainId st /\ orderbook st' = orderbook st
        /\ lastScannedBlock st' = lastScannedBlock st
        /\ forall k e, ordersByKey st !! k = Some e ->
             exists e', ordersByKey st' !! k = Some e'
                        /\ firstSeenBlock e' = firstSeenBlock e).
Proof.
  intros Hrun. split; [exact (keeps_files_scanRange _ _ _ _ _ _ _ _ Hrun) |].
  intros st' ->.
  destruct (scanRange_loops _ _ _ _ _ _ _ _ Hrun)
    as (ob & mk & cn & mt & s1 & st1 & Hmk & ->).
  destruct (processMakes_header _ _ _ _ _ _ _ Hmk) as (Ha & Hb & Hc).
  destruct (fold_header _ processCancel_header cn st1) as (Ha1 & Hb1 & Hc1).
  destruct (fold_header _ processMatch_header mt
              (fold_left Indexer.processCancel cn st1)) as (Ha2 & Hb2 & Hc2).
  repeat split; try congruence.
  intros k e He.
  destruct (processMakes_keeps w ob mk st s1) as (st1' & s1' & Hmk' & _ & _ & Hk).
  rewrite Hmk in Hmk'. injection Hmk' as <- <-.
  destruct (Hk k e He) as (e1 & H1 & Hf1 & _).
  destruct (cancels_entry cn st1 k e1 H1) as (e2 & H2 & Hf2 & _).
  destruct (matches_entry mt _ k e2 H2) as (e3 & H3 & Hf3 & _).
  exists e3. split; [exact H3 | congruence].
Qed.

Lemma scanRange_frame_witness :
  files (snd (Indexer.scanRange (Examples.cancel_at 12)
                (Examples.indexer_cfg 1 None) (Examples.one_order open)
                11 20 (Examples.boot ∅)))
  = files (Examples.boot ∅).
Proof.
  refine (proj1 (scanRange_frame (Examples.cancel_at 12)
                   (Examples.indexer_cfg 1 None) (Examples.one_order open)
                   11 20 (Examples.boot ∅)
                   (fst (Indexer.scanRange (Examples.cancel_at 12)
                           (Examples.indexer_cfg 1 None)
                           (Examples.one_order open) 11 20 (Examples.boot ∅)))
                   _ _)).
  apply surjective_pairing.
Defined.

(** ** Events, one by one and together *)

Section Events.
Import Indexer.

Lemma fromPersisted_toPersisted_lower full :
  fromPersistedOrder
    (toPersistedOrder
       {| side := side full;
          saleKind := saleKind full;
          maker := normAddr (maker full);
          nft := {| tokenId := tokenId (nft full);
                    collectionAddr := normAddr (collectionAddr (nft full));
                    amount := amount (nft full) |};
          price := price full;
          currency := normAddr (currency full);
          expiry := expiry full;
          salt := salt full |})
  = lower_addresses full.
Proof.
  unfold fromPersistedOrder, toPersistedOrder, lower_addresses.
  cbn [side saleKind maker nft tokenId collectionAddr amount price currency
         expiry salt p_side p_saleKind p_maker p_nft p_price p_currency
         p_expiry p_salt].
  unfold normAddr. rewrite !toLowerCase_idem. reflexivity.
Qed.

(** A Make event touches no other key than its own. *)
Lemma processMake_other_keys w ob st log s st' s' k' :
  processMake w ob st log s = (Return st', s') ->
  mk_orderKey log <> Some k' ->
  ordersByKey st' !! k' = ordersByKey st !! k'.
Proof.
  unfold processMake. destruct (mk_orderKey log) as [key |];
    [| intros [= <- _] _; reflexivity].
  rewrite bind_ask.
  destruct (rpc_orders _ _ _ _); [| intros [= <- _] _; reflexivity].
  match goal with |- context [if ?b then _ else _] => destruct b end;
    intros [= <- _] Hne; [reflexivity |].
  cbn [with_orders ordersByKey]. apply obj_lookup_insert_ne. congruence.
Qed.

Lemma cancels_unknown logs : forall st,
  Forall (fun log => forall k, cn_orderKey log = Some k ->
                       ordersByKey st !! k = None) logs ->
  fold_left processCancel logs st = st.
Proof.
  induction logs as [| log logs IH]; intros st Hall; simpl; [reflexivity |].
  apply Forall_cons_iff in Hall as [Hlog Hall].
  assert (processCancel st log = st) as ->.
  { unfold processCancel. destruct (cn_orderKey log) as [k |]; [| reflexivity].
    rewrite (Hlog k eq_refl). reflexivity. }
  apply IH, Hall.
Qed.

Lemma matches_unknown logs : forall st,
  Forall (fun log => forall a k, mt_args log = Some a ->
                       sellKey_of a = Some k ->
                       ordersByKey st !! k = None) logs ->
  fold_left processMatch logs st = st.
Proof.
  induction logs as [| log logs IH]; intros st Hall; simpl; [reflexivity |].
  apply Forall_cons_iff in Hall as [Hlog Hall].
  assert (processMatch st log = st) as ->.
  { unfold processMatch. destruct (mt_args log) as [a |]; [| reflexivity].
    cbv zeta. destruct (sellKey_of a) as [k |] eqn:Hk; [| reflexivity].
    rewrite (Hlog a k eq_refl Hk). destruct (String.eqb k EmptyString); reflexivity. }
  apply IH, Hall.
Qed.

(** The runs that make up a scanRange that returns. *)
Lemma scanRange_runs w cfg st fromBlock toBlock s st' s' :
  scanRange w cfg st fromBlock toBlock s = (Return st', s') ->
  exists ob makeLogs cancelLogs matchLogs s1 s2 s3 s4 st1,
    getLogsSafe w cfg LogMake (rpc_makeLogs w) fromBlock toBlock s1
      = (Return makeLogs, s2)
    /\ getLogsSafe w cfg LogCancel (rpc_cancelLogs w) fromBlock toBlock s2
       = (Return cancelLogs, s3)
    /\ getLogsSafe w cfg LogMatch (rpc_matchLogs w) fromBlock toBlock s3
       = (Return matchLogs, s4)
    /\ processMakes w ob st makeLogs s4 = (Return st1, s')
    /\ st' = fold_left processMatch matchLogs
               (fold_left processCancel cancelLogs st1).
Proof.
  unfold scanRange. intros H.
  apply bind_return in H as (_ & s0 & _ & H).
  apply bind_return in H as (_ & s0' & _ & H).
  apply bind_return in H as (ob & s1 & _ & H).
  apply bind_return in H as (makeLogs & s2 & Hmk & H).
  apply bind_return in H as (cancelLogs & s3 & Hcn & H).
  apply bind_return in H as (matchLogs & s4 & Hmt & H).
  apply bind_return in H as (st1 & s5 & Hmakes & H).
  injection H as <- <-.
  exists ob, makeLogs, cancelLogs, matchLogs, s1, s2, s3, s4, st1. auto.
Qed.

End Events.

(** X4. A Make event for a key that is not in the index, when the chain
    returns the order: a sell-side order is indexed under that key, open,
    first seen and last updated at the block of the event, and is read back
    as the chain's order with its addresses in lower case; an order of
    another side or kind is not indexed at all. No other key is touched. *)
Theorem make_indexes_sell_orders w ob st log s k full :
  mk_orderKey log = Some k ->
  rpc_orders w (clock s) ob k = Some full ->
  ordersByKey st !! k = None ->
  exists st',
    Indexer.processMake w ob st log s = (Return st', tock s)
    /\ (forall k', k' <> k -> ordersByKey st' !! k' = ordersByKey st !! k')
    /\ (side full = 0 /\ saleKind full = 1 ->
        exists e, ordersByKey st' !! k = Some e
                  /\ orderKey e = k
                  /\ Indexer.entry_of k e
                     = fresh_entry k full (mk_blockNumber log))
    /\ (~ (side full = 0 /\ saleKind full = 1) -> st' = st).
Proof.
  intros Hlog Horders Hnew. unfold Indexer.processMake.
  rewrite Hlog, bind_ask, Horders. unfold Indexer.isSellOrder.
  cbn [side saleKind].
  destruct ((side full =? 0) && (saleKind full =? 1)) eqn:Hsell; cbn [negb].
  - eexists. split; [reflexivity |]. split; [| split].
    + intros k' Hne. cbn [Indexer.with_orders ordersByKey].
      apply obj_lookup_insert_ne. congruence.
    + intros _. eexists. cbn [Indexer.with_orders ordersByKey].
      rewrite obj_lookup_insert_eq. split; [reflexivity |].
      split; [reflexivity |]. rewrite Hnew.
      unfold Indexer.entry_of, fresh_entry. cbn [order status firstSeenBlock
                                                   lastUpdateBlock].
      rewrite fromPersisted_toPersisted_lower. reflexivity.
    + intros Hnot. exfalso. apply Hnot. zbool. tauto.
  - exists st. split; [reflexivity |]. split; [reflexivity |].
    split; [| reflexivity]. intros [H1 H2]. zbool. lia.
Qed.

Lemma make_indexes_sell_orders_witness :
  exists st',
    Indexer.processMake (Examples.make_at 12) Examples.endpoint
      (Examples.index_of 10 ∅) Scenarios.make12 (Examples.boot ∅)
    = (Return st', tock (Examples.boot ∅))
    /\ exists e, ordersByKey st' !! Examples.key1 = Some e
                 /\ Indexer.entry_of Examples.key1 e
                    = fresh_entry Examples.key1
                        (Examples.sell_order Examples.usdol 100 0) 12.
Proof.
  assert (ordersByKey (Examples.index_of 10 ∅) !! Examples.key1 = None)
    as Hnew by (vm_compute; reflexivity).
  destruct (make_indexes_sell_orders (Examples.make_at 12) Examples.endpoint
              (Examples.index_of 10 ∅) Scenarios.make12 (Examples.boot ∅)
              Examples.key1 (Examples.sell_order Examples.usdol 100 0)
              eq_refl eq_refl Hnew)
    as (st' & Hrun & _ & Hsell & _).
  exists st'. split; [exact Hrun |].
  destruct (Hsell (conj eq_refl eq_refl)) as (e & He & _ & Hentry).
  exists e. split; [exact He | exact Hentry].
Defined.

(** X6. When the endpoints serve the logs of a chain, a scanRange that
    returns has applied to the index the Make events of the range in order,
    then its Cancel events in order, then its Match events in order:
    exactly the events of the range, whatever splits and retries the
    fetches went through. *)
Theorem scanRange_applies_range w cfg st fromBlock toBlock s st' s'
    (makes : Z -> Z -> list MakeLog) (cancels : Z -> Z -> list CancelLog)
    (matches : Z -> Z -> list MatchLog) :
  serves (rpc_makeLogs w) makes ->
  serves (rpc_cancelLogs w) cancels ->
  serves (rpc_matchLogs w) matches ->
  Indexer.scanRange w cfg st fromBlock toBlock s = (Return st', s') ->
  exists ob s1 st1,
    Indexer.processMakes w ob st (makes fromBlock toBlock) s1 = (Return st1, s')
    /\ st' = fold_left Indexer.processMatch (matches fromBlock toBlock)
               (fold_left Indexer.processCancel (cancels fromBlock toBlock) st1).
Proof.
  intros [Hmk1 Hmk2] [Hcn1 Hcn2] [Hmt1 Hmt2] Hrun.
  destruct (scanRange_runs _ _ _ _ _ _ _ _ Hrun)
    as (ob & mk & cn & mt & s1 & s2 & s3 & s4 & st1 & Hm & Hc & Ht & Hmakes & ->).
  apply (getLogsSafe_loop_logs w cfg LogMake _ makes Hmk1 Hmk2) in Hm.
  apply (getLogsSafe_loop_logs w cfg LogCancel _ cancels Hcn1 Hcn2) in Hc.
  apply (getLogsSafe_loop_logs w cfg LogMatch _ matches Hmt1 Hmt2) in Ht.
  simpl in Hm, Hc, Ht. rewrite app_nil_r in Hm, Hc, Ht. subst mk cn mt.
  exists ob, s4, st1. auto.
Qed.

(** X7. When the endpoints serve the logs of a chain, a scanRange over a
    range that holds no Make event, and whose Cancel events and Match
    events are about keys that are not in the index (those of buy orders,
    or of orders made before the first block scanned), returns the index as
    it was. *)
Theorem scanRange_ignores_unknown_keys w cfg st fromBlock toBlock s st' s'
    (makes : Z -> Z -> list MakeLog) (cancels : Z -> Z -> list CancelLog)
    (matches : Z -> Z -> list MatchLog) :
  serves (rpc_makeLogs w) makes ->
  serves (rpc_cancelLogs w) cancels ->
  serves (rpc_matchLogs w) matches ->
  makes fromBlock toBlock = [] ->
  Forall (fun log => forall k, cn_orderKey log = Some k ->
                       ordersByKey st !! k = None)
         (cancels fromBlock toBlock) ->
  Forall (fun log => forall a k, mt_args log = Some a ->
                       Indexer.sellKey_of a = Some k ->
                       ordersByKey st !! k = None)
         (matches fromBlock toBlock) ->
  Indexer.scanRange w cfg st fromBlock toBlock s = (Return st', s') ->
  st' = st.
Proof.
  intros [Hmk1 Hmk2] [Hcn1 Hcn2] [Hmt1 Hmt2] Hnone Hcancels Hmatches Hrun.
  destruct (scanRange_runs _ _ _ _ _ _ _ _ Hrun)
    as (ob & mk & cn & mt & s1 & s2 & s3 & s4 & st1 & Hm & Hc & Ht & Hmakes & ->).
  apply (getLogsSafe_loop_logs w cfg LogMake _ makes Hmk1 Hmk2) in Hm.
  apply (getLogsSafe_loop_logs w cfg LogCancel _ cancels Hcn1 Hcn2) in Hc.
  apply (getLogsSafe_loop_logs w cfg LogMatch _ matches Hmt1 Hmt2) in Ht.
  simpl in Hm, Hc, Ht. rewrite app_nil_r in Hm, Hc, Ht. subst mk cn mt.
  rewrite Hnone in Hmakes. simpl in Hmakes. injection Hmakes as <- _.
  rewrite (cancels_unknown _ _ Hcancels). apply matches_unknown, Hmatches.
Qed.

Lemma serves_at_block {L} b (log : L) :
  serves (fun _ _ from to => Some (Examples.at_block b log from to))
         (Examples.at_block b log).
Proof.
  split; [intros n u a c l [= <-]; reflexivity |].
  intros a m c. apply at_block_parts.
Qed.

Lemma serves_nothing {L} :
  serves (fun _ _ _ _ => Some (@nil L)) (fun _ _ => []).
Proof. split; [intros n u a c l [= <-]; reflexivity | reflexivity]. Qed.

Section EventKinds.
Import Indexer.

Lemma marked_cons s b blocks e :
  marked s (b :: blocks) e
  = marked s blocks {| orderKey := orderKey e; order := order e; status := s;
                       firstSeenBlock := firstSeenBlock e;
                       lastUpdateBlock := b |}.
Proof.
  unfold marked. rewrite last_cons. destruct (last blocks); reflexivity.
Qed.

(** What a Cancel event does to the entry of a key. *)
Lemma processCancel_key k st log :
  ordersByKey (processCancel st log) !! k
  = (if decide (cn_orderKey log = Some k)
     then marked cancelled [cn_blockNumber log] else id)
    <$> ordersByKey st !! k.
Proof.
  unfold processCancel.
  destruct (cn_orderKey log) as [k' |] eqn:Hk.
  - destruct (decide (Some k' = Some k)) as [[= ->] | Hne].
    + destruct (ordersByKey st !! k) as [e |] eqn:He.
      * cbn [set_status with_orders ordersByKey].
        rewrite obj_lookup_insert_eq. reflexivity.
      * rewrite He. reflexivity.
    + assert (ordersByKey st !! k = id <$> ordersByKey st !! k) as Hid
        by (destruct (ordersByKey st !! k); reflexivity).
      destruct (ordersByKey st !! k') as [e |]; [| exact Hid].
      cbn [set_status with_orders ordersByKey].
      rewrite obj_lookup_insert_ne by congruence. exact Hid.
  - destruct (decide (None = Some k)) as [H | _]; [discriminate |].
    destruct (ordersByKey st !! k); reflexivity.
Qed.

Lemma cancels_on_key k logs : forall st,
  ordersByKey (fold_left processCancel logs st) !! k
  = marked cancelled (cancel_blocks k logs) <$> ordersByKey st !! k.
Proof.
  induction logs as [| log logs IH]; intros st; simpl.
  - destruct (ordersByKey st !! k); reflexivity.
  - rewrite IH, processCancel_key. unfold cancel_blocks.
    rewrite filter_cons.
    destruct (decide (cn_orderKey log = Some k)).
    + destruct (ordersByKey st !! k) as [e0 |]; [| reflexivity].
      cbn [fmap option_fmap option_map list_fmap].
      rewrite !marked_cons. reflexivity.
    + destruct (ordersByKey st !! k); reflexivity.
Qed.

(** The test of the Match loop finds the key that the event sells. *)
Lemma sells_sellKey k log :
  sells k log
  <-> exists a, mt_args log = Some a /\ sellKey_of a = Some k
                /\ String.eqb k EmptyString = false.
Proof.
  unfold sells, sellKey_of. destruct (mt_args log) as [a |].
  - split.
    + intros (Hne & Hside). apply String.eqb_neq in Hne.
      destruct Hside as [[H0 <-] | (H0 & H1 & <-)]; exists a.
      * assert ((makeSide a =? 0) = true) as -> by (zbool; lia). auto.
      * assert ((makeSide a =? 0) = false) as -> by (zbool; lia).
        assert ((takeSide a =? 0) = true) as -> by (zbool; lia). auto.
    + intros (a' & [= <-] & Hk & Hne). apply String.eqb_neq in Hne.
      split; [exact Hne |].
      destruct (makeSide a =? 0) eqn:H0.
      * left. injection Hk as <-. zbool. auto.
      * destruct (takeSide a =? 0) eqn:H1; [| discriminate].
        right. injection Hk as <-. zbool. auto.
  - split; [intros [] | intros (a & [=] & _)].
Qed.

(** What a Match event does to the entry of a key. *)
Lemma processMatch_key k st log :
  ordersByKey (processMatch st log) !! k
  = (if decide (sells k log)
     then marked filled [mt_blockNumber log] else id)
    <$> ordersByKey st !! k.
Proof.
  assert (ordersByKey st !! k = id <$> ordersByKey st !! k) as Hid
    by (destruct (ordersByKey st !! k); reflexivity).
  destruct (decide (sells k log)) as [Hs | Hs].
  - apply sells_sellKey in Hs as (a & Ha & Hk & Hne).
    unfold processMatch. rewrite Ha. cbv zeta. rewrite Hk, Hne.
    destruct (ordersByKey st !! k) as [e |] eqn:He; [| rewrite He; reflexivity].
    cbn [set_status with_orders ordersByKey].
    rewrite obj_lookup_insert_eq. reflexivity.
  - unfold processMatch.
    destruct (mt_args log) as [a |] eqn:Ha; [| exact Hid].
    cbv zeta. destruct (sellKey_of a) as [k' |] eqn:Hk; [| exact Hid].
    destruct (String.eqb k' EmptyString) eqn:Hne; [exact Hid |].
    destruct (ordersByKey st !! k') as [e |]; [| exact Hid].
    cbn [set_status with_orders ordersByKey].
    rewrite obj_lookup_insert_ne; [exact Hid |].
    intros ->. apply Hs, sells_sellKey. exists a. auto.
Qed.

Lemma matches_on_key k logs : forall st,
  ordersByKey (fold_left processMatch logs st) !! k
  = marked filled (match_blocks k logs) <$> ordersByKey st !! k.
Proof.
  induction logs as [| log logs IH]; intros st; simpl.
  - destruct (ordersByKey st !! k); reflexivity.
  - rewrite IH, processMatch_key. unfold match_blocks.
    rewrite filter_cons.
    destruct (decide (sells k log)).
    + destruct (ordersByKey st !! k) as [e0 |]; [| reflexivity].
      cbn [fmap option_fmap option_map list_fmap].
      rewrite !marked_cons. reflexivity.
    + destruct (ordersByKey st !! k); reflexivity.
Qed.

(** The Make events of other keys leave the entry of a key alone. *)
Lemma processMakes_other_keys w ob k logs : forall st s st' s',
  processMakes w ob st logs s = (Return st', s') ->
  Forall (fun log => mk_orderKey log <> Some k) logs ->
  ordersByKey st' !! k = ordersByKey st !! k.
Proof.
  induction logs as [| log logs IH]; intros st s st' s' Hrun Hall; simpl in Hrun.
  - injection Hrun as <- _. reflexivity.
  - apply Forall_cons_iff in Hall as [Hlog Hall].
    apply bind_return in Hrun as (st1 & s1 & H1 & Hrun).
    rewrite (IH _ _ _ _ Hrun Hall).
    apply (processMake_other_keys _ _ _ _ _ _ _ _ H1 Hlog).
Qed.

End EventKinds.

(** X5. Where a scan leaves an order. When the endpoints serve the logs of
    a chain, a scanRange that returns has handled the events by kind and
    not by block: the entry of a key is the one that the Make events of the
    range left (the entry of the index given, when the range has no Make
    event for the key), marked [cancelled] at the block of the last Cancel
    event of the range for the key, when there is one, and then marked
    [filled] at the block of the last Match event of the range that has the
    key on its sell side, when there is one; nothing else of the entry
    changes, and no key is added or removed after the Make events. So an
    order of the range that is both matched and cancelled ends [filled],
    with the block of the Match event as its last update, also when the
    Cancel event is the later of the two. *)
Theorem scanRange_ends_by_kind w cfg st fromBlock toBlock s st' s'
    (makes : Z -> Z -> list MakeLog) (cancels : Z -> Z -> list CancelLog)
    (matches : Z -> Z -> list MatchLog) :
  serves (rpc_makeLogs w) makes ->
  serves (rpc_cancelLogs w) cancels ->
  serves (rpc_matchLogs w) matches ->
  Indexer.scanRange w cfg st fromBlock toBlock s = (Return st', s') ->
  exists ob s1 st1,
    Indexer.processMakes w ob st (makes fromBlock toBlock) s1 = (Return st1, s')
    /\ (forall k,
          Forall (fun log => mk_orderKey log <> Some k)
                 (makes fromBlock toBlock) ->
          ordersByKey st1 !! k = ordersByKey st !! k)
    /\ (forall k,
          ordersByKey st' !! k
          = marked filled (match_blocks k (matches fromBlock toBlock))
              <$> (marked cancelled (cancel_blocks k (cancels fromBlock toBlock))
                     <$> ordersByKey st1 !! k))
    /\ (forall k e1, ordersByKey st1 !! k = Some e1 ->
          match_blocks k (matches fromBlock toBlock) <> [] ->
          exists e' b,
            ordersByKey st' !! k = Some e'
            /\ last (match_blocks k (matches fromBlock toBlock)) = Some b
            /\ status e' = filled /\ lastUpdateBlock e' = b
            /\ firstSeenBlock e' = firstSeenBlock e1
            /\ order e' = order e1).
Proof.
  intros [Hmk1 Hmk2] [Hcn1 Hcn2] [Hmt1 Hmt2] Hrun.
  destruct (scanRange_runs _ _ _ _ _ _ _ _ Hrun)
    as (ob & mk & cn & mt & s1 & s2 & s3 & s4 & st1 & Hm & Hc & Ht & Hmakes & ->).
  apply (getLogsSafe_loop_logs w cfg LogMake _ makes Hmk1 Hmk2) in Hm.
  apply (getLogsSafe_loop_logs w cfg LogCancel _ cancels Hcn1 Hcn2) in Hc.
  apply (getLogsSafe_loop_logs w cfg LogMatch _ matches Hmt1 Hmt2) in Ht.
  simpl in Hm, Hc, Ht. rewrite app_nil_r in Hm, Hc, Ht. subst mk cn mt.
  exists ob, s4, st1. split; [exact Hmakes |]. split; [| split].
  - intros k Hall. apply (processMakes_other_keys _ _ _ _ _ _ _ _ Hmakes Hall).
  - intros k. rewrite matches_on_key, cancels_on_key. reflexivity.
  - intros k e1 He1 Hsome.
    rewrite matches_on_key, cancels_on_key, He1.
    destruct (last (match_blocks k (matches fromBlock toBlock))) as [b |] eqn:Hb;
      [| apply last_None in Hb; contradiction].
    eexists _, b. cbn [fmap option_fmap option_map].
    split; [reflexivity |]. split; [reflexivity |].
    unfold marked. rewrite Hb.
    destruct (last (cancel_blocks k (cancels fromBlock toBlock)));
      cbn [status lastUpdateBlock firstSeenBlock order]; auto.
Qed.

Lemma scanRange_ends_by_kind_witness :
  status <$> ordersByKey
    (Examples.index_after
       (Indexer.scanRange Scenarios.made_matched_cancelled
          (Examples.indexer_cfg 1 None) (Examples.index_of 10 ∅) 11 20
          (Examples.boot ∅))
       (Examples.index_of 10 ∅)) !! Examples.key1
  = Some filled
  /\ lastUpdateBlock <$> ordersByKey
       (Examples.index_after
          (Indexer.scanRange Scenarios.made_matched_cancelled
             (Examples.indexer_cfg 1 None) (Examples.index_of 10 ∅) 11 20
             (Examples.boot ∅))
          (Examples.index_of 10 ∅)) !! Examples.key1
     = Some 13.
Proof.
  assert (Indexer.scanRange Scenarios.made_matched_cancelled
            (Examples.indexer_cfg 1 None) (Examples.index_of 10 ∅) 11 20
            (Examples.boot ∅)
          = (Return
               (Examples.index_after
                  (Indexer.scanRange Scenarios.made_matched_cancelled
                     (Examples.indexer_cfg 1 None) (Examples.index_of 10 ∅)
                     11 20 (Examples.boot ∅))
                  (Examples.index_of 10 ∅)),
             snd (Indexer.scanRange Scenarios.made_matched_cancelled
                    (Examples.indexer_cfg 1 None) (Examples.index_of 10 ∅)
                    11 20 (Examples.boot ∅))))
    as Hrun by (vm_compute; reflexivity).
  destruct (scanRange_ends_by_kind Scenarios.made_matched_cancelled _ _ _ _ _ _ _
              (Examples.at_block 12 Scenarios.make12)
              (Examples.at_block 15
                 {| cn_blockNumber := 15; cn_orderKey := Some Examples.key1 |})
              (Examples.at_block 13
                 {| mt_blockNumber := 13;
                    mt_args := Some {| makeOrderKey := Examples.key1;
                                       takeOrderKey := "0x02";
                                       makeSide := 0; takeSide := 1 |} |})
              (serves_at_block 12 _) (serves_at_block 15 _)
              (serves_at_block 13 _) Hrun)
    as (ob & s1 & st1 & _ & _ & Hend & _).
  rewrite (Hend Examples.key1).
  specialize (Hend Examples.key1).
  destruct (ordersByKey st1 !! Examples.key1) as [e1 |].
  - split; reflexivity.
  - exfalso. vm_compute in Hend. discriminate Hend.
Defined.

Lemma scanRange_applies_range_witness :
  exists ob s1 st1,
    Indexer.processMakes (Examples.make_at 12) ob (Examples.index_of 10 ∅)
      [Scenarios.make12] s1
    = (Return st1,
       snd (Indexer.scanRange (Examples.make_at 12)
              (Examples.indexer_cfg 1 None) (Examples.index_of 10 ∅) 11 20
              (Examples.boot ∅)))
    /\ Examples.index_after
         (Indexer.scanRange (Examples.make_at 12) (Examples.indexer_cfg 1 None)
            (Examples.index_of 10 ∅) 11 20 (Examples.boot ∅))
         (Examples.index_of 10 ∅)
       = st1.
Proof.
  assert (Indexer.scanRange (Examples.make_at 12) (Examples.indexer_cfg 1 None)
            (Examples.index_of 10 ∅) 11 20 (Examples.boot ∅)
          = (Return
               (Examples.index_after
                  (Indexer.scanRange (Examples.make_at 12)
                     (Examples.indexer_cfg 1 None) (Examples.index_of 10 ∅)
                     11 20 (Examples.boot ∅))
                  (Examples.index_of 10 ∅)),
             snd (Indexer.scanRange (Examples.make_at 12)
                    (Examples.indexer_cfg 1 None) (Examples.index_of 10 ∅)
                    11 20 (Examples.boot ∅))))
    as Hrun by (vm_compute; reflexivity).
  destruct (scanRange_applies_range (Examples.make_at 12) _ _ _ _ _ _ _
              (Examples.at_block 12 Scenarios.make12)
              (fun _ _ => []) (fun _ _ => [])
              (serves_at_block 12 Scenarios.make12)
              serves_nothing serves_nothing Hrun)
    as (ob & s1 & st1 & Hmakes & Hst).
  exists ob, s1, st1. split; [exact Hmakes | exact Hst].
Defined.

Lemma scanRange_ignores_unknown_keys_witness :
  Examples.index_after
    (Indexer.scanRange (Examples.cancel_at 12) (Examples.indexer_cfg 1 None)
       (Examples.index_of 10 ∅) 11 20 (Examples.boot ∅))
    (Examples.one_order open)
  = Examples.index_of 10 ∅.
Proof.
  assert (Indexer.scanRange (Examples.cancel_at 12) (Examples.indexer_cfg 1 None)
            (Examples.index_of 10 ∅) 11 20 (Examples.boot ∅)
          = (Return
               (Examples.index_after
                  (Indexer.scanRange (Examples.cancel_at 12)
                     (Examples.indexer_cfg 1 None) (Examples.index_of 10 ∅)
                     11 20 (Examples.boot ∅))
                  (Examples.one_order open)),
             snd (Indexer.scanRange (Examples.cancel_at 12)
                    (Examples.indexer_cfg 1 None) (Examples.index_of 10 ∅)
                    11 20 (Examples.boot ∅))))
    as Hrun by (vm_compute; reflexivity).
  refine (scanRange_ignores_unknown_keys (Examples.cancel_at 12) _ _ _ _ _ _ _
            (fun _ _ => [])
            (Examples.at_block 12
               {| cn_blockNumber := 12; cn_orderKey := Some Examples.key1 |})
            (fun _ _ => [])
            serves_nothing (serves_at_block 12 _) serves_nothing
            eq_refl _ _ Hrun).
  - repeat constructor.
  - constructor.
Defined.

(** ** The chunks of sync *)

Section Chunks.
Import Indexer.

Lemma scanned_app l1 l2 : scanned (l1 ++ l2) = scanned l1 ++ scanned l2.
Proof. unfold scanned. apply omap_app. Qed.

Lemma scanned_none l :
  Forall (fun e => ~ is_scan_or_write e) l -> scanned l = [].
Proof.
  induction 1 as [| e l He _ IH]; [reflexivity |].
  unfold scanned in *. destruct e; try exact IH; exfalso; apply He; exact I.
Qed.

(** What a scanRange adds to the trace: the record of the scan, and then
    fetches and pauses only. *)
Lemma scanRange_trace w cfg st fromBlock toBlock s o s' :
  scanRange w cfg st fromBlock toBlock s = (o, s') ->
  exists rest,
    trace s' = trace s ++ EvScanRange fromBlock toBlock :: rest
    /\ Forall (fun e => ~ is_scan_or_write e) rest.
Proof.
  unfold scanRange. rewrite bind_emit. intros Hrun.
  match type of Hrun with ?m ?s0 = _ =>
    assert (appends (fun e => ~ is_scan_or_write e) m) as Happ
  end.
  { assert (forall (L : Type) t (q : nat -> string -> Z -> Z -> option (list L)),
              appends (fun e => ~ is_scan_or_write e)
                (getLogsSafe w cfg t q fromBlock toBlock)) as Hget.
    { intros L t q. apply appends_getLogsSafe_loop; intros; exact id. }
    apply appends_bind; [apply appends_ensureProvider | intros _].
    apply appends_bind; [apply appends_get_provider | intros ob].
    apply appends_bind; [apply Hget | intros makeLogs].
    apply appends_bind; [apply Hget | intros cancelLogs].
    apply appends_bind; [apply Hget | intros matchLogs].
    apply appends_bind; [apply appends_processMakes | intros st'].
    apply appends_ret. }
  destruct (Happ _ _ _ Hrun) as (rest & Hrest & Hall).
  exists rest. split; [| exact Hall].
  rewrite Hrest. cbn [trace logged]. rewrite <- app_assoc. reflexivity.
Qed.

Lemma grows_refl st : grows st st.
Proof.
  split; [reflexivity |]. split; [reflexivity |]. split; [exact id |].
  intros k e He. exists e. auto.
Qed.

Lemma grows_trans st1 st2 st3 : grows st1 st2 -> grows st2 st3 -> grows st1 st3.
Proof.
  intros (Ha & Hb & Hc & Hd) (Ha' & Hb' & Hc' & Hd').
  split; [congruence |]. split; [congruence |]. split; [tauto |].
  intros k e He. destruct (Hd k e He) as (e1 & H1 & Hf1).
  destruct (Hd' k e1 H1) as (e2 & H2 & Hf2). exists e2. split; congruence.
Qed.

Lemma scanRange_grows w cfg st fromBlock toBlock s st' s' b :
  scanRange w cfg st fromBlock toBlock s = (Return st', s') ->
  grows st (with_lastScannedBlock st' b).
Proof.
  intros Hrun.
  destruct (scanRange_loops _ _ _ _ _ _ _ _ Hrun)
    as (ob & mk & cn & mt & s1 & st1 & Hmk & ->).
  destruct (processMakes_header _ _ _ _ _ _ _ Hmk) as (Ha & Hb & Hc).
  destruct (fold_header _ processCancel_header cn st1) as (Ha1 & Hb1 & Hc1).
  destruct (fold_header _ processMatch_header mt
              (fold_left processCancel cn st1)) as (Ha2 & Hb2 & Hc2).
  split; [cbn; congruence |]. split; [cbn; congruence |]. split.
  - intros Hinv.
    change (sell_orders_only
              (fold_left processMatch mt (fold_left processCancel cn st1))).
    apply (fold_sell_orders _ processMatch_sell_orders).
    apply (fold_sell_orders _ processCancel_sell_orders).
    eapply processMakes_sell_orders; eassumption.
  - intros k e He. cbn [with_lastScannedBlock ordersByKey].
    destruct (processMakes_keeps w ob mk st s1) as (st1' & s1' & Hmk' & _ & _ & Hk).
    rewrite Hmk in Hmk'. injection Hmk' as <- <-.
    destruct (Hk k e He) as (e1 & H1 & Hf1 & _).
    destruct (cancels_entry cn st1 k e1 H1) as (e2 & H2 & Hf2 & _).
    destruct (matches_entry mt _ k e2 H2) as (e3 & H3 & Hf3 & _).
    exists e3. split; [exact H3 | congruence].
Qed.

Lemma tiles_past step from head l :
  head < from -> tiles step from head l -> l = [].
Proof.
  intros Hlt. destruct l as [| [a b] l]; [reflexivity |]. simpl.
  intros (-> & Hab & Hb & _). lia.
Qed.

(** Chunks that tile a range end where the range ends. *)
Lemma tiles_last step : forall l from head a b,
  tiles step from head l -> last l = Some (a, b) -> b = head /\ from <= head.
Proof.
  induction l as [| [x y] l IH]; intros from head a b; simpl;
    [discriminate |].
  intros (-> & Hxy & Hy & Hs & Hl). rewrite last_cons.
  destruct (last l) as [[a' b'] |] eqn:Hlast.
  - intros [= -> ->]. destruct (IH _ _ _ _ Hl eq_refl) as [-> Hle]. lia.
  - intros [= -> ->]. apply last_None in Hlast as ->. simpl in Hl. lia.
Qed.

(** The loop of sync: the chunks it scans, and what it leaves on disk. With
    [done] the chunks scanned and written, in order: when the loop returns
    they cover the blocks from [from] to [head]; when it throws, they cover
    the blocks up to the chunk whose scan threw. The file holds the index
    of the last chunk written, and is untouched when there is none. *)
Lemma sync_loop_chunks w cfg head step :
  1 <= step ->
  forall fuel st from s o s',
    sync_loop w cfg fuel head step st from s = (o, s') ->
    o <> OutOfFuel ->
    exists done failed,
      scanned (trace s') = scanned (trace s) ++ done ++ failed
      /\ match o with
         | Return _ => failed = [] /\ tiles step from head done
         | _ => exists f,
                  failed = [(f, Z.min head (f + step - 1))]
                  /\ from <= f <= head /\ tiles step from (f - 1) done
         end
      /\ match last done with
         | None => files s' = files s
         | Some (_, b) =>
             exists st', files s' !! INDEX_PATH cfg = Some st'
                         /\ lastScannedBlock st' = b /\ grows st st'
         end.
Proof.
  intros Hstep.
  assert (forall st from s o s',
            (from <=? head) = false ->
            (Return tt, s) = (o, s') -> o <> @OutOfFuel unit ->
            exists done failed,
              scanned (trace s') = scanned (trace s) ++ done ++ failed
              /\ match o with
                 | Return _ => failed = [] /\ tiles step from head done
                 | _ => exists f,
                          failed = [(f, Z.min head (f + step - 1))]
                          /\ from <= f <= head /\ tiles step from (f - 1) done
                 end
              /\ match last done with
                 | None => files s' = files s
                 | Some (_, b) =>
                     exists st', files s' !! INDEX_PATH cfg = Some st'
                                 /\ lastScannedBlock st' = b /\ grows st st'
                 end) as Hexit.
  { intros st from s o s' Hle [= <- <-] _. exists [], [].
    rewrite !app_nil_r. split; [reflexivity |]. split; [| reflexivity].
    split; [reflexivity |]. simpl. zbool. lia. }
  induction fuel as [| fuel IH]; intros st from s o s'; simpl.
  - destruct (from <=? head) eqn:Hle; [| exact (Hexit st from s o s' Hle)].
    intros [= <- _] Hne. congruence.
  - destruct (from <=? head) eqn:Hle; [| exact (Hexit st from s o s' Hle)].
    zbool. set (to := Z.min head (from + step - 1)).
    intros Hrun Hne.
    destruct (scanRange w cfg st from to s) as [o1 s1] eqn:Hscan.
    destruct (scanRange_trace _ _ _ _ _ _ _ _ Hscan) as (rest & Htrace & Hrest).
    pose proof (keeps_files_scanRange _ _ _ _ _ _ _ _ Hscan) as Hfiles.
    assert (scanned (trace s1) = scanned (trace s) ++ [(from, to)]) as Hsc.
    { rewrite Htrace, scanned_app. f_equal.
      change (EvScanRange from to :: rest) with ([EvScanRange from to] ++ rest).
      rewrite scanned_app, (scanned_none rest Hrest). reflexivity. }
    assert (from <= to /\ to <= head /\ to - from + 1 <= step)
      as (Hft & Hth & Hts) by (unfold to; lia).
    destruct o1 as [st1 | e |].
    + rewrite (bind_Return _ _ _ _ _ Hscan) in Hrun.
      pose proof (scanRange_grows _ _ _ _ _ _ _ _ to Hscan) as Hgrows.
      unfold bind in Hrun at 1. unfold writeIndex in Hrun at 1.
      cbv iota beta in Hrun.
      match type of Hrun with sync_loop _ _ _ _ _ ?st2 _ ?s2 = _ =>
        destruct (IH st2 _ s2 o s' Hrun Hne)
          as (done & failed & Hscanned & Ho & Hlast);
        assert (scanned (trace s2) = scanned (trace s) ++ [(from, to)]) as Hsc2
      end.
      { cbn [trace]. rewrite scanned_app, Hsc, app_nil_r. reflexivity. }
      exists ((from, to) :: done), failed. split; [| split].
      * rewrite Hscanned, Hsc2, <- !app_assoc. reflexivity.
      * destruct o as [[] | e |]; [| | congruence].
        -- destruct Ho as [-> Htiles]. split; [reflexivity |].
           simpl. repeat split; try lia.
           destruct (Z.le_gt_cases (from + step - 1) head) as [Hin | Hout].
           ++ replace (to + 1) with (from + step) by (unfold to; lia).
              exact Htiles.
           ++ assert (done = []) as ->
                by (apply (tiles_past step (from + step) head);
                    [lia | exact Htiles]).
              simpl. unfold to. lia.
        -- destruct Ho as (f & -> & Hf & Htiles). exists f.
           split; [reflexivity |]. split; [lia |].
           simpl. repeat split; try lia.
           replace (to + 1) with (from + step) by (unfold to; lia).
           exact Htiles.
      * rewrite last_cons. destruct (last done) as [[a b] |].
        -- destruct Hlast as (st' & Hst' & Hb & Hg).
           exists st'. split; [exact Hst' |]. split; [exact Hb |].
           exact (grows_trans _ _ _ Hgrows Hg).
        -- cbn [files] in Hlast. rewrite Hlast.
           eexists. rewrite lookup_insert_eq. split; [reflexivity |].
           split; [reflexivity | exact Hgrows].
    + rewrite (bind_Raise _ _ _ _ _ Hscan) in Hrun. injection Hrun as <- <-.
      exists [], [(from, to)]. split; [exact Hsc |]. split.
      * exists from. repeat split; simpl; lia.
      * simpl. exact Hfiles.
    + exfalso. unfold bind in Hrun. rewrite Hscan in Hrun.
      injection Hrun as <- _. congruence.
Qed.

(** The index sync starts from is one for the configured chain and order
    book, whatever the file holds. *)
Lemma initial_state_taken_up cfg existing :
  taken_up cfg (initial_state cfg existing).
Proof.
  unfold initial_state, taken_up. destruct existing as [st |]; [| auto].
  destruct (chainId st =? CHAIN_ID cfg) eqn:Hc; [| auto].
  destruct (String.eqb _ _) eqn:Hb; [| auto]. simpl.
  apply String.eqb_eq in Hb. zbool. auto.
Qed.

Lemma initial_state_of_taken_up cfg st :
  taken_up cfg st -> initial_state cfg (Some st) = st.
Proof.
  intros [Hc Hb]. unfold initial_state.
  rewrite Hc, Z.eqb_refl, Hb, String.eqb_refl. reflexivity.
Qed.

Lemma grows_taken_up cfg st st' : grows st st' -> taken_up cfg st -> taken_up cfg st'.
Proof. intros (Ha & Hb & _) [Hc Hd]. split; congruence. Qed.

(** sync, once it has an endpoint and the head of the chain. *)
Lemma sync_enters w cfg s s1 head :
  ensureProvider w cfg s = (Return tt, s1) ->
  rpc_blockNumber w (clock s1) (provider s1) = Some head ->
  same_effects s (tock s1)
  /\ sync w cfg s
     = (let st := initial_state cfg (files s !! INDEX_PATH cfg) in
        let start := start_of cfg st head in
        if head <? start then ret tt
        else sync_loop w cfg (Z.to_nat (head - start + 1)) head
               (batchSize w) st start) (tock s1).
Proof.
  intros Hensure Hhead.
  destruct (ensureProvider_cases w cfg s) as (o1 & s1' & Hrun & [Hf1 Ht1] & _).
  rewrite Hensure in Hrun. injection Hrun as <- <-.
  split; [split; assumption |].
  unfold sync. rewrite (bind_Return _ _ _ _ _ Hensure).
  unfold readIndex at 1. unfold bind at 1. rewrite Hf1.
  unfold get_provider. unfold bind at 1. rewrite bind_call, Hhead.
  reflexivity.
Qed.

(** sync throws before it scans anything, or goes on with an endpoint and
    the head of the chain. *)
Lemma sync_cases w cfg s :
  (exists e s', sync w cfg s = (Raise e, s') /\ same_effects s s')
  \/ exists s1 head,
       ensureProvider w cfg s = (Return tt, s1)
       /\ rpc_blockNumber w (clock s1) (provider s1) = Some head.
Proof.
  destruct (ensureProvider_cases w cfg s) as (o1 & s1 & Hrun & Hsame & [-> | ->]).
  - destruct (rpc_blockNumber w (clock s1) (provider s1)) as [head |] eqn:Hhead.
    + right. eauto.
    + left. exists RpcFailure, (tock s1). split; [| exact Hsame].
      unfold sync. rewrite (bind_Return _ _ _ _ _ Hrun).
      unfold readIndex at 1. unfold bind at 1.
      unfold get_provider. unfold bind at 1. rewrite bind_call, Hhead.
      reflexivity.
  - left. exists NoHealthyRpc, s1. split; [| exact Hsame].
    unfold sync. rewrite (bind_Raise _ _ _ _ _ Hrun). reflexivity.
Qed.

End Chunks.

(** ** sync: progress *)

(** X8. A sync that returns has scanned up to the head. Let sync find an
    endpoint and read the head of the chain, with a batch size of at least
    one block and a first block that is not beyond the head. When it
    returns, the ranges it scanned follow one another from the first block
    to the head, none empty and none longer than the batch size; and the
    index file holds an index for the configured chain and order book whose
    last scanned block is the head. *)
Theorem sync_covers_range w cfg s s1 head s' :
  1 <= batchSize w ->
  Indexer.ensureProvider w cfg s = (Return tt, s1) ->
  rpc_blockNumber w (clock s1) (provider s1) = Some head ->
  Indexer.start_of cfg
    (Indexer.initial_state cfg (files s !! Indexer.INDEX_PATH cfg)) head
    <= head ->
  Indexer.sync w cfg s = (Return tt, s') ->
  exists chunks st',
    scanned (trace s') = scanned (trace s) ++ chunks
    /\ tiles (batchSize w)
         (Indexer.start_of cfg
            (Indexer.initial_state cfg (files s !! Indexer.INDEX_PATH cfg))
            head)
         head chunks
    /\ files s' !! Indexer.INDEX_PATH cfg = Some st'
    /\ lastScannedBlock st' = head
    /\ taken_up cfg st'.
Proof.
  intros Hstep Hensure Hhead Hle Hrun.
  destruct (sync_enters w cfg s s1 head Hensure Hhead) as ([Hf Ht] & Hsync).
  cbv zeta in Hsync. rewrite Hrun in Hsync.
  set (st := Indexer.initial_state cfg (files s !! Indexer.INDEX_PATH cfg)) in *.
  set (start := Indexer.start_of cfg st head) in *.
  assert ((head <? start) = false) as Hb by (zbool; lia).
  rewrite Hb in Hsync. symmetry in Hsync.
  destruct (sync_loop_chunks w cfg head (batchSize w) Hstep _ _ _ _ _ _ Hsync)
    as (done & failed & Hscanned & [-> Htiles] & Hlast); [discriminate |].
  rewrite app_nil_r in Hscanned.
  destruct (last done) as [[a b] |] eqn:Hl.
  - destruct Hlast as (st' & Hst' & Hlsb & Hgrows).
    destruct (tiles_last _ _ _ _ _ _ Htiles Hl) as [-> _].
    exists done, st'. rewrite Hscanned, Ht.
    repeat split; try assumption.
    + exact (proj1 (grows_taken_up cfg st st' Hgrows
                      (initial_state_taken_up cfg _))).
    + exact (proj2 (grows_taken_up cfg st st' Hgrows
                      (initial_state_taken_up cfg _))).
  - apply last_None in Hl as ->. simpl in Htiles. lia.
Qed.

Lemma sync_covers_range_witness :
  exists chunks st',
    scanned (trace (snd (Indexer.sync (Scenarios.in_batches 1000)
                           (Examples.indexer_cfg 1 None)
                           Scenarios.scanned_to_10)))
    = scanned (trace Scenarios.scanned_to_10) ++ chunks
    /\ tiles 30 11 100 chunks
    /\ files (snd (Indexer.sync (Scenarios.in_batches 1000)
                     (Examples.indexer_cfg 1 None) Scenarios.scanned_to_10))
       !! Examples.index_path = Some st'
    /\ lastScannedBlock st' = 100
    /\ taken_up (Examples.indexer_cfg 1 None) st'.
Proof.
  assert (Indexer.sync (Scenarios.in_batches 1000) (Examples.indexer_cfg 1 None)
            Scenarios.scanned_to_10
          = (Return tt,
             snd (Indexer.sync (Scenarios.in_batches 1000)
                    (Examples.indexer_cfg 1 None) Scenarios.scanned_to_10)))
    as Hrun by (vm_compute; reflexivity).
  assert (Indexer.start_of (Examples.indexer_cfg 1 None)
            (Indexer.initial_state (Examples.indexer_cfg 1 None)
               (files Scenarios.scanned_to_10
                  !! Indexer.INDEX_PATH (Examples.indexer_cfg 1 None))) 100
          = 11) as Hstart by (vm_compute; reflexivity).
  pose proof (sync_covers_range (Scenarios.in_batches 1000)
                (Examples.indexer_cfg 1 None) Scenarios.scanned_to_10
                (tock Scenarios.scanned_to_10) 100
                (snd (Indexer.sync (Scenarios.in_batches 1000)
                        (Examples.indexer_cfg 1 None)
                        Scenarios.scanned_to_10))) as H.
  rewrite Hstart in H. apply H.
  - vm_compute. discriminate.
  - vm_compute. reflexivity.
  - reflexivity.
  - lia.
  - exact Hrun.
Defined.

(** X9. A sync that throws keeps what it has done, and the next one takes
    up where it stopped. Let sync find an endpoint and read the head, with
    a batch size of at least one block, and then throw. It threw in the
    scan of a range, the last one of the trace; the ranges scanned before
    follow one another from the first block of the sync to the block before
    that range. When that range is the first, the files are as they were.
    Otherwise the index file holds an index whose last scanned block is the
    block before that range, which a later sync takes up as it is. Whatever
    head that sync reads, it starts from the first block of the range that
    failed when a starting block is configured, or when the head is no more
    than 50000 blocks beyond that block; with no starting block configured
    and a head further on, it starts 50000 blocks below its head, beyond the
    range that failed, which is then never scanned. *)
Theorem sync_throw_keeps_progress w cfg s s1 head e s' :
  1 <= batchSize w ->
  Indexer.ensureProvider w cfg s = (Return tt, s1) ->
  rpc_blockNumber w (clock s1) (provider s1) = Some head ->
  Indexer.sync w cfg s = (Raise e, s') ->
  exists done f,
    scanned (trace s')
    = scanned (trace s) ++ done ++ [(f, Z.min head (f + batchSize w - 1))]
    /\ f <= head
    /\ tiles (batchSize w)
         (Indexer.start_of cfg
            (Indexer.initial_state cfg (files s !! Indexer.INDEX_PATH cfg))
            head)
         (f - 1) done
    /\ match done with
       | [] => files s' = files s
       | _ :: _ =>
           exists st', files s' !! Indexer.INDEX_PATH cfg = Some st'
                       /\ lastScannedBlock st' = f - 1
                       /\ Indexer.initial_state cfg (Some st') = st'
                       /\ forall head2,
                            (0 < Indexer.INDEXER_FROM_BLOCK cfg
                             \/ head2 - 50000 <= f ->
                             Indexer.start_of cfg st' head2 = f)
                            /\ (Indexer.INDEXER_FROM_BLOCK cfg <= 0 ->
                                f < head2 - 50000 ->
                                Indexer.start_of cfg st' head2 = head2 - 50000)
       end.
Proof.
  intros Hstep Hensure Hhead Hrun.
  destruct (sync_enters w cfg s s1 head Hensure Hhead) as ([Hf Ht] & Hsync).
  cbv zeta in Hsync. rewrite Hrun in Hsync.
  set (st := Indexer.initial_state cfg (files s !! Indexer.INDEX_PATH cfg)) in *.
  set (start := Indexer.start_of cfg st head) in *.
  destruct (head <? start) eqn:Hb; [discriminate |].
  symmetry in Hsync.
  destruct (sync_loop_chunks w cfg head (batchSize w) Hstep _ _ _ _ _ _ Hsync)
    as (done & failed & Hscanned & (f & -> & Hfh & Htiles) & Hlast);
    [discriminate |].
  exists done, f. rewrite Hscanned, Ht.
  split; [reflexivity |]. split; [lia |]. split; [exact Htiles |].
  destruct (last done) as [[a b] |] eqn:Hl.
  - destruct Hlast as (st' & Hst' & Hlsb & Hgrows).
    destruct (tiles_last _ _ _ _ _ _ Htiles Hl) as [-> Hsf].
    destruct done as [| d done]; [discriminate |].
    exists st'. split; [exact Hst' |]. split; [exact Hlsb |].
    split.
    + apply initial_state_of_taken_up.
      exact (grows_taken_up cfg st st' Hgrows (initial_state_taken_up cfg _)).
    + intros head2. unfold Indexer.start_of, Indexer.fromBlock_of in *.
      rewrite Hlsb. fold st in start.
      destruct (0 <? Indexer.INDEXER_FROM_BLOCK cfg) eqn:Hfrom; zbool;
        split; intros; lia.
  - apply last_None in Hl as ->. rewrite Hlast. exact Hf.
Qed.

Lemma sync_throw_keeps_progress_witness :
  exists done f,
    scanned (trace (snd (Indexer.sync (Scenarios.in_batches 50)
                           (Examples.indexer_cfg 1 None)
                           Scenarios.scanned_to_10)))
    = scanned (trace Scenarios.scanned_to_10) ++ done ++ [(f, Z.min 100 (f + 30 - 1))]
    /\ f <= 100
    /\ tiles 30 11 (f - 1) done
    /\ match done with
       | [] => files (snd (Indexer.sync (Scenarios.in_batches 50)
                             (Examples.indexer_cfg 1 None)
                             Scenarios.scanned_to_10))
               = files Scenarios.scanned_to_10
       | _ :: _ =>
           exists st',
             files (snd (Indexer.sync (Scenarios.in_batches 50)
                           (Examples.indexer_cfg 1 None)
                           Scenarios.scanned_to_10))
             !! Examples.index_path = Some st'
             /\ lastScannedBlock st' = f - 1
             /\ Indexer.initial_state (Examples.indexer_cfg 1 None) (Some st')
                = st'
             /\ forall head2,
                  (0 < Indexer.INDEXER_FROM_BLOCK (Examples.indexer_cfg 1 None)
                   \/ head2 - 50000 <= f ->
                   Indexer.start_of (Examples.indexer_cfg 1 None) st' head2 = f)
                  /\ (Indexer.INDEXER_FROM_BLOCK (Examples.indexer_cfg 1 None)
                      <= 0 ->
                      f < head2 - 50000 ->
                      Indexer.start_of (Examples.indexer_cfg 1 None) st' head2
                      = head2 - 50000)
       end.
Proof.
  assert (Indexer.sync (Scenarios.in_batches 50) (Examples.indexer_cfg 1 None)
            Scenarios.scanned_to_10
          = (Raise RpcFailure,
             snd (Indexer.sync (Scenarios.in_batches 50)
                    (Examples.indexer_cfg 1 None) Scenarios.scanned_to_10)))
    as Hrun by (vm_compute; reflexivity).
  assert (Indexer.start_of (Examples.indexer_cfg 1 None)
            (Indexer.initial_state (Examples.indexer_cfg 1 None)
               (files Scenarios.scanned_to_10
                  !! Indexer.INDEX_PATH (Examples.indexer_cfg 1 None))) 100
          = 11) as Hstart by (vm_compute; reflexivity).
  pose proof (sync_throw_keeps_progress (Scenarios.in_batches 50)
                (Examples.indexer_cfg 1 None) Scenarios.scanned_to_10
                (tock Scenarios.scanned_to_10) 100 RpcFailure
                (snd (Indexer.sync (Scenarios.in_batches 50)
                        (Examples.indexer_cfg 1 None)
                        Scenarios.scanned_to_10))) as H.
  rewrite Hstart in H. apply H.
  - vm_compute. discriminate.
  - vm_compute. reflexivity.
  - reflexivity.
  - exact Hrun.
Defined.

(** The first block of a later sync, on a file scanned up to block 40 and a
    head at block 60000: block 41 with the starting block 1 configured,
    block 10000 with none. *)
Example later_sync_start :
  Indexer.start_of (Examples.indexer_cfg 1 None) (Examples.index_of 40 ∅) 60000
  = 41
  /\ Indexer.start_of (Examples.indexer_cfg 0 None) (Examples.index_of 40 ∅)
       60000
     = 10000.
Proof. split; vm_compute; reflexivity. Qed.

(** X10. sync is idle when there is nothing new. After a sync that
    returned, a second sync that reads a head no higher than the first one
    did returns without a scan or a write: the files and the trace are as
    the first sync left them. *)
Theorem resync_is_idle w cfg s s1 head s' s2 head2 :
  1 <= batchSize w ->
  Indexer.ensureProvider w cfg s = (Return tt, s1) ->
  rpc_blockNumber w (clock s1) (provider s1) = Some head ->
  Indexer.sync w cfg s = (Return tt, s') ->
  Indexer.ensureProvider w cfg s' = (Return tt, s2) ->
  rpc_blockNumber w (clock s2) (provider s2) = Some head2 ->
  head2 <= head ->
  Indexer.sync w cfg s' = (Return tt, tock s2)
  /\ same_effects s' (tock s2).
Proof.
  intros Hstep Hensure Hhead Hrun Hensure2 Hhead2 Hle.
  destruct (sync_enters w cfg s s1 head Hensure Hhead) as ([Hf Ht] & Hsync).
  destruct (sync_enters w cfg s' s2 head2 Hensure2 Hhead2) as (Hsame & Hsync2).
  split; [| exact Hsame]. rewrite Hsync2. clear Hsync2.
  cbv zeta in *. rewrite Hrun in Hsync.
  set (st := Indexer.initial_state cfg (files s !! Indexer.INDEX_PATH cfg)) in *.
  set (start := Indexer.start_of cfg st head) in *.
  destruct (head <? start) eqn:Hb.
  - injection Hsync as ->. cbn [files tock] in Hf |- *. rewrite Hf. fold st.
    assert ((head2 <? Indexer.start_of cfg st head2) = true) as ->;
      [| reflexivity].
    unfold start, Indexer.start_of, Indexer.fromBlock_of in *.
    destruct (0 <? Indexer.INDEXER_FROM_BLOCK cfg); zbool; lia.
  - symmetry in Hsync.
    destruct (sync_loop_chunks w cfg head (batchSize w) Hstep _ _ _ _ _ _ Hsync)
      as (done & failed & Hscanned & [-> Htiles] & Hlast); [discriminate |].
    destruct (last done) as [[a b] |] eqn:Hl.
    + destruct Hlast as (st' & Hst' & Hlsb & Hgrows).
      destruct (tiles_last _ _ _ _ _ _ Htiles Hl) as [-> _].
      rewrite Hst', initial_state_of_taken_up.
      2: exact (grows_taken_up cfg st st' Hgrows (initial_state_taken_up cfg _)).
      assert ((head2 <? Indexer.start_of cfg st' head2) = true) as ->;
        [| reflexivity].
      unfold Indexer.start_of. zbool. lia.
    + apply last_None in Hl as ->. simpl in Htiles. zbool. lia.
Qed.

Lemma resync_is_idle_witness :
  same_effects
    (snd (Indexer.sync (Scenarios.in_batches 1000) (Examples.indexer_cfg 1 None)
            Scenarios.scanned_to_10))
    (tock (tock (snd (Indexer.sync (Scenarios.in_batches 1000)
                        (Examples.indexer_cfg 1 None)
                        Scenarios.scanned_to_10)))).
Proof.
  assert (Indexer.sync (Scenarios.in_batches 1000) (Examples.indexer_cfg 1 None)
            Scenarios.scanned_to_10
          = (Return tt,
             snd (Indexer.sync (Scenarios.in_batches 1000)
                    (Examples.indexer_cfg 1 None) Scenarios.scanned_to_10)))
    as Hrun by (vm_compute; reflexivity).
  refine (proj2 (resync_is_idle (Scenarios.in_batches 1000)
                   (Examples.indexer_cfg 1 None) Scenarios.scanned_to_10
                   (tock Scenarios.scanned_to_10) 100 _ _ 100 _ _ _ Hrun _ _ _)).
  - vm_compute. discriminate.
  - vm_compute. reflexivity.
  - reflexivity.
  - vm_compute. reflexivity.
  - reflexivity.
  - lia.
Defined.

(** X11. Whatever becomes of a sync, the index on disk only grows. Let the
    index file hold an index for the configured chain and order book, and
    the batch size be at least one block. After sync, whether it returned
    or threw, the file holds an index for the same chain and order book,
    with every entry that was there and the first block each had, with
    nothing but sell orders if there was nothing else, and with a last
    scanned block that is not lower. *)
Theorem sync_file_grows w cfg s o s' st :
  1 <= batchSize w ->
  files s !! Indexer.INDEX_PATH cfg = Some st ->
  taken_up cfg st ->
  Indexer.sync w cfg s = (o, s') ->
  exists st',
    files s' !! Indexer.INDEX_PATH cfg = Some st'
    /\ grows st st'
    /\ lastScannedBlock st <= lastScannedBlock st'.
Proof.
  intros Hstep Hfile Htaken Hrun.
  assert (files s' = files s ->
          exists st', files s' !! Indexer.INDEX_PATH cfg = Some st'
                      /\ grows st st'
                      /\ lastScannedBlock st <= lastScannedBlock st') as Hsame.
  { intros ->. exists st. split; [exact Hfile |].
    split; [apply grows_refl | lia]. }
  destruct (sync_cases w cfg s) as [(e & s0 & Hthrow & Hf & _) | (s1 & head & He & Hh)].
  { rewrite Hrun in Hthrow. injection Hthrow as -> ->. exact (Hsame Hf). }
  destruct (sync_enters w cfg s s1 head He Hh) as ([Hf Ht] & Hsync).
  cbv zeta in Hsync. rewrite Hrun, Hfile in Hsync.
  rewrite (initial_state_of_taken_up cfg st Htaken) in Hsync.
  destruct (head <? Indexer.start_of cfg st head) eqn:Hb.
  { injection Hsync as -> ->. exact (Hsame Hf). }
  symmetry in Hsync.
  assert (o <> OutOfFuel) as Hne.
  { pose proof (terminates_sync_loop w cfg head (batchSize w) Hstep
                  (Z.to_nat (head - Indexer.start_of cfg st head + 1)) st
                  (Indexer.start_of cfg st head) ltac:(zbool; lia) (tock s1))
      as Hterm.
    rewrite Hsync in Hterm. exact Hterm. }
  destruct (sync_loop_chunks w cfg head (batchSize w) Hstep _ _ _ _ _ _ Hsync Hne)
    as (done & failed & Hscanned & Ho & Hlast).
  destruct (last done) as [[a b] |] eqn:Hl.
  - destruct Hlast as (st' & Hst' & Hlsb & Hgrows).
    exists st'. split; [exact Hst' |]. split; [exact Hgrows |].
    assert (Indexer.start_of cfg st head <= b) as Hsb.
    { destruct o as [[] | e |]; [| | congruence].
      - destruct Ho as [_ Htiles].
        destruct (tiles_last _ _ _ _ _ _ Htiles Hl) as [-> H]. exact H.
      - destruct Ho as (f & _ & _ & Htiles).
        destruct (tiles_last _ _ _ _ _ _ Htiles Hl) as [-> H]. exact H. }
    unfold Indexer.start_of in Hsb. lia.
  - apply Hsame. rewrite Hlast. exact Hf.
Qed.

Lemma sync_file_grows_witness :
  exists st',
    files (snd (Indexer.sync (Scenarios.in_batches 50)
                  (Examples.indexer_cfg 1 None) Scenarios.scanned_to_10))
    !! Examples.index_path = Some st'
    /\ grows (Examples.index_of 10 ∅) st'
    /\ 10 <= lastScannedBlock st'.
Proof.
  assert (files Scenarios.scanned_to_10
            !! Indexer.INDEX_PATH (Examples.indexer_cfg 1 None)
          = Some (Examples.index_of 10 ∅)) as Hfile by (vm_compute; reflexivity).
  assert (taken_up (Examples.indexer_cfg 1 None) (Examples.index_of 10 ∅))
    as Htaken by (split; vm_compute; reflexivity).
  refine (sync_file_grows (Scenarios.in_batches 50) (Examples.indexer_cfg 1 None)
            Scenarios.scanned_to_10 _ _ (Examples.index_of 10 ∅) _ Hfile Htaken
            (surjective_pairing _)).
  vm_compute. discriminate.
Defined.

(** ** The queries on the active orders *)

Section QueryLoops.
Import Indexer Queries.

(** getActiveSellOrders always returns, and only reads. *)
Lemma getActiveSellOrders_runs w cfg s :
  exists orders s',
    getActiveSellOrders w cfg s = (Return orders, s')
    /\ same_effects s s'
    /\ match files s !! INDEX_PATH cfg with
       | None => orders = []
       | Some st =>
           orders = omap (activeEntry cfg (dateNow w (clock s) / 1000)
                            (parseAllowlist (COLLECTION_ALLOWLIST cfg)))
                         (Object_entries (ordersByKey st))
       end.
Proof.
  unfold getActiveSellOrders, readIndex. unfold bind at 1.
  destruct (files s !! INDEX_PATH cfg) as [st |].
  - rewrite bind_ask. eexists _, _. split; [reflexivity |].
    split; [apply same_effects_tock | reflexivity].
  - exists [], s. repeat split.
Qed.

Lemma min_price_fold l : forall init,
  let m := fold_left
             (fun min o =>
                if price (e_order o) <? min then price (e_order o) else min)
             l init in
  m <= init
  /\ (m = init \/ exists o, o ∈ l /\ price (e_order o) = m)
  /\ forall o, o ∈ l -> m <= price (e_order o).
Proof.
  induction l as [| x l IH]; intros init; simpl.
  - split; [lia |]. split; [auto |]. intros o Ho. inversion Ho.
  - match goal with |- context [fold_left _ l ?i] => set (init' := i) end.
    destruct (IH init') as (Hle & Hin & Hall).
    assert (init' <= init /\ init' <= price (e_order x)
            /\ (init' = init \/ init' = price (e_order x)))
      as (H1 & H2 & H3).
    { unfold init'. destruct (price (e_order x) <? init) eqn:Hlt; zbool; lia. }
    split; [lia |]. split.
    + destruct Hin as [-> | (o & Ho & Hp)].
      * destruct H3 as [-> | H3]; [auto |].
        right. exists x. split; [left | congruence].
      * right. exists o. split; [right; exact Ho | exact Hp].
    + intros o Ho. apply elem_of_cons in Ho as [-> | Ho]; [lia | auto].
Qed.












Lemma activeEntry_entry cfg nowSec allowlist k p x :
  activeEntry cfg nowSec allowlist (k, p) = Some x -> x = entry_of k p.
Proof.
  unfold activeEntry.
  repeat match goal with
         | |- context [if ?b then None else _] => destruct b
         end; congruence.
Qed.

Lemma inherited_name_iff st key :
  inherited_name st key
  <-> ordersByKey st !! key = None /\ key ∈ Object_prototype.
Proof.
  unfold inherited_name, Object_prototype. rewrite list_elem_of_In. tauto.
Qed.

Lemma get_property_cases st key :
  match get_property (ordersByKey st) key with
  | Own p => ordersByKey st !! key = Some p
  | Inherited => inherited_name st key
  | Missing => ordersByKey st !! key = None /\ ~ inherited_name st key
  end.
Proof.
  unfold get_property.
  destruct (ordersByKey st !! key) as [p |] eqn:Hk; [reflexivity |].
  destruct (bool_decide (key ∈ Object_prototype)) eqn:Hin.
  - apply bool_decide_eq_true in Hin. apply inherited_name_iff.
    split; [exact Hk | exact Hin].
  - apply bool_decide_eq_false in Hin. split; [reflexivity |].
    rewrite inherited_name_iff. tauto.
Qed.

(** The loop of getOrdersByKeys: the entries of the keys that are in the
    index, in the order of the request, unless a key names a member of
    Object.prototype. *)
Lemma entries_of_spec st : forall keys,
  (Exists (inherited_name st) keys
   /\ entries_of st keys = Throw JsTypeError)
  \/ (~ Exists (inherited_name st) keys
      /\ entries_of st keys
         = Ok (map (fun kp => entry_of (fst kp) (snd kp))
                 (omap (fun k => pair k <$> ordersByKey st !! k) keys))).
Proof.
  induction keys as [| k keys IH]; simpl.
  - right. split; [intros H; inversion H | reflexivity].
  - pose proof (get_property_cases st k) as Hk.
    destruct (get_property (ordersByKey st) k) as [p | |].
    + rewrite Hk. cbn. destruct IH as [[Hex ->] | [Hnex ->]].
      * left. split; [right; exact Hex | reflexivity].
      * right. split; [| reflexivity]. intros H.
        apply Exists_cons in H as [[H _] | H]; [congruence | auto].
    + left. split; [left; exact Hk | reflexivity].
    + destruct Hk as [Hnone Hk]. rewrite Hnone. cbn.
      destruct IH as [[Hex ->] | [Hnex ->]].
      * left. split; [right; exact Hex | reflexivity].
      * right. split; [| reflexivity]. intros H.
        apply Exists_cons in H as [H | H]; auto.
Qed.

(** Asking getOrdersByKeys for the keys of the entries that
    getActiveSellOrders made out of an index gives these entries back. *)
Lemma entries_of_active cfg nowSec allowlist st : forall l,
  (forall k p, (k, p) ∈ l -> ordersByKey st !! k = Some p) ->
  entries_of st (map e_orderKey (omap (activeEntry cfg nowSec allowlist) l))
  = Ok (omap (activeEntry cfg nowSec allowlist) l).
Proof.
  induction l as [| [k p] l IH]; intros Hl; [reflexivity |].
  assert (forall k p, (k, p) ∈ l -> ordersByKey st !! k = Some p) as Hl'
    by (intros k' p' H; apply Hl; right; exact H).
  change (omap (activeEntry cfg nowSec allowlist) ((k, p) :: l))
    with (match activeEntry cfg nowSec allowlist (k, p) with
          | Some x => x :: omap (activeEntry cfg nowSec allowlist) l
          | None => omap (activeEntry cfg nowSec allowlist) l
          end).
  destruct (activeEntry cfg nowSec allowlist (k, p)) as [x |] eqn:Hx;
    [| exact (IH Hl')].
  apply activeEntry_entry in Hx as ->.
  cbn [map entries_of e_orderKey entry_of]. unfold get_property.
  rewrite (Hl k p) by left. rewrite (IH Hl'). reflexivity.
Qed.

End QueryLoops.

(** ** The queries: results *)

(** X12. floorPrice is the lowest price among the active orders.
    getActiveSellOrders always returns, touching neither the files nor the
    trace; floorPrice returns null exactly when it returns no order, and
    otherwise a price that one of the active orders has and that none is
    below. *)
Theorem floorPrice_is_minimum w cfg s :
  exists orders s' r,
    Indexer.getActiveSellOrders w cfg s = (Return orders, s')
    /\ Queries.floorPrice w cfg s = (Return r, s')
    /\ same_effects s s'
    /\ match r with
       | None => orders = []
       | Some m =>
           (exists o, o ∈ orders /\ price (Indexer.e_order o) = m)
           /\ forall o, o ∈ orders -> m <= price (Indexer.e_order o)
       end.
Proof.
  destruct (getActiveSellOrders_runs w cfg s) as (orders & s' & Hrun & Hsame & _).
  unfold Queries.floorPrice. rewrite (bind_Return _ _ _ _ _ Hrun).
  destruct orders as [| first rest].
  - exists [], s', None. auto.
  - exists (first :: rest), s', (Some (Queries.min_price first (first :: rest))).
    split; [exact Hrun |]. split; [reflexivity |]. split; [exact Hsame |].
    unfold Queries.min_price.
    destruct (min_price_fold (first :: rest) (price (Indexer.e_order first)))
      as (Hle & Hin & Hall).
    split; [| exact Hall].
    destruct Hin as [Heq | Hin]; [| exact Hin].
    exists first. split; [left | symmetry; exact Heq].
Qed.





(** X15. The queries by key. getOrderByKey and getOrdersByKeys only read:
    they leave the system as it is, whatever the keys. getOrderByKey
    returns the entry stored under the key, whatever its status, and null
    when there is no index file or no such entry; getOrdersByKeys returns
    the entries of the keys that are in the index, in the order of the
    request, and skips the others. Both throw a TypeError on a key that is
    not in the index and names a member of Object.prototype, such as
    constructor or toString. Every order that getActiveSellOrders returns is
    open and is what getOrderByKey returns for its key; no two of them have
    the same key; and getOrdersByKeys, asked for the keys of the active
    orders, returns the active orders, in the same order. *)
Theorem active_orders_by_key w cfg s :
  (forall key,
     exists o, Queries.getOrderByKey cfg key s = (o, s)
               /\ looked_up (files s !! Indexer.INDEX_PATH cfg) key o)
  /\ (forall keys,
        exists o, Queries.getOrdersByKeys cfg keys s = (o, s)
                  /\ looked_up_all (files s !! Indexer.INDEX_PATH cfg) keys o)
  /\ exists orders s',
       Indexer.getActiveSellOrders w cfg s = (Return orders, s')
       /\ (forall o, o ∈ orders ->
             Indexer.e_status o = open
             /\ Queries.getOrderByKey cfg (Indexer.e_orderKey o) s
                = (Return (Some o), s))
       /\ NoDup (map Indexer.e_orderKey orders)
       /\ Queries.getOrdersByKeys cfg (map Indexer.e_orderKey orders) s
          = (Return orders, s).
Proof.
  split; [| split].
  - intros key. unfold Queries.getOrderByKey, Indexer.readIndex, bind, looked_up.
    destruct (files s !! Indexer.INDEX_PATH cfg) as [st |];
      [| exists (Return None); auto].
    pose proof (get_property_cases st key) as Hk.
    destruct (Queries.get_property (ordersByKey st) key) as [p | |].
    + rewrite Hk. eexists. split; [reflexivity |].
      eexists. split; [reflexivity |]. apply shows_entry_of. reflexivity.
    + destruct Hk as [Hnone Hin]. rewrite Hnone.
      eexists. split; [reflexivity |]. left. split; [split; assumption | auto].
    + destruct Hk as [Hnone Hnot]. rewrite Hnone.
      eexists. split; [reflexivity |]. right. auto.
  - intros keys.
    unfold Queries.getOrdersByKeys, Indexer.readIndex, bind, looked_up_all.
    destruct (files s !! Indexer.INDEX_PATH cfg) as [st |];
      [| exists (Return []); auto].
    destruct (entries_of_spec st keys) as [[Hex ->] | [Hnex ->]].
    + eexists. split; [reflexivity |]. left. auto.
    + eexists. split; [reflexivity |]. right. split; [exact Hnex |].
      eexists. split; [reflexivity |].
      generalize (omap (fun k => pair k <$> ordersByKey st !! k) keys).
      intros l. induction l as [| [k p] l IH]; constructor; [| exact IH].
      apply shows_entry_of. reflexivity.
  - destruct (getActiveSellOrders_runs w cfg s)
      as (orders & s' & Hrun & _ & Hout).
    exists orders, s'. split; [exact Hrun |].
    unfold Queries.getOrderByKey, Queries.getOrdersByKeys, Indexer.readIndex.
    unfold bind.
    destruct (files s !! Indexer.INDEX_PATH cfg) as [st |].
    2: { subst orders. split; [intros o Ho; inversion Ho |].
         split; [constructor | reflexivity]. }
    set (f := Indexer.activeEntry cfg (dateNow w (clock s) / 1000)
                (Indexer.parseAllowlist (Indexer.COLLECTION_ALLOWLIST cfg)))
      in *.
    split; [| split].
    + intros o Ho. rewrite Hout in Ho.
      apply list_elem_of_omap in Ho as ([k p] & Hin & Hx).
      apply elem_of_Object_entries in Hin.
      pose proof (activeEntry_entry _ _ _ _ _ _ Hx) as ->.
      cbn [Indexer.e_orderKey Indexer.e_status Indexer.entry_of].
      unfold Queries.get_property. rewrite Hin. split; [| reflexivity].
      unfold f, Indexer.activeEntry in Hx.
      destruct (bool_decide (status p = open)) eqn:Hst; [| discriminate].
      apply bool_decide_eq_true in Hst. exact Hst.
    + rewrite Hout.
      apply (sublist_NoDup _ (map fst (Object_entries (ordersByKey st))));
        [apply NoDup_fst_Object_entries |].
      generalize (Object_entries (ordersByKey st)). intros l.
      induction l as [| [k p] l IH]; [constructor |].
      change (omap f ((k, p) :: l))
        with (match f (k, p) with
              | Some x => x :: omap f l
              | None => omap f l
              end).
      destruct (f (k, p)) as [x |] eqn:Hx.
      * apply activeEntry_entry in Hx as ->. cbn. apply sublist_skip, IH.
      * cbn. apply sublist_cons, IH.
    + rewrite Hout. unfold f. rewrite entries_of_active; [reflexivity |].
      intros k p Hin. apply elem_of_Object_entries. exact Hin.
Qed.

(** ** checkRisk: the checks *)

Section Checks.
Import RiskChecker.















(** getErc20Decimals: the value of the cache when there is one, and
    otherwise the answer of the contract, kept in the cache when it is an
    integer of 0..255. *)
Lemma getErc20Decimals_cases w provider token s :
  exists o s',
    Pricing.getErc20Decimals w provider token s = (o, s')
    /\ same_effects s s'
    /\ (forall k, k <> JS.toLowerCase token ->
          decimalsCache s' !! k = decimalsCache s !! k)
    /\ match o with
       | Return d =>
           decimalsCache s' !! JS.toLowerCase token = Some d
           /\ match decimalsCache s !! JS.toLowerCase token with
              | Some c => d = c /\ s' = s
              | None =>
                  rpc_decimals w (clock s) provider token = Some d
                  /\ 0 <= d <= 255
              end
       | Raise e =>
           decimalsCache s !! JS.toLowerCase token = None
           /\ decimalsCache s' = decimalsCache s
           /\ match rpc_decimals w (clock s) provider token with
              | None => e = RpcFailure
              | Some d => e = InvalidDecimals /\ (d < 0 \/ 255 < d)
              end
       | OutOfFuel => False
       end.
Proof.
  unfold Pricing.getErc20Decimals. cbv zeta. unfold bind at 1.
  destruct (decimalsCache s !! JS.toLowerCase token) as [c |] eqn:Hc.
  - exists (Return c), s. repeat split; auto.
  - rewrite bind_call.
    destruct (rpc_decimals w (clock s) provider token) as [d |].
    + destruct ((d <? 0) || (255 <? d)) eqn:Hd.
      * exists (Raise InvalidDecimals), (tock s).
        split; [reflexivity |]. split; [apply same_effects_tock |].
        split; [reflexivity |]. zbool. repeat split; auto; lia.
      * eexists (Return d), _. split; [reflexivity |].
        split; [split; reflexivity |]. cbn [decimalsCache tock].
        split; [intros k Hk; apply lookup_insert_ne; congruence |].
        rewrite lookup_insert_eq. zbool. repeat split; lia.
    + exists (Raise RpcFailure), (tock s).
      split; [reflexivity |]. split; [apply same_effects_tock |].
      repeat split.
Qed.

End Checks.

(** ** checkRisk and the decimals: results *)




(** X18. getErc20Decimals keeps what it has learnt. It always comes to an
    end and leaves the files and the trace as they are. When the cache has
    a value for the address in lower case, it returns that value and calls
    nothing. When it has none, it asks the contract: an integer of 0..255 is
    returned and stored under the address in lower case, anything else is
    thrown as invalid, and a call that fails is thrown, the cache staying
    as it was. No other entry of the cache is touched; and once a value was
    returned, every later call for the same address, in whatever
    capitals, with whatever endpoint and answers of the chain, returns the
    same value and changes nothing. *)
Theorem getErc20Decimals_memo w provider token s :
  exists o s',
    Pricing.getErc20Decimals w provider token s = (o, s')
    /\ same_effects s s'
    /\ (forall k, k <> JS.toLowerCase token ->
          decimalsCache s' !! k = decimalsCache s !! k)
    /\ match o with
       | Return d =>
           match decimalsCache s !! JS.toLowerCase token with
           | Some c => d = c /\ s' = s
           | None =>
               rpc_decimals w (clock s) provider token = Some d
               /\ 0 <= d <= 255
           end
           /\ forall w' provider' token',
                JS.toLowerCase token' = JS.toLowerCase token ->
                Pricing.getErc20Decimals w' provider' token' s'
                = (Return d, s')
       | Raise e =>
           decimalsCache s !! JS.toLowerCase token = None
           /\ decimalsCache s' = decimalsCache s
           /\ match rpc_decimals w (clock s) provider token with
              | None => e = RpcFailure
              | Some d => e = InvalidDecimals /\ (d < 0 \/ 255 < d)
              end
       | OutOfFuel => False
       end.
Proof.
  destruct (getErc20Decimals_cases w provider token s)
    as (o & s' & Hrun & Hsame & Hothers & Ho).
  exists o, s'. split; [exact Hrun |]. split; [exact Hsame |].
  split; [exact Hothers |].
  destruct o as [d | e |]; [| exact Ho | exact Ho].
  destruct Ho as [Hcache Hfirst]. split; [exact Hfirst |].
  intros w' provider' token' Hkey.
  unfold Pricing.getErc20Decimals. cbv zeta. unfold bind at 1.
  rewrite Hkey, Hcache. reflexivity.
Qed.

(** X19. parseUsdOLAmount with the decimals in the cache is
    parseDecimalToUnits. When the cache has [d] decimals for the token
    address in lower case, parseUsdOLAmount returns or throws what
    parseDecimalToUnits does with [d] decimals, calls nothing and leaves the
    system as it is, whatever the endpoint and the chain id it was given. *)
Theorem parseUsdOLAmount_cached w rpcUrl chainId0 token human s d :
  decimalsCache s !! JS.toLowerCase token = Some d ->
  PricingCalls.parseUsdOLAmount w rpcUrl chainId0 token human s
  = (match Pricing.parseDecimalToUnits human (Z.to_nat d) with
     | Ok units => Return units
     | Throw e => Raise e
     end, s).
Proof.
  intros Hcache. unfold PricingCalls.parseUsdOLAmount.
  assert (Pricing.getErc20Decimals w rpcUrl token s = (Return d, s)) as Hdec.
  { unfold Pricing.getErc20Decimals. cbv zeta. unfold bind at 1.
    rewrite Hcache. reflexivity. }
  rewrite (bind_Return _ _ _ _ _ Hdec).
  destruct (Pricing.parseDecimalToUnits human (Z.to_nat d)); reflexivity.
Qed.



Lemma parseUsdOLAmount_cached_witness :
  PricingCalls.parseUsdOLAmount Examples.down Examples.endpoint 97
    Examples.usdol "2.5" Scenarios.knows_decimals
  = (Return 2500000, Scenarios.knows_decimals).
Proof.
  apply (parseUsdOLAmount_cached Examples.down Examples.endpoint 97
           Examples.usdol "2.5" Scenarios.knows_decimals 6).
  vm_compute. reflexivity.
Defined.

(** ** matchOrder: what is sent *)

Section Sending.
Import MatchOrder.



(** matchOrder stops before it has read or sent anything, or goes on to
    the allowance with an endpoint and an order in the quote token. *)
Lemma matchOrder_enters w cfg sell opts s :
  (exists e s', matchOrder w cfg sell opts s = (Raise e, s')
                /\ same_effects s s' /\ refusal sell e)
  \/ exists u s1 usd,
       same_effects s s1
       /\ getAddress w (currency sell) = Some usd
       /\ getAddress w (USDOL_ADDRESS cfg) = Some usd
       /\ matchOrder w cfg sell opts s
          = (ensureAllowance w cfg (WHIMLAND_PRIVATE_KEY cfg) u (price sell)
               opts ;;;
             buy <- buildBuyOrderFromSell w sell
                      (walletAddress w (WHIMLAND_PRIVATE_KEY cfg)) 300 ;;
             if truthy (dryRun opts) then ret None
             else
               emit (EvMatchOrder sell buy) ;;;
               tx <- call (fun n => rpc_matchOrder w n u sell buy) ;;
               let '(hash, receipt) := tx in
               match receipt with
               | None => ret (Some hash)
               | Some st =>
                   if negb (st =? 1) then throw ExecutionFailed
                   else ret (Some hash)
               end) s1.
Proof.
  destruct (matchOrder_begins w cfg sell opts s)
    as [(e & s' & Hrun & Hsame & He & _)
       | (u & s1 & (_ & _ & usd & _ & _ & _ & _ & _ & Hc1 & Hc2)
            & _ & Hsame & Hrun)].
  - left. eauto.
  - right. exists u, s1, usd. auto.
Qed.

(** With an endpoint that answers and a private key that is one, an order
    whose currency is another address than the quote token is refused for
    its currency. *)
Lemma matchOrder_refuses_currency w cfg sell opts s before u after a b :
  endpoints_of cfg = before ++ u :: after ->
  all_fail w (clock s) before ->
  rpc_blockNumber w (clock s + length before) u <> None ->
  private_key_ok (WHIMLAND_PRIVATE_KEY cfg) ->
  getAddress w (currency sell) = Some a ->
  getAddress w (USDOL_ADDRESS cfg) = Some b ->
  a <> b ->
  exists s',
    matchOrder w cfg sell opts s = (Raise (CurrencyNotUsdol (currency sell)), s').
Proof.
  intros Hus Hfail Hu Hkey Ha Hb Hne.
  unfold matchOrder. cbv zeta.
  change (match RPC_ENDPOINTS cfg with
          | Some (u :: l) => u :: l
          | _ => [RPC_URL cfg]
          end) with (endpoints_of cfg).
  destruct (pickProvider_first w (CHAIN_ID cfg) (endpoints_of cfg) s)
    as (o1 & s1 & Hpick & _ & Ho).
  destruct o1 as [u1 | e |]; [| | destruct Ho].
  2: { exfalso. destruct Ho as [_ Hall]. apply Hu, Hall.
       rewrite Hus. apply list_lookup_middle. reflexivity. }
  rewrite (bind_Return _ _ _ _ _ Hpick).
  apply new_Wallet_ok in Hkey. rewrite Hkey.
  unfold lift. rewrite bind_ret. unfold checked_address.
  rewrite Ha, bind_ret, Hb, bind_ret.
  apply String.eqb_neq in Hne. rewrite Hne. cbn [negb].
  rewrite bind_throw. eexists. reflexivity.
Qed.

End Sending.

(** ** matchOrder: further results *)



(** X21. An order in another currency is refused before anything is read
    or sent. When getAddress does not give the same address for the
    currency of the sell order and for the configured quote token, or
    rejects the currency, matchOrder throws, in dry-run mode or not, and
    the files and the trace are as they were: no allowance is read, no
    approval and no match is submitted. What it throws is the refusal of
    the currency when an endpoint answers, the private key is one a wallet
    can be built on, and getAddress gives two addresses; before that come
    the errors of the endpoints, of the private key and of getAddress. *)
Theorem matchOrder_other_currency w cfg sell opts s :
  getAddress w (currency sell) = None
  \/ getAddress w (currency sell)
     <> getAddress w (MatchOrder.USDOL_ADDRESS cfg) ->
  exists e s',
    MatchOrder.matchOrder w cfg sell opts s = (Raise e, s')
    /\ same_effects s s'
    /\ refusal sell e
    /\ (forall before u after a b,
          endpoints_of cfg = before ++ u :: after ->
          all_fail w (clock s) before ->
          rpc_blockNumber w (clock s + length before) u <> None ->
          private_key_ok (MatchOrder.WHIMLAND_PRIVATE_KEY cfg) ->
          getAddress w (currency sell) = Some a ->
          getAddress w (MatchOrder.USDOL_ADDRESS cfg) = Some b ->
          e = CurrencyNotUsdol (currency sell)).
Proof.
  intros Hother.
  destruct (matchOrder_enters w cfg sell opts s)
    as [(e & s' & Hrun & Hsame & He) | (u & s1 & usd & _ & Hc1 & Hc2 & _)].
  - exists e, s'. split; [exact Hrun |]. split; [exact Hsame |].
    split; [exact He |].
    intros before u after a b Hus Hfail Hu Hkey Ha Hb.
    assert (a <> b) as Hne by (destruct Hother as [H | H]; congruence).
    destruct (matchOrder_refuses_currency w cfg sell opts s before u after a b
                Hus Hfail Hu Hkey Ha Hb Hne) as (s2 & Hrun2).
    congruence.
  - exfalso. destruct Hother as [H | H]; congruence.
Qed.

Lemma matchOrder_other_currency_witness :
  exists s',
    MatchOrder.matchOrder (Examples.quiet 100) Examples.match_cfg
      (Examples.sell_order Examples.other_token 100 0) Scenarios.approve_max
      (Examples.boot ∅)
    = (Raise (CurrencyNotUsdol Examples.other_token), s')
    /\ same_effects (Examples.boot ∅) s'.
Proof.
  destruct (matchOrder_other_currency (Examples.quiet 100) Examples.match_cfg
              (Examples.sell_order Examples.other_token 100 0)
              Scenarios.approve_max (Examples.boot ∅))
    as (e & s' & Hrun & Hsame & _ & Herr).
  { right. vm_compute. discriminate. }
  assert (private_key_ok (MatchOrder.WHIMLAND_PRIVATE_KEY Examples.match_cfg))
    as Hkey.
  { apply new_Wallet_ok. vm_compute. reflexivity. }
  assert (e = CurrencyNotUsdol Examples.other_token) as ->.
  { apply (Herr [] Examples.endpoint []
             (JS.toLowerCase Examples.other_token)
             (JS.toLowerCase Examples.usdol)).
    - reflexivity.
    - intros i v Hi. inversion Hi.
    - vm_compute. discriminate.
    - exact Hkey.
    - vm_compute. reflexivity.
    - vm_compute. reflexivity. }
  exists s'. split; [exact Hrun | exact Hsame].
Defined.

(** ** The endpoint of the indexer *)

Section Failover.
Import Indexer.

Lemma firstHealthy_first w us : forall s,
  exists o s1,
    firstHealthy w us s = (Return o, s1)
    /\ provider s1 = provider s
    /\ match o with
       | Some u => first_to_answer w (clock s) us u
       | None => all_fail w (clock s) us
       end.
Proof.
  induction us as [| u us IH]; intros s; simpl.
  - exists None, s. repeat split. intros i v Hi. inversion Hi.
  - rewrite bind_ask. destruct (rpc_blockNumber w (clock s) u) as [b |] eqn:Hu.
    + exists (Some u), (tock s). repeat split.
      exists [], us. repeat split.
      * intros i v Hi. inversion Hi.
      * simpl. rewrite Nat.add_0_r, Hu. discriminate.
    + destruct (IH (tock s)) as (o & s1 & Hrun & Hp & Ho).
      exists o, s1. split; [exact Hrun |]. split; [exact Hp |].
      cbn [clock tock] in Ho. destruct o as [v |].
      * destruct Ho as (before & after & -> & Hfail & Hv).
        exists (u :: before), after. split; [reflexivity |]. split.
        -- intros [| i] x Hi; simpl in Hi.
           ++ injection Hi as <-. rewrite Nat.add_0_r. exact Hu.
           ++ specialize (Hfail i x Hi).
              replace (clock s + S i)%nat with (S (clock s) + i)%nat by lia.
              exact Hfail.
        -- simpl.
           replace (clock s + S (length before))%nat
             with (S (clock s) + length before)%nat by lia.
           exact Hv.
      * intros [| i] x Hi; simpl in Hi.
        -- injection Hi as <-. rewrite Nat.add_0_r. exact Hu.
        -- specialize (Ho i x Hi).
           replace (clock s + S i)%nat with (S (clock s) + i)%nat by lia.
           exact Ho.
Qed.

Lemma address_re_lower p :
  address_re p = true -> address_re (JS.toLowerCase p) = true.
Proof.
  unfold address_re, JS.toLowerCase.
  rewrite list_ascii_of_string_of_list_ascii.
  destruct (list_ascii_of_string p) as [| c0 [| c1 hex]]; try discriminate.
  cbn [map]. intros H.
  apply andb_true_iff in H as [H Hhex].
  apply andb_true_iff in H as [H Hlen].
  apply andb_true_iff in H as [H0 H1].
  assert (JS.lower_char c0 = c0) as ->.
  { apply Z.eqb_eq in H0. unfold JS.lower_char. rewrite H0. reflexivity. }
  assert (JS.lower_char c1 = c1) as ->.
  { apply Z.eqb_eq in H1. unfold JS.lower_char. rewrite H1. reflexivity. }
  rewrite H0, H1, length_map, Hlen. cbn [andb].
  rewrite forallb_forall in *. intros c Hc.
  apply in_map_iff in Hc as (c' & <- & Hc'). specialize (Hhex c' Hc').
  revert Hhex. clear.
  destruct c' as [[] [] [] [] [] [] [] []]; vm_compute; congruence.
Qed.

End Failover.

(** ** Endpoints and allow-lists: further results *)

(** X22. ensureProvider keeps an endpoint that answers, and otherwise
    takes the first of the list that does. It asks the current endpoint
    for the block number; when it answers, the endpoint stays, whether it
    is in the list or not. When it does not, the endpoints of the list are
    asked one after the other, each once: the first one to answer becomes
    the endpoint, and when none does ensureProvider throws and the endpoint
    stays. The files and the trace are as they were in every case. *)
Theorem ensureProvider_failover w cfg s :
  exists o s',
    Indexer.ensureProvider w cfg s = (o, s')
    /\ same_effects s s'
    /\ match rpc_blockNumber w (clock s) (provider s) with
       | Some _ => o = Return tt /\ provider s' = provider s
       | None =>
           (o = Return tt
            /\ first_to_answer w (S (clock s)) (Indexer.urls cfg) (provider s'))
           \/ (o = Raise NoHealthyRpc
               /\ provider s' = provider s
               /\ all_fail w (S (clock s)) (Indexer.urls cfg))
       end.
Proof.
  unfold Indexer.ensureProvider. unfold get_provider. unfold bind at 1.
  rewrite bind_ask. destruct (rpc_blockNumber w (clock s) (provider s)).
  - eexists _, _. split; [reflexivity |].
    split; [apply same_effects_tock | auto].
  - destruct (firstHealthy_first w (Indexer.urls cfg) (tock s))
      as (o & s1 & Hrun & Hp & Ho).
    destruct (firstHealthy_cases w (Indexer.urls cfg) (tock s))
      as (o' & s1' & Hrun' & [Hf Ht]).
    rewrite Hrun in Hrun'. injection Hrun' as <- <-.
    rewrite (bind_Return _ _ _ _ _ Hrun).
    destruct o as [u |].
    + eexists _, _. split; [reflexivity |].
      split; [split; [exact Hf | exact Ht] |]. left. auto.
    + eexists _, _. split; [reflexivity |].
      split; [split; [exact Hf | exact Ht] |]. right. auto.
Qed.

(** X23. The allow-list holds addresses in lower case only, and is the
    same for the indexer and for the risk checker. The two parseAllowlist
    return the same set for every configured value. An element of that set
    is the lower case of an entry of the configured list that has the form
    of an address (0x and 40 hexadecimal digits) and every such entry gives
    one; so every element, of the one set or the other, has the form of an
    address and is its own lower case, and only an address that has been
    put in lower case can be found in it. With no list configured the set
    is empty. *)
Theorem parseAllowlist_lower_addresses raw :
  Indexer.parseAllowlist raw = RiskChecker.parseAllowlist raw
  /\ (forall x,
        x ∈ Indexer.parseAllowlist raw
        <-> exists r a, raw = Some r /\ listed r a /\ address_form a
                        /\ x = JS.toLowerCase a)
  /\ (forall x,
        x ∈ Indexer.parseAllowlist raw \/ x ∈ RiskChecker.parseAllowlist raw ->
        raw <> None /\ address_form x /\ JS.toLowerCase x = x).
Proof.
  split; [symmetry; apply parseAllowlist_same |].
  assert (forall x,
    x ∈ Indexer.parseAllowlist raw
    <-> exists r a, raw = Some r /\ listed r a /\ address_form a
                    /\ x = JS.toLowerCase a) as Hset.
  { intros x. destruct raw as [r |].
    - rewrite parseAllowlist_listed. split.
      + intros (a & Ha & Hf & Hx). exists r, a. auto.
      + intros (r' & a & [= <-] & Ha & Hf & Hx). exists a. auto.
    - split.
      + intros H. apply not_elem_of_empty in H. destruct H.
      + intros (r & a & Hr & _). discriminate. }
  split; [exact Hset |].
  intros x Hx.
  assert (x ∈ Indexer.parseAllowlist raw) as Hin.
  { destruct Hx as [Hx | Hx]; [exact Hx |].
    rewrite parseAllowlist_same in Hx. exact Hx. }
  apply Hset in Hin as (r & a & -> & _ & Hf & ->).
  split; [discriminate |].
  split; [| apply toLowerCase_idem].
  apply address_re_form, address_re_lower, address_re_form, Hf.
Qed.

Lemma parseAllowlist_lower_addresses_witness :
  address_form Examples.collection
  /\ JS.toLowerCase Examples.collection = Examples.collection
  /\ Examples.collection
       ∈ RiskChecker.parseAllowlist (Some Scenarios.mixed_allowlist).
Proof.
  assert (Examples.collection
            ∈ Indexer.parseAllowlist (Some Scenarios.mixed_allowlist)) as Hin.
  { vm_compute. reflexivity. }
  destruct (parseAllowlist_lower_addresses (Some Scenarios.mixed_allowlist))
    as (Hsame & _ & Hform).
  destruct (Hform Examples.collection (or_introl Hin)) as (_ & H1 & H2).
  split; [exact H1 |]. split; [exact H2 |].
  rewrite <- Hsame. exact Hin.
Defined.

(** ** sync: the batch size *)

(** X24. The loop of sync comes to an end exactly when the batch size is
    positive. Entered with a first block that is not beyond the head, the
    loop ends, by a return or a throw, within as many rounds as there are
    blocks up to the head when the batch size is at least 1. With a batch
    size of 0 or less the loop variable never gets beyond the head: the
    loop does not return, however many rounds it is given; it goes on
    scanning and writing until a scan throws. *)
Theorem sync_loop_ends w cfg head st from :
  from <= head ->
  (1 <= batchSize w ->
   forall s,
     fst (Indexer.sync_loop w cfg (Z.to_nat (head - from + 1)) head
            (batchSize w) st from s) <> OutOfFuel)
  /\ (batchSize w <= 0 ->
      forall fuel s r,
        fst (Indexer.sync_loop w cfg fuel head (batchSize w) st from s)
        <> Return r).
Proof.
  intros Hle. split.
  - intros Hstep. apply terminates_sync_loop; [exact Hstep | lia].
  - intros Hstep fuel. revert st from Hle.
    induction fuel as [| fuel IH]; intros st from Hle s r; simpl;
      assert ((from <=? head) = true) as -> by (zbool; lia);
      [discriminate |].
    destruct (Indexer.scanRange w cfg st from
                (Z.min head (from + batchSize w - 1)) s)
      as [[st1 | e |] s1] eqn:Hscan.
    + rewrite (bind_Return _ _ _ _ _ Hscan).
      unfold bind at 1. unfold Indexer.writeIndex at 1. cbv iota beta.
      apply IH. lia.
    + rewrite (bind_Raise _ _ _ _ _ Hscan). discriminate.
    + unfold bind. rewrite Hscan. discriminate.
Qed.

Lemma sync_loop_ends_witness :
  fst (Indexer.sync_loop (Scenarios.in_batches 1000)
         (Examples.indexer_cfg 1 None) (Z.to_nat (100 - 11 + 1)) 100 30
         (Examples.index_of 10 ∅) 11 Scenarios.scanned_to_10)
  <> OutOfFuel.
Proof.
  refine (proj1 (sync_loop_ends (Scenarios.in_batches 1000)
                   (Examples.indexer_cfg 1 None) 100 (Examples.index_of 10 ∅)
                   11 _) _ Scenarios.scanned_to_10).
  - lia.
  - vm_compute. discriminate.
Defined.
